(** * The playlist writer of m3u8 (writer.go), embedded in Rocq

    The development follows writer.go top to bottom: the Go values the
    writer computes with (machine integers, slices, pointers into a store,
    panics), the playlist types it reads and writes, the mutators of media
    and master playlists, the two encoders, and then the properties of the
    ring buffer, of the cache and of the encoder. *)

From Stdlib Require Import ZArith QArith Qround Qminmax String Ascii DecimalString Lia.
From stdpp Require Import base list strings gmap.

Local Open Scope Z_scope.

(** ** Go values *)

(** Unsigned machine integers are integers reduced modulo their width;
    [uint] is taken to be 64 bits wide, like [uint64]. The version, a
    [uint8], is only ever assigned and compared. *)
Definition wrap64 (z : Z) : Z := z mod 2 ^ 64.

(** A run-time panic aborts the call; the model keeps its kind. *)
Inductive panic : Type :=
  | IndexOutOfRange
  | SliceBoundsOutOfRange
  | DivideByZero
  | NilDereference
  | MakesliceLenOutOfRange.

Inductive res (A : Type) : Type :=
  | Ret (a : A)
  | Panic (e : panic).
Arguments Ret {A} a.
Arguments Panic {A} e.

Definition res_bind {A B : Type} (r : res A) (k : A -> res B) : res B :=
  match r with
  | Ret a => k a
  | Panic e => Panic e
  end.

Notation "'let+' x ':=' r 'in' k" := (res_bind r (fun x => k))
  (at level 10, x name, r at level 100, k at level 200, only parsing).

(** [a % b] on unsigned operands. *)
Definition umod (a b : Z) : res Z :=
  if b =? 0 then Panic DivideByZero else Ret (a mod b).

(** A float64 that holds a finite value is the rational it denotes; on
    such values [<] and [math.Ceil] are exact. *)
Definition float64 : Type := Q.

Definition float_lt (a b : float64) : bool := negb (Qle_bool b a).
Definition math_Ceil (x : float64) : float64 := inject_Z (Qceiling x).
(** The integer left when the fraction is discarded. *)
Definition float_trunc (x : float64) : Z :=
  if Qle_bool 0 x then Qfloor x else Qceiling x.

(** [strconv.FormatUint(n, 10)] and [strconv.FormatInt(n, 10)]. *)
Definition FormatUint (n : Z) : string := NilZero.string_of_uint (N.to_uint (Z.to_N n)).
Definition FormatInt (n : Z) : string := NilZero.string_of_int (Z.to_int n).

(** The byte written by [WriteRune] for a newline and for a double quote. *)
Definition nl : string := String (ascii_of_nat 10) EmptyString.
Definition dq : string := String (ascii_of_nat 34) EmptyString.

(** [strings.Contains]. *)
Fixpoint strings_Contains (s sub : string) : bool :=
  String.prefix sub s ||
  match s with
  | EmptyString => false
  | String _ s' => strings_Contains s' sub
  end.

(** *** Slices

    A slice is the list of its elements together with the rest of its
    backing array, which re-slicing up to the capacity brings back. *)
Record slice (A : Type) : Type := mkSlice { elems : list A; spare : list A }.
Arguments mkSlice {A} elems spare.
Arguments elems {A} s.
Arguments spare {A} s.

Definition len {A} (s : slice A) : Z := Z.of_nat (length (elems s)).
Definition cap {A} (s : slice A) : Z := Z.of_nat (length (elems s) + length (spare s)).

(** [maxAlloc] of the Go runtime, the largest allocation: 2^48 bytes with
    the 48-bit heap addresses of the 64-bit platforms. *)
Definition maxAlloc : Z := 2 ^ 48.

(** The size in bytes of a pointer. *)
Definition PtrSize : Z := 8.

(** [make([]T, n)] for elements of [size] bytes, with the zero value [z].
    It panics, makeslice: len out of range, when the length is negative or
    the array would be larger than [maxAlloc], which a length that does not
    fit an [int] always is. Within that limit the allocation is taken to
    succeed, as that of [new] is. *)
Definition make {A} (size : Z) (z : A) (n : Z) : res (slice A) :=
  if (0 <=? n) && (n * size <=? maxAlloc)
  then Ret (mkSlice (replicate (Z.to_nat n) z) [])
  else Panic MakesliceLenOutOfRange.

(** [s[i]], with its bounds check. *)
Definition index {A} (s : slice A) (i : Z) : res A :=
  if (0 <=? i) && (i <? len s) then
    match elems s !! Z.to_nat i with
    | Some x => Ret x
    | None => Panic IndexOutOfRange
    end
  else Panic IndexOutOfRange.

(** [s[i] = x], with its bounds check. *)
Definition assign {A} (s : slice A) (i : Z) (x : A) : res (slice A) :=
  if (0 <=? i) && (i <? len s) then
    Ret (mkSlice (<[Z.to_nat i := x]> (elems s)) (spare s))
  else Panic IndexOutOfRange.

(** [s[:n]]: legal up to the capacity. *)
Definition reslice_to {A} (s : slice A) (n : Z) : res (slice A) :=
  if (0 <=? n) && (n <=? cap s) then
    let whole := elems s ++ spare s in
    Ret (mkSlice (take (Z.to_nat n) whole) (drop (Z.to_nat n) whole))
  else Panic SliceBoundsOutOfRange.

(** The builtin [copy(dst, src)] on the element lists: as many elements as
    the shorter of the two holds, the rest of [dst] unchanged. *)
Definition copy {A} (dst src : list A) : list A :=
  take (length dst) src ++ drop (length src) dst.

(** [copy(s[off:], src)] seen from [s]. *)
Definition copy_at {A} (s : list A) (off : Z) (src : list A) : res (list A) :=
  if (0 <=? off) && (off <=? Z.of_nat (length s)) then
    Ret (take (Z.to_nat off) s ++ copy (drop (Z.to_nat off) s) src)
  else Panic SliceBoundsOutOfRange.

(** ** The playlist types *)

(** A pointer is nil or the address of an object of the store. *)
Abbreviation addr := nat (only parsing).
Abbreviation ptr := (option nat) (only parsing).

(** The two variables of writer.go, and the errors made on the spot by
    [errors.New]. *)
Inductive error : Type :=
  | ErrPlaylistFull
  | ErrPlaylistEmpty
  | errors_New (msg : string).

Definition Error (e : error) : string :=
  match e with
  | ErrPlaylistFull => "playlist is full"
  | ErrPlaylistEmpty => "playlist is empty"
  | errors_New msg => msg
  end.

(** Modelled from the spec: [time.Time] as the writer uses it, an instant
    counted from January 1 of year 1, 00:00:00 UTC, in a zone; its zero
    value is that instant. *)
Module Time.
Record t : Type := mk { sec : Z; nsec : Z; offset : Z }.
Definition zero : t := mk 0 0 0.
Definition IsZero (x : t) : bool := (sec x =? 0) && (nsec x =? 0).
End Time.

(** Modelled from the spec: the struct [Key] of structure.go (method, URI,
    IV, keyformat, keyformat-versions). *)
Module Key.
Record t : Type := mk {
  Method : string;
  URI : string;
  IV : string;
  Keyformat : string;
  Keyformatversions : string }.
End Key.

(** Modelled from the spec: the struct [Map] of structure.go (URI, byte
    length, byte offset). *)
Module Map.
Record t : Type := mk { URI : string; Limit : Z; Offset : Z }.
End Map.

(** Modelled from the spec: the struct [SCTE] of structure.go with its two
    enumerations, the syntax (legacy cue or OATCLS) and the cue phase. *)
Module SCTE.
Inductive SCTE35Syntax : Type := SCTE35_67_2014 | SCTE35_OATCLS.
Inductive SCTE35CueType : Type := SCTE35Cue_Start | SCTE35Cue_Mid | SCTE35Cue_End.
Record t : Type := mk {
  Syntax : SCTE35Syntax;
  CueType : SCTE35CueType;
  Cue : string;
  ID : string;
  Time : float64;
  Elapsed : float64 }.
End SCTE.

(** Modelled from the spec: the struct [DateRange] of structure.go, with
    the fields the encoder reads. *)
Module DateRange.
Record t : Type := mk {
  ID : string;
  Class : string;
  StartDate : Time.t;
  EndDate : Time.t;
  Duration : float64;
  PlannedDuration : float64;
  SCTE35Cmd : string;
  SCTE35In : string;
  SCTE35Out : string;
  EndOnNext : string;
  XResumeOfsset : float64;
  XPlayoutLimit : float64;
  XSnap : string;
  XRestrict : string;
  XAssetURI : string;
  XAssetList : string;
  X : gmap string string }.
End DateRange.

(** Modelled from the spec: the interface [CustomTag] of structure.go, a
    value with a name and an optional rendering. *)
Module CustomTag.
Record t : Type := mk { TagName : string; Encode : option string }.
End CustomTag.

(** Modelled from the spec: the struct [WV] of structure.go (vendor DRM
    metadata). *)
Module WV.
Record t : Type := mk {
  AudioChannels : Z;
  AudioFormat : Z;
  AudioProfileIDC : Z;
  AudioSampleSize : Z;
  AudioSamplingFrequency : Z;
  CypherVersion : string;
  ECM : string;
  VideoFormat : Z;
  VideoFrameRate : Z;
  VideoLevelIDC : Z;
  VideoProfileIDC : Z;
  VideoResolution : string;
  VideoSAR : string }.
End WV.

(** Modelled from the spec: the enumeration [MediaType] of structure.go;
    [NoType] is its zero value. *)
Inductive MediaType : Type := NoType | EVENT | VOD.

(** A custom-tag map is nil or a map from tag names to tags. *)
Definition CustomMap : Type := option (gmap string CustomTag.t).

(** [m[tag.TagName()] = tag], after [make] when the map is nil. *)
Definition custom_set (m : CustomMap) (tag : CustomTag.t) : CustomMap :=
  Some (<[CustomTag.TagName tag := tag]> (default ∅ m)).

(** Modelled from the spec: the struct [MediaSegment] of structure.go. The
    key is held by reference (it is compared by identity); the map and the
    cue are never written through by the writer and are held by value.
    [DateRange] is the list of the elements of the slice, a nil entry being
    [None]; an [append] that writes into spare capacity of a backing array
    shared with another slice is not followed. *)
Module MediaSegment.
Record t : Type := mk {
  SeqId : Z;
  Title : string;
  URI : string;
  Duration : float64;
  Limit : Z;
  Offset : Z;
  Key : ptr;
  Map : option Map.t;
  Discontinuity : bool;
  SCTE : option SCTE.t;
  ProgramDateTime : Time.t;
  Custom : CustomMap;
  DateRange : list (option DateRange.t);
  Gap : bool }.

(** [new(MediaSegment)]. *)
Definition zero : t :=
  mk 0 "" "" (0%Q) 0 0 None None false None Time.zero None [] false.

Definition set_SeqId v '(mk _ b c d e f g h i j k l m n) := mk v b c d e f g h i j k l m n.
Definition set_Title v '(mk a _ c d e f g h i j k l m n) := mk a v c d e f g h i j k l m n.
Definition set_URI v '(mk a b _ d e f g h i j k l m n) := mk a b v d e f g h i j k l m n.
Definition set_Duration v '(mk a b c _ e f g h i j k l m n) := mk a b c v e f g h i j k l m n.
Definition set_Limit v '(mk a b c d _ f g h i j k l m n) := mk a b c d v f g h i j k l m n.
Definition set_Offset v '(mk a b c d e _ g h i j k l m n) := mk a b c d e v g h i j k l m n.
Definition set_Key v '(mk a b c d e f _ h i j k l m n) := mk a b c d e f v h i j k l m n.
Definition set_Map v '(mk a b c d e f g _ i j k l m n) := mk a b c d e f g v i j k l m n.
Definition set_Discontinuity v '(mk a b c d e f g h _ j k l m n) := mk a b c d e f g h v j k l m n.
Definition set_SCTE v '(mk a b c d e f g h i _ k l m n) := mk a b c d e f g h i v k l m n.
Definition set_ProgramDateTime v '(mk a b c d e f g h i j _ l m n) := mk a b c d e f g h i j v l m n.
Definition set_Custom v '(mk a b c d e f g h i j k _ m n) := mk a b c d e f g h i j k v m n.
Definition set_DateRange v '(mk a b c d e f g h i j k l _ n) := mk a b c d e f g h i j k l v n.
Definition set_Gap v '(mk a b c d e f g h i j k l m _) := mk a b c d e f g h i j k l m v.
End MediaSegment.

(** Modelled from the spec: the struct [MediaPlaylist] of structure.go.
    [buf] is the cached encoding, a [bytes.Buffer] held as its bytes. *)
Module MediaPlaylist.
Record t : Type := mk {
  TargetDuration : float64;
  SeqNo : Z;
  Segments : slice ptr;
  Args : string;
  Iframe : bool;
  Closed : bool;
  MediaType_ : MediaType;
  DiscontinuitySeq : Z;
  StartTime : float64;
  StartTimePrecise : bool;
  durationAsInt : bool;
  winsize : Z;
  capacity : Z;
  head : Z;
  tail : Z;
  count : Z;
  buf : string;
  ver : Z;
  Key : ptr;
  Map : option Map.t;
  WV : option WV.t;
  Custom : CustomMap;
  independentSegments : bool }.

(** [new(MediaPlaylist)]. *)
Definition zero : t :=
  mk (0%Q) 0 (mkSlice [] []) "" false false NoType 0 (0%Q) false false
     0 0 0 0 0 "" 0 None None None None false.

Definition set_TargetDuration v '(mk _ b c d e f g h i j k l m n o p q r s t u x y) :=
  mk v b c d e f g h i j k l m n o p q r s t u x y.
Definition set_SeqNo v '(mk a _ c d e f g h i j k l m n o p q r s t u x y) :=
  mk a v c d e f g h i j k l m n o p q r s t u x y.
Definition set_Segments v '(mk a b _ d e f g h i j k l m n o p q r s t u x y) :=
  mk a b v d e f g h i j k l m n o p q r s t u x y.
Definition set_Iframe v '(mk a b c d _ f g h i j k l m n o p q r s t u x y) :=
  mk a b c d v f g h i j k l m n o p q r s t u x y.
Definition set_Closed v '(mk a b c d e _ g h i j k l m n o p q r s t u x y) :=
  mk a b c d e v g h i j k l m n o p q r s t u x y.
Definition set_durationAsInt v '(mk a b c d e f g h i j _ l m n o p q r s t u x y) :=
  mk a b c d e f g h i j v l m n o p q r s t u x y.
Definition set_winsize v '(mk a b c d e f g h i j k _ m n o p q r s t u x y) :=
  mk a b c d e f g h i j k v m n o p q r s t u x y.
Definition set_capacity v '(mk a b c d e f g h i j k l _ n o p q r s t u x y) :=
  mk a b c d e f g h i j k l v n o p q r s t u x y.
Definition set_head v '(mk a b c d e f g h i j k l m _ o p q r s t u x y) :=
  mk a b c d e f g h i j k l m v o p q r s t u x y.
Definition set_tail v '(mk a b c d e f g h i j k l m n _ p q r s t u x y) :=
  mk a b c d e f g h i j k l m n v p q r s t u x y.
Definition set_count v '(mk a b c d e f g h i j k l m n o _ q r s t u x y) :=
  mk a b c d e f g h i j k l m n o v q r s t u x y.
Definition set_buf v '(mk a b c d e f g h i j k l m n o p _ r s t u x y) :=
  mk a b c d e f g h i j k l m n o p v r s t u x y.
Definition set_ver v '(mk a b c d e f g h i j k l m n o p q _ s t u x y) :=
  mk a b c d e f g h i j k l m n o p q v s t u x y.
Definition set_Key v '(mk a b c d e f g h i j k l m n o p q r _ t u x y) :=
  mk a b c d e f g h i j k l m n o p q r v t u x y.
Definition set_Map v '(mk a b c d e f g h i j k l m n o p q r s _ u x y) :=
  mk a b c d e f g h i j k l m n o p q r s v u x y.
Definition set_Custom v '(mk a b c d e f g h i j k l m n o p q r s t u _ y) :=
  mk a b c d e f g h i j k l m n o p q r s t u v y.
Definition set_independentSegments v '(mk a b c d e f g h i j k l m n o p q r s t u x _) :=
  mk a b c d e f g h i j k l m n o p q r s t u x v.
End MediaPlaylist.

(** Modelled from the spec: the struct [Alternative] of structure.go, one
    rendition of an EXT-X-MEDIA group. *)
Module Alternative.
Record t : Type := mk {
  GroupId : string;
  URI : string;
  Type_ : string;
  Language : string;
  Name : string;
  Default : bool;
  Autoselect : string;
  Forced : string;
  Characteristics : string;
  Subtitles : string;
  InstreamId : string;
  Channels : string }.
End Alternative.

(** Modelled from the spec: the struct [VariantParams] of structure.go. *)
Module VariantParams.
Record t : Type := mk {
  ProgramId : Z;
  Bandwidth : Z;
  AverageBandwidth : Z;
  Codecs : string;
  Resolution : string;
  Audio : string;
  Video : string;
  Subtitles : string;
  Captions : string;
  Name : string;
  Iframe : bool;
  VideoRange : string;
  HDCPLevel : string;
  FrameRate : float64;
  Alternatives : list (option Alternative.t) }.
End VariantParams.

(** Modelled from the spec: the struct [Variant] of structure.go; the
    chunklist is a reference the writer stores and never follows. *)
Module Variant.
Record t : Type := mk {
  URI : string;
  Chunklist : ptr;
  Params : VariantParams.t }.
End Variant.

(** Modelled from the spec: the struct [SessionData] of structure.go. *)
Module SessionData.
Record t : Type := mk {
  DataID : string;
  Value : string;
  URI : string;
  Language : string }.
End SessionData.

(** Modelled from the spec: the struct [MasterPlaylist] of structure.go. *)
Module MasterPlaylist.
Record t : Type := mk {
  Variants : list (option Variant.t);
  Args : string;
  buf : string;
  ver : Z;
  independentSegments : bool;
  Custom : CustomMap;
  SessionData_ : list (option SessionData.t) }.

(** [new(MasterPlaylist)]. *)
Definition zero : t := mk [] "" "" 0 false None [].

Definition set_Variants v '(mk _ b c d e f g) := mk v b c d e f g.
Definition set_buf v '(mk a b _ d e f g) := mk a b v d e f g.
Definition set_ver v '(mk a b c _ e f g) := mk a b c v e f g.
Definition set_independentSegments v '(mk a b c d _ f g) := mk a b c d v f g.
Definition set_Custom v '(mk a b c d e _ g) := mk a b c d e v g.
End MasterPlaylist.

(** What writer.go takes from outside: the constants [minver] and
    [DATETIME] of structure.go, the formatting functions of the Go library
    that are not integer formatting, and what Go leaves to the platform:
    the result of converting to [int64] a float that is out of its range. *)
Class Env : Type := {
  minver : Z;
  DATETIME : string;
  time_Format : Time.t -> string -> string;
  strconv_FormatFloat : float64 -> ascii -> Z -> Z -> string;
  strings_ToLower : string -> string;
  int64_out_of_range : float64 -> Z }.

(** [int64(x)]: the fraction is discarded; a value that does not fit the
    64 bits converts to whatever the platform gives. *)
Definition int64_of_float {env : Env} (x : float64) : Z :=
  let z := float_trunc x in
  if (- 2 ^ 63 <=? z) && (z <? 2 ^ 63) then z else int64_out_of_range x.

(** ** The store and the calls on it

    A media playlist lives in a world with the segments and the keys that
    pointers refer to. A call takes a world to a result and a new world,
    or panics. *)
Record World : Type := mkWorld {
  segs : list MediaSegment.t;
  keys : list Key.t;
  pl : MediaPlaylist.t }.

Definition M (A : Type) : Type := World -> res (A * World).

Definition ret {A} (a : A) : M A := fun w => Ret (a, w).

Definition bind {A B} (m : M A) (k : A -> M B) : M B :=
  fun w => match m w with
           | Ret (a, w') => k a w'
           | Panic e => Panic e
           end.

Notation "'let*' x ':=' m 'in' k" := (bind m (fun x => k))
  (at level 10, x name, m at level 100, k at level 200, only parsing).
Notation "m ;; k" := (bind m (fun _ => k))
  (at level 100, k at level 200, right associativity, only parsing).

Definition lift {A} (r : res A) : M A :=
  fun w => match r with Ret a => Ret (a, w) | Panic e => Panic e end.

(** Reading [p] and writing to its fields. *)
Definition getp : M MediaPlaylist.t := fun w => Ret (pl w, w).
Definition modp (f : MediaPlaylist.t -> MediaPlaylist.t) : M unit :=
  fun w => Ret (tt, mkWorld (segs w) (keys w) (f (pl w))).

(** [new(MediaSegment)] and [&Key{...}]: a fresh address. *)
Definition new_segment : M ptr :=
  fun w => Ret (Some (length (segs w)),
                mkWorld (segs w ++ [MediaSegment.zero]) (keys w) (pl w)).
Definition new_key (k : Key.t) : M ptr :=
  fun w => Ret (Some (length (keys w)),
                mkWorld (segs w) (keys w ++ [k]) (pl w)).

(** Following a segment pointer, to read and to write a field. *)
Definition deref {A} (store : list A) (x : ptr) : res A :=
  match x with
  | None => Panic NilDereference
  | Some a => match store !! a with
              | Some v => Ret v
              | None => Panic NilDereference
              end
  end.

Definition load (x : ptr) : M MediaSegment.t :=
  fun w => lift (deref (segs w) x) w.

Definition update (x : ptr) (f : MediaSegment.t -> MediaSegment.t) : M unit :=
  let* s := load x in
  fun w => match x with
           | Some a => Ret (tt, mkWorld (<[a := f s]> (segs w)) (keys w) (pl w))
           | None => Panic NilDereference
           end.

(** [version(&p.ver, newver)]. *)
Definition version (ver newver : Z) : Z := if ver <? newver then newver else ver.

(** [strver]. *)
Definition strver (ver : Z) : string := FormatUint ver.

Section Writer.
Context {env : Env}.

Import MediaPlaylist.

(** *** Media playlists: construction and the ring buffer *)

Definition SetWinSize (winsize' : Z) : M (option error) :=
  let* p := getp in
  if capacity p <? winsize' then
    ret (Some (errors_New "capacity must be greater than winsize or equal"))
  else
    modp (set_winsize winsize') ;;
    ret None.

(** [NewMediaPlaylist]: on success the world's playlist is the new one; on
    error no playlist is returned and the world is as before. *)
Definition NewMediaPlaylist (winsize' capacity' : Z) : M (option error) :=
  fun w =>
    let p := set_capacity capacity' (set_ver minver MediaPlaylist.zero) in
    match SetWinSize winsize' (mkWorld (segs w) (keys w) p) with
    | Ret (Some err, _) => Ret (Some err, w)
    | Ret (None, w') =>
        (let* segments := lift (make PtrSize None capacity') in
         modp (set_Segments segments) ;; ret None) w'
    | Panic e => Panic e
    end.

(** The index chosen by the [switch] of [InsertSegments]. *)
Definition insertIndex_of (segments_len : Z) (seqID : Z) : Z :=
  if segments_len <=? seqID then segments_len
  else if negb (seqID =? 0) && (seqID <? segments_len) then seqID - 1
  else 0.

(** The first renumbering loop: [n] iterations from [i], with [iterator]. *)
Fixpoint renumber_inserted (n : nat) (i iterator insertIndex : Z) : M unit :=
  match n with
  | O => ret tt
  | S n' =>
      let* p := getp in
      let* s := lift (index (Segments p) i) in
      update s (MediaSegment.set_SeqId (wrap64 (insertIndex + iterator))) ;;
      renumber_inserted n' (i + 1) (iterator + 1) insertIndex
  end.

(** The second renumbering loop: [n] iterations from [i]. *)
Fixpoint renumber_following (n : nat) (i adjustment : Z) : M unit :=
  match n with
  | O => ret tt
  | S n' =>
      let* p := getp in
      let* s := lift (index (Segments p) i) in
      match s with
      | Some _ =>
          let* seg := load s in
          update s (MediaSegment.set_SeqId (wrap64 (MediaSegment.SeqId seg + adjustment)))
      | None => ret tt
      end ;;
      renumber_following n' (i + 1) adjustment
  end.

Definition InsertSegments (segments : list ptr) (seqID : Z) : M (option error) :=
  if Z.of_nat (length segments) =? 0 then ret (Some ErrPlaylistEmpty) else
  let* p := getp in
  let insertIndex := insertIndex_of (len (Segments p)) seqID in
  let adjustment := Z.of_nat (length segments) in
  let newLength := len (Segments p) + Z.of_nat (length segments) in
  (if cap (Segments p) <? newLength then
     let newSegments := replicate (Z.to_nat newLength) None in
     let newSegments := copy newSegments (take (Z.to_nat insertIndex) (elems (Segments p))) in
     let* newSegments := lift (copy_at newSegments (insertIndex + Z.of_nat (length segments))
                                 (drop (Z.to_nat insertIndex) (elems (Segments p)))) in
     modp (set_Segments (mkSlice newSegments []))
   else
     let* s := lift (reslice_to (Segments p) newLength) in
     let* e := lift (copy_at (elems s) (insertIndex + Z.of_nat (length segments))
                       (drop (Z.to_nat insertIndex) (elems s))) in
     modp (set_Segments (mkSlice e (spare s)))) ;;
  let* p := getp in
  let* e := lift (copy_at (elems (Segments p)) insertIndex segments) in
  modp (set_Segments (mkSlice e (spare (Segments p)))) ;;
  renumber_inserted (length segments) insertIndex 1 insertIndex ;;
  let* p := getp in
  renumber_following
    (Z.to_nat (len (Segments p) - (insertIndex + Z.of_nat (length segments))))
    (insertIndex + Z.of_nat (length segments)) adjustment ;;
  modp (fun p => set_count (wrap64 (count p + adjustment)) p) ;;
  modp (fun p => set_capacity (wrap64 (capacity p + adjustment)) p) ;;
  modp (fun p => set_tail (count p) p) ;;
  modp (set_buf "") ;;
  ret None.

Definition SetMediaSegments (segments : slice ptr) : M unit :=
  modp (set_Segments segments) ;;
  modp (fun p => set_count (len segments) p) ;;
  modp (fun p => set_tail (count p) p) ;;
  modp (fun p => set_capacity (count p) p) ;;
  modp (set_buf "").

(** [last]: the index of the segment written last. *)
Definition last (p : MediaPlaylist.t) : Z :=
  if tail p =? 0 then wrap64 (capacity p - 1) else wrap64 (tail p - 1).

Definition Remove : M (option error) :=
  let* p := getp in
  if count p =? 0 then ret (Some (errors_New "playlist is empty")) else
  let* h := lift (umod (wrap64 (head p + 1)) (capacity p)) in
  modp (set_head h) ;;
  modp (fun p => set_count (wrap64 (count p - 1)) p) ;;
  modp (fun p => if negb (Closed p) then set_SeqNo (wrap64 (SeqNo p + 1)) p else p) ;;
  modp (set_buf "") ;;
  ret None.

Definition AppendSegment (seg : ptr) : M (option error) :=
  let* p := getp in
  if (head p =? tail p) && (0 <? count p) then ret (Some ErrPlaylistFull) else
  update seg (MediaSegment.set_SeqId (SeqNo p)) ;;
  (if 0 <? count p then
     let* i := lift (umod (wrap64 (capacity p + tail p - 1)) (capacity p)) in
     let* prev := lift (index (Segments p) i) in
     let* s := load prev in
     update seg (MediaSegment.set_SeqId (wrap64 (MediaSegment.SeqId s + 1)))
   else ret tt) ;;
  let* segments := lift (assign (Segments p) (tail p) seg) in
  modp (set_Segments segments) ;;
  let* t := lift (umod (wrap64 (tail p + 1)) (capacity p)) in
  modp (set_tail t) ;;
  modp (fun p => set_count (wrap64 (count p + 1)) p) ;;
  let* s := load seg in
  modp (fun p => if float_lt (TargetDuration p) (MediaSegment.Duration s)
                 then set_TargetDuration (math_Ceil (MediaSegment.Duration s)) p
                 else p) ;;
  modp (set_buf "") ;;
  ret None.

Definition Append (uri : string) (duration : float64) (title : string) : M (option error) :=
  let* seg := new_segment in
  update seg (MediaSegment.set_URI uri) ;;
  update seg (MediaSegment.set_Duration duration) ;;
  update seg (MediaSegment.set_Title title) ;;
  AppendSegment seg.

Definition Slide (uri : string) (duration : float64) (title : string) : M unit :=
  let* p := getp in
  (if negb (Closed p) && (winsize p <=? count p) then Remove ;; ret tt else ret tt) ;;
  Append uri duration title ;;
  ret tt.

Definition ResetCache : M unit := modp (set_buf "").

(** *** Media playlists: playlist-wide setters *)

Definition buf_Len (b : string) : Z := Z.of_nat (String.length b).

Definition str_empty (s : string) : bool := String.eqb s "".

Definition DurationAsInt (yes : bool) : M unit :=
  (if yes then modp (fun p => set_ver (version (ver p) 3) p) else ret tt) ;;
  modp (set_durationAsInt yes).

Definition Count : M Z := let* p := getp in ret (count p).

Definition Close : M unit :=
  let* p := getp in
  (if 0 <? buf_Len (buf p)
   then modp (fun p => set_buf (buf p +:+ "#EXT-X-ENDLIST" +:+ nl) p)
   else ret tt) ;;
  modp (set_Closed true).

Definition SetDefaultKey (method uri iv keyformat keyformatversions : string)
  : M (option error) :=
  (if negb (str_empty keyformat) || negb (str_empty keyformatversions)
   then modp (fun p => set_ver (version (ver p) 5) p) else ret tt) ;;
  let* k := new_key (Key.mk method uri iv keyformat keyformatversions) in
  modp (set_Key k) ;;
  ret None.

Definition SetDefaultMap (uri : string) (limit offset : Z) : M unit :=
  modp (fun p => set_ver (version (ver p) 5) p) ;;
  modp (set_Map (Some (Map.mk uri limit offset))).

Definition SetIframeOnly : M unit :=
  modp (fun p => set_ver (version (ver p) 4) p) ;;
  modp (set_Iframe true).

Definition SetCustomTag (tag : CustomTag.t) : M unit :=
  modp (fun p => set_Custom (custom_set (Custom p) tag) p).

Definition Version : M Z := let* p := getp in ret (ver p).
Definition SetVersion (v : Z) : M unit := modp (set_ver v).
Definition WinSize : M Z := let* p := getp in ret (winsize p).
Definition IndependentSegments : M bool := let* p := getp in ret (independentSegments p).
Definition SetIndependentSegments (b : bool) : M unit := modp (set_independentSegments b).

(** *** Media playlists: setters of the current segment *)

(** [p.Segments[p.last()]], the pointer found there. *)
Definition current : M ptr :=
  let* p := getp in lift (index (Segments p) (last p)).

Definition playlist_is_empty : error := errors_New "playlist is empty".

Definition SetKey (method uri iv keyformat keyformatversions : string)
  : M (option error) :=
  let* p := getp in
  if count p =? 0 then ret (Some playlist_is_empty) else
  (if negb (str_empty keyformat) || negb (str_empty keyformatversions)
   then modp (fun p => set_ver (version (ver p) 5) p) else ret tt) ;;
  let* s := current in
  let* k := new_key (Key.mk method uri iv keyformat keyformatversions) in
  update s (MediaSegment.set_Key k) ;;
  ret None.

Definition SetMap (uri : string) (limit offset : Z) : M (option error) :=
  let* p := getp in
  if count p =? 0 then ret (Some playlist_is_empty) else
  modp (fun p => set_ver (version (ver p) 5) p) ;;
  let* s := current in
  update s (MediaSegment.set_Map (Some (Map.mk uri limit offset))) ;;
  ret None.

Definition SetRange (limit offset : Z) : M (option error) :=
  let* p := getp in
  if count p =? 0 then ret (Some playlist_is_empty) else
  modp (fun p => set_ver (version (ver p) 4) p) ;;
  let* s := current in
  update s (MediaSegment.set_Limit limit) ;;
  let* s := current in
  update s (MediaSegment.set_Offset offset) ;;
  ret None.

Definition SetSCTE35 (scte35 : option SCTE.t) : M (option error) :=
  let* p := getp in
  if count p =? 0 then ret (Some playlist_is_empty) else
  let* s := current in
  update s (MediaSegment.set_SCTE scte35) ;;
  ret None.

Definition SetSCTE (cue id : string) (time : float64) : M (option error) :=
  SetSCTE35 (Some (SCTE.mk SCTE.SCTE35_67_2014 SCTE.SCTE35Cue_Start cue id time (0%Q))).

(** The loop of [SetDateRange] over the ids. *)
Fixpoint check_DateRange_IDs (drs : list (option DateRange.t)) : res (option error) :=
  match drs with
  | [] => Ret None
  | None :: _ => Panic NilDereference
  | Some dr :: rest =>
      if str_empty (DateRange.ID dr) then Ret (Some (errors_New "DateRange ID"))
      else check_DateRange_IDs rest
  end.

Definition SetDateRange (drs : list (option DateRange.t)) : M (option error) :=
  let* p := getp in
  if count p =? 0 then ret (Some playlist_is_empty) else
  let* bad := lift (check_DateRange_IDs drs) in
  match bad with
  | Some err => ret (Some err)
  | None =>
      let* s := current in
      update s (MediaSegment.set_DateRange drs) ;;
      ret None
  end.

Definition AppendDateRange (dr : option DateRange.t) : M (option error) :=
  let* p := getp in
  if count p =? 0 then ret (Some playlist_is_empty) else
  let* bad := lift (check_DateRange_IDs [dr]) in
  match bad with
  | Some err => ret (Some err)
  | None =>
      let* s := current in
      let* seg := load s in
      update s (MediaSegment.set_DateRange (MediaSegment.DateRange seg ++ [dr])) ;;
      ret None
  end.

Definition SetDiscontinuity : M (option error) :=
  let* p := getp in
  if count p =? 0 then ret (Some playlist_is_empty) else
  let* s := current in
  update s (MediaSegment.set_Discontinuity true) ;;
  ret None.

Definition SetGap : M (option error) :=
  let* p := getp in
  if count p =? 0 then ret (Some playlist_is_empty) else
  let* s := current in
  update s (MediaSegment.set_Gap true) ;;
  ret None.

Definition SetProgramDateTime (value : Time.t) : M (option error) :=
  let* p := getp in
  if count p =? 0 then ret (Some playlist_is_empty) else
  let* s := current in
  update s (MediaSegment.set_ProgramDateTime value) ;;
  ret None.

Definition SetCustomSegmentTag (tag : CustomTag.t) : M (option error) :=
  let* p := getp in
  if count p =? 0 then ret (Some playlist_is_empty) else
  let* s := current in
  let* seg := load s in
  update s (MediaSegment.set_Custom (custom_set (MediaSegment.Custom seg) tag)) ;;
  ret None.

(** *** The media encoder

    A run of writes to [p.buf] is the concatenation of what is written;
    each part of [Encode] below is the text that part writes. *)

Definition cat (l : list string) : string := String.concat "" l.

Definition ffmt : ascii := "f"%char.

(** The loop over a custom-tag map. Go leaves the order of a [range] over a
    map open; here it is the order of [map_to_list]. *)
Definition encode_custom (m : CustomMap) : string :=
  match m with
  | None => ""
  | Some tags =>
      cat (map (fun kv : string * CustomTag.t =>
                  match CustomTag.Encode (snd kv) with
                  | Some customBuf => customBuf +:+ nl
                  | None => ""
                  end) (map_to_list tags))
  end.

(** The EXT-X-KEY tag, written the same way for the default key and for
    the key of a segment. *)
Definition encode_key (k : Key.t) : string :=
  cat [ "#EXT-X-KEY:"; "METHOD="; Key.Method k;
        if negb (String.eqb (Key.Method k) "NONE") then
          cat [ ",URI="; dq; Key.URI k; dq;
                if negb (str_empty (Key.IV k)) then cat [",IV="; Key.IV k] else "";
                if negb (str_empty (Key.Keyformat k))
                then cat [",KEYFORMAT="; dq; Key.Keyformat k; dq] else "";
                if negb (str_empty (Key.Keyformatversions k))
                then cat [",KEYFORMATVERSIONS="; dq; Key.Keyformatversions k; dq] else "" ]
        else "";
        nl ].

(** The EXT-X-MAP tag, for the default map and for the map of a segment. *)
Definition encode_map (m : Map.t) : string :=
  cat [ "#EXT-X-MAP:"; "URI="; dq; Map.URI m; dq;
        if 0 <? Map.Limit m
        then cat [",BYTERANGE="; FormatInt (Map.Limit m); "@"; FormatInt (Map.Offset m)]
        else "";
        nl ].

Definition encode_playlist_type (t : MediaType) : string :=
  match t with
  | NoType => ""
  | EVENT => cat ["#EXT-X-PLAYLIST-TYPE:"; "EVENT"; nl; "#EXT-X-ALLOW-CACHE:NO"; nl]
  | VOD => cat ["#EXT-X-PLAYLIST-TYPE:"; "VOD"; nl]
  end.

Definition wv_uint (tag : string) (v : Z) : string :=
  if negb (v =? 0) then cat [tag; FormatUint v; nl] else "".
Definition wv_str (tag : string) (v : string) : string :=
  if negb (str_empty v) then cat [tag; v; nl] else "".

Definition encode_wv (wv : option WV.t) : string :=
  match wv with
  | None => ""
  | Some v =>
      cat [ wv_uint "#WV-AUDIO-CHANNELS " (WV.AudioChannels v);
            wv_uint "#WV-AUDIO-FORMAT " (WV.AudioFormat v);
            wv_uint "#WV-AUDIO-PROFILE-IDC " (WV.AudioProfileIDC v);
            wv_uint "#WV-AUDIO-SAMPLE-SIZE " (WV.AudioSampleSize v);
            wv_uint "#WV-AUDIO-SAMPLING-FREQUENCY " (WV.AudioSamplingFrequency v);
            wv_str "#WV-CYPHER-VERSION " (WV.CypherVersion v);
            wv_str "#WV-ECM " (WV.ECM v);
            wv_uint "#WV-VIDEO-FORMAT " (WV.VideoFormat v);
            wv_uint "#WV-VIDEO-FRAME-RATE " (WV.VideoFrameRate v);
            wv_uint "#WV-VIDEO-LEVEL-IDC" (WV.VideoLevelIDC v);
            wv_uint "#WV-VIDEO-PROFILE-IDC " (WV.VideoProfileIDC v);
            wv_str "#WV-VIDEO-RESOLUTION " (WV.VideoResolution v);
            wv_str "#WV-VIDEO-SAR " (WV.VideoSAR v) ]
  end.

(** Everything [Encode] writes before the segments; the default key is
    followed through its pointer. *)
Definition encode_header (w : World) : res string :=
  let p := pl w in
  let+ key := match Key p with
              | None => Ret ""
              | Some _ => let+ k := deref (keys w) (Key p) in Ret (encode_key k)
              end in
  Ret (cat [ "#EXTM3U"; nl; "#EXT-X-VERSION:"; strver (ver p); nl;
             if independentSegments p then "#EXT-X-INDEPENDENT-SEGMENTS" +:+ nl else "";
             encode_custom (Custom p);
             key;
             match Map p with Some m => encode_map m | None => "" end;
             encode_playlist_type (MediaType_ p);
             "#EXT-X-MEDIA-SEQUENCE:"; FormatUint (SeqNo p); nl;
             "#EXT-X-TARGETDURATION:";
             FormatInt (int64_of_float (math_Ceil (TargetDuration p))); nl;
             if float_lt (0%Q) (StartTime p) then
               cat [ "#EXT-X-START:TIME-OFFSET=";
                     strconv_FormatFloat (StartTime p) ffmt (-1) 64;
                     if StartTimePrecise p then ",PRECISE=YES" else "";
                     nl ]
             else "";
             if negb (DiscontinuitySeq p =? 0) then
               cat ["#EXT-X-DISCONTINUITY-SEQUENCE:"; FormatUint (DiscontinuitySeq p); nl]
             else "";
             if Iframe p then "#EXT-X-I-FRAMES-ONLY" +:+ nl else "";
             encode_wv (WV p) ]).

Definition encode_scte (scte : option SCTE.t) : string :=
  match scte with
  | None => ""
  | Some c =>
      match SCTE.Syntax c with
      | SCTE.SCTE35_67_2014 =>
          cat [ "#EXT-SCTE35:"; "CUE="; dq; SCTE.Cue c; dq;
                if negb (str_empty (SCTE.ID c)) then cat [",ID="; dq; SCTE.ID c; dq] else "";
                if negb (Qeq_bool (SCTE.Time c) (0%Q))
                then cat [",TIME="; strconv_FormatFloat (SCTE.Time c) ffmt (-1) 64] else "";
                nl ]
      | SCTE.SCTE35_OATCLS =>
          match SCTE.CueType c with
          | SCTE.SCTE35Cue_Start =>
              cat [ if negb (str_empty (SCTE.Cue c))
                    then cat ["#EXT-OATCLS-SCTE35:"; SCTE.Cue c; nl] else "";
                    "#EXT-X-CUE-OUT:"; strconv_FormatFloat (SCTE.Time c) ffmt (-1) 64; nl ]
          | SCTE.SCTE35Cue_Mid =>
              cat [ "#EXT-X-CUE-OUT-CONT:";
                    "ElapsedTime="; strconv_FormatFloat (SCTE.Elapsed c) ffmt (-1) 64;
                    ",Duration="; strconv_FormatFloat (SCTE.Time c) ffmt (-1) 64;
                    ",SCTE35="; SCTE.Cue c; nl ]
          | SCTE.SCTE35Cue_End => cat ["#EXT-X-CUE-IN"; nl]
          end
      end
  end.

Definition attr_quoted (name v : string) : string :=
  if negb (str_empty v) then cat [name; dq; v; dq] else "".
Definition attr_plain (name v : string) : string :=
  if negb (str_empty v) then cat [name; v] else "".

Definition encode_daterange (dr : DateRange.t) : string :=
  cat [ "#EXT-X-DATERANGE:"; "ID="; dq; DateRange.ID dr; dq;
        attr_quoted ",CLASS=" (DateRange.Class dr);
        if negb (Time.IsZero (DateRange.StartDate dr))
        then cat [",START-DATE="; dq; time_Format (DateRange.StartDate dr) DATETIME; dq] else "";
        if negb (Time.IsZero (DateRange.EndDate dr))
        then cat [",END-DATE="; dq; time_Format (DateRange.EndDate dr) DATETIME; dq] else "";
        if float_lt (0%Q) (DateRange.Duration dr)
        then cat [",DURATION="; strconv_FormatFloat (DateRange.Duration dr) ffmt (-1) 64] else "";
        if float_lt (0%Q) (DateRange.PlannedDuration dr)
        then cat [",PLANNED-DURATION=";
                  strconv_FormatFloat (DateRange.PlannedDuration dr) ffmt (-1) 64] else "";
        attr_plain ",SCTE35-CMD=" (DateRange.SCTE35Cmd dr);
        attr_plain ",SCTE35-IN=" (DateRange.SCTE35In dr);
        attr_plain ",SCTE35-OUT=" (DateRange.SCTE35Out dr);
        attr_quoted ",END-ON-NEXT=" (DateRange.EndOnNext dr);
        if float_lt (0%Q) (DateRange.XResumeOfsset dr)
        then cat [",X-RESUME-OFFSET="; strconv_FormatFloat (DateRange.Duration dr) ffmt (-1) 64]
        else "";
        if float_lt (0%Q) (DateRange.XPlayoutLimit dr)
        then cat [",X-PLAYOUT-LIMIT="; strconv_FormatFloat (DateRange.Duration dr) ffmt (-1) 64]
        else "";
        attr_quoted ",X-SNAP=" (DateRange.XSnap dr);
        attr_quoted ",X-RESTRICT=" (DateRange.XRestrict dr);
        attr_quoted ",X-ASSET-URI=" (DateRange.XAssetURI dr);
        attr_quoted ",X-ASSET-LIST=" (DateRange.XAssetList dr);
        cat (map (fun kv : string * string => cat [","; fst kv; "="; dq; snd kv; dq])
               (map_to_list (DateRange.X dr)));
        nl ].

Fixpoint encode_dateranges (drs : list (option DateRange.t)) : res string :=
  match drs with
  | [] => Ret ""
  | None :: _ => Panic NilDereference
  | Some dr :: rest => let+ more := encode_dateranges rest in Ret (encode_daterange dr +:+ more)
  end.

(** The key-change test [seg.Key != nil && p.Key != seg.Key]: a
    comparison of pointers. *)
Definition key_changed (p : MediaPlaylist.t) (seg : MediaSegment.t) : bool :=
  match MediaSegment.Key seg with
  | None => false
  | Some _ => negb (bool_decide (Key p = MediaSegment.Key seg))
  end.

Definition encode_segment_key (w : World) (seg : MediaSegment.t) : res string :=
  if key_changed (pl w) seg then
    let+ k := deref (keys w) (MediaSegment.Key seg) in Ret (encode_key k)
  else Ret "".

(** [durationCache], a map from durations to their rendering. *)
Definition durationCache : Type := list (float64 * string).

Fixpoint cache_get (c : durationCache) (d : float64) : option string :=
  match c with
  | [] => None
  | (k, v) :: c' => if Qeq_bool k d then Some v else cache_get c' d
  end.

Definition format_duration (p : MediaPlaylist.t) (d : float64) : string :=
  if durationAsInt p then FormatInt (int64_of_float (math_Ceil d))
  else strconv_FormatFloat d ffmt 3 32.

Definition encode_extinf (p : MediaPlaylist.t) (seg : MediaSegment.t) (c : durationCache)
  : string * durationCache :=
  match cache_get c (MediaSegment.Duration seg) with
  | Some str => (str, c)
  | None =>
      let str := format_duration p (MediaSegment.Duration seg) in
      (str, (MediaSegment.Duration seg, str) :: c)
  end.

(** What one pass of the loop writes for the segment [seg]. *)
Definition encode_segment (w : World) (seg : MediaSegment.t) (c : durationCache)
  : res (string * durationCache) :=
  let p := pl w in
  let+ key := encode_segment_key w seg in
  let+ dateranges := encode_dateranges (MediaSegment.DateRange seg) in
  let (extinf, c') := encode_extinf p seg c in
  Ret (cat [ encode_scte (MediaSegment.SCTE seg);
             key;
             dateranges;
             if MediaSegment.Discontinuity seg then "#EXT-X-DISCONTINUITY" +:+ nl else "";
             if MediaSegment.Gap seg then "#EXT-X-GAP" +:+ nl else "";
             match Map p, MediaSegment.Map seg with
             | None, Some m => encode_map m
             | _, _ => ""
             end;
             if negb (Time.IsZero (MediaSegment.ProgramDateTime seg)) then
               cat [ "#EXT-X-PROGRAM-DATE-TIME:";
                     time_Format (MediaSegment.ProgramDateTime seg) DATETIME; nl ]
             else "";
             if 0 <? MediaSegment.Limit seg then
               cat [ "#EXT-X-BYTERANGE:"; FormatInt (MediaSegment.Limit seg); "@";
                     FormatInt (MediaSegment.Offset seg); nl ]
             else "";
             encode_custom (MediaSegment.Custom seg);
             "#EXTINF:"; extinf; ","; MediaSegment.Title seg; nl;
             MediaSegment.URI seg;
             if negb (str_empty (Args p)) then cat ["?"; Args p] else "";
             nl ],
       c').

(** The loop over the window: [n] is what is left of [count], [head'] and
    [i] are the loop's variables. *)
Fixpoint encode_segments (w : World) (n : nat) (head' i : Z) (c : durationCache)
  : res string :=
  let p := pl w in
  match n with
  | O => Ret ""
  | S n' =>
      if (i <? winsize p) || (winsize p =? 0) then
        let+ seg := index (Segments p) head' in
        let+ next := umod (wrap64 (head' + 1)) (capacity p) in
        match seg with
        | None => encode_segments w n' next i c
        | Some _ =>
            let+ s := deref (segs w) seg in
            let i' := if 0 <? winsize p then wrap64 (i + 1) else i in
            let+ out := encode_segment w s c in
            let+ rest := encode_segments w n' next i' (snd out) in
            Ret (fst out +:+ rest)
        end
      else Ret ""
  end.

(** The text a fresh [Encode] builds. *)
Definition encode_media (w : World) : res string :=
  let p := pl w in
  let+ header := encode_header w in
  let+ body := encode_segments w (Z.to_nat (count p)) (head p) 0 [] in
  Ret (cat [header; body; if Closed p then "#EXT-X-ENDLIST" +:+ nl else ""]).

(** [Encode] returns [&p.buf]; the result here is what that buffer holds. *)
Definition Encode : M string :=
  let* p := getp in
  if 0 <? buf_Len (buf p) then ret (buf p) else
  fun w =>
    match encode_media w with
    | Ret out => (modp (set_buf out) ;; ret out) w
    | Panic e => Panic e
    end.

(** [String], the method of the Stringer interface: [p.Encode().String()]. *)
Definition String_ : M string := Encode.

End Writer.

(** *** Master playlists

    A master playlist holds no pointer the writer follows back into a
    store: its methods take the playlist to the playlist. *)
Module Master.
Section Writer.
Context {env : Env}.

Import MasterPlaylist.

Definition NewMasterPlaylist : MasterPlaylist.t := set_ver minver MasterPlaylist.zero.

Definition Append (uri : string) (chunklist : ptr) (params : VariantParams.t)
  (p : MasterPlaylist.t) : MasterPlaylist.t :=
  let v := Variant.mk uri chunklist params in
  let p := set_Variants (Variants p ++ [Some v]) p in
  let p := if 0 <? Z.of_nat (length (VariantParams.Alternatives (Variant.Params v)))
           then set_ver (version (ver p) 4) p else p in
  set_buf "" p.

Definition ResetCache (p : MasterPlaylist.t) : MasterPlaylist.t := set_buf "" p.

Definition SetCustomTag (tag : CustomTag.t) (p : MasterPlaylist.t) : MasterPlaylist.t :=
  set_Custom (custom_set (Custom p) tag) p.

Definition Version (p : MasterPlaylist.t) : Z := ver p.
Definition SetVersion (v : Z) (p : MasterPlaylist.t) : MasterPlaylist.t := set_ver v p.
Definition IndependentSegments (p : MasterPlaylist.t) : bool := independentSegments p.
Definition SetIndependentSegments (b : bool) (p : MasterPlaylist.t) : MasterPlaylist.t :=
  set_independentSegments b p.

Definition encode_session_data (sd : SessionData.t) : string :=
  cat [ "#EXT-X-SESSION-DATA:"; "DATA-ID="; dq; SessionData.DataID sd; dq;
        attr_quoted ",VALUE=" (SessionData.Value sd);
        if negb (str_empty (SessionData.URI sd)) && str_empty (SessionData.Value sd)
        then cat [",URI="; dq; SessionData.URI sd; dq] else "";
        attr_quoted ",LANGUAGE=" (SessionData.Language sd);
        nl ].

(** The loop over [p.SessionData], with the set [languageWritten]. *)
Fixpoint encode_session (l : list (option SessionData.t)) (languageWritten : gset string)
  : res string :=
  match l with
  | [] => Ret ""
  | None :: _ => Panic NilDereference
  | Some sd :: rest =>
      if negb (str_empty (SessionData.Language sd)) then
        let languageWrittenKey :=
          cat [ strings_ToLower (SessionData.DataID sd); "-";
                strings_ToLower (SessionData.Language sd) ] in
        if bool_decide (languageWrittenKey ∈ languageWritten) then
          encode_session rest languageWritten
        else
          let+ more := encode_session rest ({[languageWrittenKey]} ∪ languageWritten) in
          Ret (encode_session_data sd +:+ more)
      else
        let+ more := encode_session rest languageWritten in
        Ret (encode_session_data sd +:+ more)
  end.

Definition encode_alternative (alt : Alternative.t) : string :=
  cat [ "#EXT-X-MEDIA:";
        attr_plain "TYPE=" (Alternative.Type_ alt);
        attr_quoted ",GROUP-ID=" (Alternative.GroupId alt);
        attr_quoted ",NAME=" (Alternative.Name alt);
        ",DEFAULT="; if Alternative.Default alt then "YES" else "NO";
        attr_plain ",AUTOSELECT=" (Alternative.Autoselect alt);
        attr_quoted ",LANGUAGE=" (Alternative.Language alt);
        attr_plain ",FORCED=" (Alternative.Forced alt);
        attr_quoted ",CHARACTERISTICS=" (Alternative.Characteristics alt);
        attr_quoted ",SUBTITLES=" (Alternative.Subtitles alt);
        attr_quoted ",URI=" (Alternative.URI alt);
        attr_quoted ",INSTREAM-ID=" (Alternative.InstreamId alt);
        attr_quoted ",CHANNELS=" (Alternative.Channels alt);
        nl ].

(** The loop over the alternatives of one variant, with [altsWritten]. *)
Fixpoint encode_alternatives (l : list (option Alternative.t)) (altsWritten : gset string)
  : res (string * gset string) :=
  match l with
  | [] => Ret ("", altsWritten)
  | None :: _ => Panic NilDereference
  | Some alt :: rest =>
      let altKey := cat [ Alternative.Type_ alt; "-"; Alternative.GroupId alt; "-";
                          Alternative.Name alt; "-"; Alternative.Language alt ] in
      if bool_decide (altKey ∈ altsWritten) then encode_alternatives rest altsWritten
      else
        let+ more := encode_alternatives rest ({[altKey]} ∪ altsWritten) in
        Ret (encode_alternative alt +:+ fst more, snd more)
  end.

Definition attr_uint (name : string) (v : Z) : string :=
  if negb (v =? 0) then cat [name; FormatUint v] else "".

Definition encode_iframe_stream (pl : Variant.t) : string :=
  let vp := Variant.Params pl in
  cat [ "#EXT-X-I-FRAME-STREAM-INF:PROGRAM-ID="; FormatUint (VariantParams.ProgramId vp);
        ",BANDWIDTH="; FormatUint (VariantParams.Bandwidth vp);
        attr_uint ",AVERAGE-BANDWIDTH=" (VariantParams.AverageBandwidth vp);
        attr_quoted ",CODECS=" (VariantParams.Codecs vp);
        attr_plain ",RESOLUTION=" (VariantParams.Resolution vp);
        attr_quoted ",VIDEO=" (VariantParams.Video vp);
        attr_plain ",VIDEO-RANGE=" (VariantParams.VideoRange vp);
        attr_plain ",HDCP-LEVEL=" (VariantParams.HDCPLevel vp);
        attr_quoted ",URI=" (Variant.URI pl);
        nl ].

Definition encode_stream (p : MasterPlaylist.t) (pl : Variant.t) : string :=
  let vp := Variant.Params pl in
  cat [ "#EXT-X-STREAM-INF:PROGRAM-ID="; FormatUint (VariantParams.ProgramId vp);
        ",BANDWIDTH="; FormatUint (VariantParams.Bandwidth vp);
        attr_uint ",AVERAGE-BANDWIDTH=" (VariantParams.AverageBandwidth vp);
        attr_quoted ",CODECS=" (VariantParams.Codecs vp);
        attr_plain ",RESOLUTION=" (VariantParams.Resolution vp);
        attr_quoted ",AUDIO=" (VariantParams.Audio vp);
        attr_quoted ",VIDEO=" (VariantParams.Video vp);
        if negb (str_empty (VariantParams.Captions vp)) then
          cat [ ",CLOSED-CAPTIONS=";
                if String.eqb (VariantParams.Captions vp) "NONE"
                then VariantParams.Captions vp
                else cat [dq; VariantParams.Captions vp; dq] ]
        else "";
        attr_quoted ",SUBTITLES=" (VariantParams.Subtitles vp);
        attr_quoted ",NAME=" (VariantParams.Name vp);
        if negb (Qeq_bool (VariantParams.FrameRate vp) (0%Q))
        then cat [",FRAME-RATE="; strconv_FormatFloat (VariantParams.FrameRate vp) ffmt 3 64]
        else "";
        attr_plain ",VIDEO-RANGE=" (VariantParams.VideoRange vp);
        attr_plain ",HDCP-LEVEL=" (VariantParams.HDCPLevel vp);
        nl;
        Variant.URI pl;
        if negb (str_empty (Args p)) then
          cat [ if strings_Contains (Variant.URI pl) "?" then "&" else "?"; Args p ]
        else "";
        nl ].

(** The loop over [p.Variants]. *)
Fixpoint encode_variants (p : MasterPlaylist.t) (l : list (option Variant.t))
  (altsWritten : gset string) : res string :=
  match l with
  | [] => Ret ""
  | None :: _ => Panic NilDereference
  | Some pl :: rest =>
      let+ alts := encode_alternatives (VariantParams.Alternatives (Variant.Params pl))
                     altsWritten in
      let+ more := encode_variants p rest (snd alts) in
      Ret (cat [ fst alts;
                 if VariantParams.Iframe (Variant.Params pl)
                 then encode_iframe_stream pl else encode_stream p pl;
                 more ])
  end.

(** The text a fresh [Encode] builds. *)
Definition encode_master (p : MasterPlaylist.t) : res string :=
  let+ session := encode_session (SessionData_ p) ∅ in
  let+ variants := encode_variants p (Variants p) ∅ in
  Ret (cat [ "#EXTM3U"; nl; "#EXT-X-VERSION:"; strver (ver p); nl;
             if IndependentSegments p then "#EXT-X-INDEPENDENT-SEGMENTS" +:+ nl else "";
             encode_custom (Custom p);
             session;
             variants ]).

(** [Encode] returns [&p.buf]; the result here is what that buffer holds. *)
Definition Encode (p : MasterPlaylist.t) : res (string * MasterPlaylist.t) :=
  if 0 <? buf_Len (buf p) then Ret (buf p, p) else
  let+ out := encode_master p in
  Ret (out, set_buf out p).

(** [String], the method of the Stringer interface: [p.Encode().String()]. *)
Definition String_ (p : MasterPlaylist.t) : res (string * MasterPlaylist.t) := Encode p.

End Writer.
End Master.

(** ** An environment to run the writer in

    The functions of the Go library that [Env] stands for, written out for
    the values the scenarios below use: decimal renderings of rationals,
    RFC 3339 timestamps, ASCII lower-casing. An out-of-range float converts
    to the least [int64], as on amd64. *)
Module GoEnv.

(** [n] in decimal, padded with zeros to [w] digits. *)
Definition padded (w : nat) (n : Z) : string :=
  let s := FormatUint n in
  cat (replicate (w - String.length s)%nat "0") +:+ s.

(** Rounding to the nearest integer, ties to even. *)
Definition round_half_even (q : Q) : Z :=
  let f := Qfloor q in
  let r := (q - inject_Z f)%Q in
  match (r ?= 1 # 2)%Q with
  | Lt => f
  | Gt => f + 1
  | Eq => if Z.even f then f else f + 1
  end.

(** A non-negative rational with [prec] digits after the point. *)
Definition fixed_abs (q : Q) (prec : nat) : string :=
  let scaled := round_half_even (q * inject_Z (10 ^ Z.of_nat prec))%Q in
  let ip := scaled / 10 ^ Z.of_nat prec in
  let fp := scaled mod 10 ^ Z.of_nat prec in
  match prec with
  | O => FormatUint ip
  | _ => cat [FormatUint ip; "."; padded prec fp]
  end.

Definition fixed (q : Q) (prec : nat) : string :=
  if Qle_bool 0 q then fixed_abs q prec else "-" +:+ fixed_abs (- q)%Q prec.

(** The least number of digits, up to [fuel] more than [k], that render
    [q] exactly. *)
Fixpoint exact_digits (fuel : nat) (k : nat) (q : Q) : nat :=
  match fuel with
  | O => k
  | S fuel' =>
      let scaled := (q * inject_Z (10 ^ Z.of_nat k))%Q in
      if Qeq_bool scaled (inject_Z (Qfloor scaled)) then k
      else exact_digits fuel' (S k) q
  end.

(** [strconv.FormatFloat(q, 'f', prec, bitSize)]: [prec] digits after the
    point, or for a negative [prec] as many as the value needs. The
    rendering is that of the rational itself. *)
Definition FormatFloat (q : float64) (fmt : ascii) (prec : Z) (bitSize : Z) : string :=
  if prec <? 0 then fixed q (exact_digits 17 0 q) else fixed q (Z.to_nat prec).

(** The civil date of a day number counted from January 1 of year 1. *)
Definition civil_of_days (days : Z) : Z * Z * Z :=
  let z := days + 306 in
  let era := z / 146097 in
  let doe := z - era * 146097 in
  let yoe := (doe - doe / 1460 + doe / 36524 - doe / 146096) / 365 in
  let doy := doe - (365 * yoe + yoe / 4 - yoe / 100) in
  let mp := (5 * doy + 2) / 153 in
  let d := doy - (153 * mp + 2) / 5 + 1 in
  let m := if mp <? 10 then mp + 3 else mp - 9 in
  let y := yoe + era * 400 + (if m <=? 2 then 1 else 0) in
  (y, m, d).

(** Nanoseconds as a fraction of a second without trailing zeros. *)
Fixpoint fraction (w : nat) (n : Z) : string :=
  match w with
  | O => ""
  | S w' => if n mod 10 =? 0 then fraction w' (n / 10) else padded w n
  end.

(** [t.Format(time.RFC3339Nano)]. *)
Definition Format (t : Time.t) (layout : string) : string :=
  let local := Time.sec t + Time.offset t in
  let '(y, m, d) := civil_of_days (local / 86400) in
  let s := local mod 86400 in
  let off := Z.abs (Time.offset t) in
  cat [ padded 4 y; "-"; padded 2 m; "-"; padded 2 d; "T";
        padded 2 (s / 3600); ":"; padded 2 (s mod 3600 / 60); ":"; padded 2 (s mod 60);
        if Time.nsec t =? 0 then "" else "." +:+ fraction 9 (Time.nsec t);
        if Time.offset t =? 0 then "Z"
        else cat [ if Time.offset t <? 0 then "-" else "+";
                   padded 2 (off / 3600); ":"; padded 2 (off mod 3600 / 60) ] ].

Definition lower (c : ascii) : ascii :=
  let n := nat_of_ascii c in
  if ((65 <=? n) && (n <=? 90))%nat then ascii_of_nat (n + 32) else c.

Fixpoint ToLower (s : string) : string :=
  match s with
  | EmptyString => EmptyString
  | String c s' => String (lower c) (ToLower s')
  end.

#[export] Instance go : Env := {|
  minver := 3;
  DATETIME := "2006-01-02T15:04:05.999999999Z07:00";
  time_Format := Format;
  strconv_FormatFloat := FormatFloat;
  strings_ToLower := ToLower;
  int64_out_of_range := fun _ => - 2 ^ 63 |}.

End GoEnv.

Import MediaPlaylist.

(** ** Running calls *)

(** A world with nothing in the store and no playlist made yet. *)
Definition empty_world : World := mkWorld [] [] MediaPlaylist.zero.

(** The world a run of calls ends in, if none panics. *)
Definition exec {A} (m : M A) (w : World) : option World :=
  match m w with
  | Ret (_, w') => Some w'
  | Panic _ => None
  end.

(** The segment a slot of the playlist points to. *)
Definition segment_at (w : World) (i : Z) : option MediaSegment.t :=
  match index (MediaPlaylist.Segments (pl w)) i with
  | Ret (Some a) => segs w !! a
  | _ => None
  end.

(** The sequence ids found in the slots of the playlist, slot by slot. *)
Definition slot_ids (w : World) : list (option Z) :=
  map (fun x : ptr => match x with
                      | Some a => MediaSegment.SeqId <$> segs w !! a
                      | None => None
                      end)
      (elems (MediaPlaylist.Segments (pl w))).

(** The runs the scenarios start from: a playlist of capacity 3 with a
    window of 2, and the segments A (4 s), B (6 s), C (5 s) appended. *)
Definition run_from_empty {A} (m : M A) : World :=
  default empty_world (exec m empty_world).

Definition new_2_3 : World :=
  run_from_empty (@NewMediaPlaylist GoEnv.go 2 3).

Definition append_ABC : M (option error) :=
  Append "A.ts" (4 # 1) "" ;; Append "B.ts" (6 # 1) "" ;; Append "C.ts" (5 # 1) "".

Definition world_ABC : World :=
  default new_2_3 (exec append_ABC new_2_3).

(** The same playlist with A alone appended. *)
Definition world_A : World :=
  default new_2_3 (exec (Append "A.ts" (4 # 1) "") new_2_3).

Definition world_A_encoded : World :=
  default world_A (exec (@Encode GoEnv.go) world_A).

(** What a call returned in its buffer. *)
Definition output {A} (r : res (string * A)) : option string :=
  match r with
  | Ret (b, _) => Some b
  | Panic _ => None
  end.

(** The last of [n + 1] calls of [m] in a row. *)
Fixpoint repeated {St A} (m : St -> res (A * St)) (n : nat) (s : St) : res (A * St) :=
  match n with
  | O => m s
  | S n' => match m s with
            | Ret (_, s') => repeated m n' s'
            | Panic e => Panic e
            end
  end.

(** Scenario 1 of the spec: capacity 3, window 2, then A, B, C, then
    [Encode]. *)
Definition scenario1 {env : Env} : M string :=
  NewMediaPlaylist 2 3 ;; append_ABC ;; Encode.

(** A default key, then a segment that is given a key with the same
    contents by [SetKey]. *)
Definition equal_keys {env : Env} : M string :=
  NewMediaPlaylist 2 3 ;;
  SetDefaultKey "AES-128" "https://k" "" "" "" ;;
  Append "A.ts" (4 # 1) "" ;;
  SetKey "AES-128" "https://k" "" "" "" ;;
  Encode.

(** A default key, then a segment whose [Key] field is assigned the
    playlist's own [Key] pointer. *)
Definition shared_key {env : Env} : M string :=
  NewMediaPlaylist 2 3 ;;
  SetDefaultKey "AES-128" "https://k" "" "" "" ;;
  Append "A.ts" (4 # 1) "" ;;
  (let* p := getp in
   let* s := current in
   update s (MediaSegment.set_Key (MediaPlaylist.Key p))) ;;
  Encode.

(** How many times [sub] occurs in [s]. *)
Fixpoint occurrences (sub s : string) : nat :=
  ((if String.prefix sub s then 1 else 0) +
   match s with
   | EmptyString => 0
   | String _ s' => occurrences sub s'
   end)%nat.

(** The playlist with a default key and A appended. *)
Definition world_keyed : World :=
  run_from_empty (@NewMediaPlaylist GoEnv.go 2 3 ;;
                  SetDefaultKey "AES-128" "https://k" "" "" "" ;;
                  Append "A.ts" (4 # 1) "").

(** A playlist without a window whose head two calls of [Remove] have
    moved to slot 2. *)
Definition world_removed2 : World :=
  run_from_empty (@NewMediaPlaylist GoEnv.go 0 3 ;; append_ABC ;; Remove ;; Remove).

(** The default key, when there is one, is in the store. *)
Definition valid_key (w : World) : Prop :=
  match MediaPlaylist.Key (pl w) with
  | Some a => is_Some (keys w !! a)
  | None => True
  end.

(** A date range without an id. *)
Definition nameless_range : DateRange.t :=
  DateRange.mk "" "" Time.zero Time.zero (0 # 1) (0 # 1) "" "" "" "" (0 # 1) (0 # 1)
    "" "" "" "" ∅.

(** A master playlist with two variants that share one alternative. *)
Definition audio_en : Alternative.t :=
  Alternative.mk "aud" "en.m3u8" "AUDIO" "en" "English" true "YES" "" "" "" "" "".

Definition params_of (bandwidth : Z) : VariantParams.t :=
  VariantParams.mk 0 bandwidth 0 "" "" "aud" "" "" "" "" false "" "" (0 # 1)
    [Some audio_en].

Definition master_two : MasterPlaylist.t :=
  Master.Append "hi.m3u8" None (params_of 2000000)
    (Master.Append "lo.m3u8" None (params_of 500000)
       (@Master.NewMasterPlaylist GoEnv.go)).

(** A playlist whose target duration has been set to 4.5 by hand. *)
Definition world_fractional : World :=
  mkWorld (segs new_2_3) (keys new_2_3) (set_TargetDuration (9 # 2) (pl new_2_3)).

(** A float that holds a whole number. *)
Definition whole (q : float64) : Prop := (inject_Z (Qfloor q) == q)%Q.

(** The calls on the ring, to run one after the other. *)
Inductive ring_op : Type :=
  | OpAppend (uri : string) (duration : float64) (title : string)
  | OpAppendSegment (seg : ptr)
  | OpRemove
  | OpSlide (uri : string) (duration : float64) (title : string).

Definition run_op (o : ring_op) : M unit :=
  match o with
  | OpAppend uri duration title => Append uri duration title ;; ret tt
  | OpAppendSegment seg => AppendSegment seg ;; ret tt
  | OpRemove => Remove ;; ret tt
  | OpSlide uri duration title => Slide uri duration title
  end.

Fixpoint run_ops (l : list ring_op) : M unit :=
  match l with
  | [] => ret tt
  | o :: l' => run_op o ;; run_ops l'
  end.

(** A property of the target duration that no call on the ring breaks. *)
Definition TD_stable (P : float64 -> float64 -> Prop) : Prop :=
  (forall t, P t t) /\
  (forall t d, P t (if float_lt t d then math_Ceil d else t)) /\
  (forall a b c, P a b -> P b c -> P a c).

(** The playlist [AppendSegment] leaves when it has stored the pointer
    [seg] to a segment of duration [d]. *)
Definition appended (p : MediaPlaylist.t) (segments : slice ptr) (d : float64)
  : MediaPlaylist.t :=
  let p := set_Segments segments p in
  let p := set_tail (wrap64 (tail p + 1) mod capacity p) p in
  let p := set_count (wrap64 (count p + 1)) p in
  let p := if float_lt (TargetDuration p) d then set_TargetDuration (math_Ceil d) p else p in
  set_buf "" p.

(** The sequence id [AppendSegment] gives to the segment at [a]. *)
Definition next_SeqId (w : World) (a : addr) (s : MediaSegment.t) : res Z :=
  let p := pl w in
  if 0 <? count p then
    let+ i := umod (wrap64 (capacity p + tail p - 1)) (capacity p) in
    let+ prev := index (Segments p) i in
    let+ sp := deref (<[a := MediaSegment.set_SeqId (SeqNo p) s]> (segs w)) prev in
    Ret (wrap64 (MediaSegment.SeqId sp + 1))
  else Ret (SeqNo p).

(** The segment [Append] makes. *)
Definition new_MediaSegment (uri : string) (duration : float64) (title : string)
  : MediaSegment.t :=
  MediaSegment.set_Title title
    (MediaSegment.set_Duration duration (MediaSegment.set_URI uri MediaSegment.zero)).

(** A playlist emptied again after two appends: head and base sequence
    number are at 2. *)
Definition world_drained : World :=
  run_from_empty (@NewMediaPlaylist GoEnv.go 2 3 ;;
                  Append "A.ts" (4 # 1) "" ;; Append "B.ts" (6 # 1) "" ;;
                  Remove ;; Remove).

Definition three_more : list (string * float64 * string) :=
  [("C.ts", (5 # 1)%Q, ""); ("D.ts", (5 # 1)%Q, ""); ("E.ts", (5 # 1)%Q, "")].

(** The ring after [k] appends from empty at head [h], base sequence number
    [s] and capacity [C]: slot [(h + i) mod C] holds segment number [i]. *)
Record filled (h s C k : Z) (w : World) : Prop := {
  filled_capacity : capacity (pl w) = C;
  filled_head : head (pl w) = h;
  filled_SeqNo : SeqNo (pl w) = s;
  filled_count : count (pl w) = k;
  filled_tail : tail (pl w) = (h + k) mod C;
  filled_len : len (Segments (pl w)) = C;
  filled_ids : forall i, 0 <= i < k ->
    exists a sg,
      elems (Segments (pl w)) !! Z.to_nat ((h + i) mod C) = Some (Some a) /\
      segs w !! a = Some sg /\
      MediaSegment.SeqId sg = wrap64 (s + i) }.

(** Appending the segments of a list one after the other. *)
Fixpoint append_all (l : list (string * float64 * string)) : M (list (option error)) :=
  match l with
  | [] => ret []
  | (uri, duration, title) :: l' =>
      let* r := Append uri duration title in
      let* rs := append_all l' in
      ret (r :: rs)
  end.

(** A playlist of two segments, A and B, numbered 0 and 1, and a third
    segment X in the store at address 2, not yet in the playlist. *)
Definition world_AB_X : World :=
  run_from_empty (@NewMediaPlaylist GoEnv.go 0 2 ;;
                  Append "A.ts" (4 # 1) "" ;; Append "B.ts" (6 # 1) "" ;;
                  let* x := new_segment in
                  update x (MediaSegment.set_URI "X.ts")).

(** Where [InsertSegments] puts the new pointers. *)
Definition placed {A} (old new : list A) (i : nat) : list A :=
  take i old ++ new ++ drop i old.

(** The pointers of a list of slots that are not nil. *)
Definition live (l : list (option nat)) : list nat := omap id l.

(** The playlist [InsertSegments] leaves when it has put [n] pointers in
    and the slice has become [segments]. *)
Definition inserted (p : MediaPlaylist.t) (segments : slice (option nat)) (n : Z)
  : MediaPlaylist.t :=
  let p := set_Segments segments p in
  let p := set_count (wrap64 (count p + n)) p in
  let p := set_capacity (wrap64 (capacity p + n)) p in
  let p := set_tail (count p) p in
  set_buf "" p.

(** A call that never returns an error. *)
Definition never_errs (m : M (option error)) : Prop :=
  forall w r w', m w = Ret (r, w') -> r = None.

(** A call that leaves the world alone when it returns an error. *)
Definition atomic (m : M (option error)) : Prop :=
  forall w e w', m w = Ret (Some e, w') -> w' = w.

(** Calls that leave the playlist alone, whatever they do to the store. *)
Definition keeps_pl {A} (m : M A) : Prop :=
  forall w a w', m w = Ret (a, w') -> pl w' = pl w.

(** Calls that leave the cached encoding alone. *)
Definition keeps_buf {A} (m : M A) : Prop :=
  forall w a w', m w = Ret (a, w') -> buf (pl w') = buf (pl w).

(** Calls that have cleared the cached encoding when they return nil. *)
Definition clears_buf (m : M (option error)) : Prop :=
  forall w w', m w = Ret (None, w') -> buf (pl w') = "".

(** A value is in the range of a 64-bit unsigned integer. *)
Definition uint64_range (z : Z) : Prop := 0 <= z < 2 ^ 64.

(** ** The ring in working order *)

(** The calls on the ring that make the segment they append. *)
Definition makes_its_segment (o : ring_op) : Prop :=
  match o with
  | OpAppendSegment _ => False
  | _ => True
  end.

(** An open playlist whose ring is in working order: the indices are
    within the capacity, [tail] is [count] slots after [head], and the live
    slots hold segments numbered from [SeqNo] on. *)
Definition ring (w : World) : Prop :=
  0 < capacity (pl w) < 2 ^ 63 /\
  0 <= head (pl w) < capacity (pl w) /\
  0 <= count (pl w) <= capacity (pl w) /\
  uint64_range (SeqNo (pl w)) /\
  Closed (pl w) = false /\
  filled (head (pl w)) (SeqNo (pl w)) (capacity (pl w)) (count (pl w)) w.

(** ** Runs of segments in the encoder *)

(** The text of the segments of a list, one after the other, the cache of
    durations passed along as the loop of [Encode] passes it. *)
Fixpoint encode_run {env : Env} (w : World) (l : list MediaSegment.t) (c : durationCache)
  : res string :=
  match l with
  | [] => Ret ""
  | s :: l' =>
      let+ out := encode_segment w s c in
      let+ rest := encode_run w l' (snd out) in
      Ret (fst out +:+ rest)
  end.

(** The first [n] live segments from the head of the ring, oldest first. *)
Definition live_from (w : World) (n : nat) : list MediaSegment.t :=
  omap (fun i : nat => segment_at w ((head (pl w) + Z.of_nat i) mod capacity (pl w)))
       (seq 0 n).

(** How many segments the window of the encoder lets through: all of them
    without a window, and no more than the window otherwise. *)
Definition shown (p : MediaPlaylist.t) : Z :=
  if winsize p =? 0 then count p else Z.min (count p) (winsize p).

(** ** Date ranges and the entries written once *)

(** A date range that is there and has an id. *)
Definition named (x : option DateRange.t) : Prop :=
  exists dr, x = Some dr /\ DateRange.ID dr <> "".

(** Every date range of every segment of the store has an id. *)
Definition ranges_named (w : World) : Prop :=
  forall a s, segs w !! a = Some s -> Forall named (MediaSegment.DateRange s).

(** The key under which the master encoder remembers an alternative as
    written: type, group, name and language. *)
Definition altKey (alt : Alternative.t) : string :=
  cat [ Alternative.Type_ alt; "-"; Alternative.GroupId alt; "-";
        Alternative.Name alt; "-"; Alternative.Language alt ].

(** The key under which it remembers session data as written: data id and
    language, in lower case. *)
Definition languageWrittenKey {env : Env} (sd : SessionData.t) : string :=
  cat [ strings_ToLower (SessionData.DataID sd); "-";
        strings_ToLower (SessionData.Language sd) ].

(** The line, or the two lines, the master encoder writes for a variant
    after its alternatives. *)
Definition encode_variant_line {env : Env} (p : MasterPlaylist.t) (v : Variant.t) : string :=
  if VariantParams.Iframe (Variant.Params v)
  then Master.encode_iframe_stream v else Master.encode_stream p v.

(** A date range with an id, a duration of 30 s, and the two offsets set to
    other values. *)
Definition ad_break : DateRange.t :=
  DateRange.mk "ad-1" "" Time.zero Time.zero (30 # 1) (0 # 1) "" "" "" "" (10 # 1) (20 # 1)
    "" "" "" "" ∅.

(** The same with the two offsets at 1. *)
Definition ad_break_1 : DateRange.t :=
  DateRange.mk "ad-1" "" Time.zero Time.zero (30 # 1) (0 # 1) "" "" "" "" (1 # 1) (1 # 1)
    "" "" "" "" ∅.

(** Session data in English and, with the data id in capitals, once more. *)
Definition title_en : SessionData.t := SessionData.mk "com.example.title" "Film" "" "en".
Definition title_EN : SessionData.t := SessionData.mk "COM.EXAMPLE.TITLE" "Movie" "" "EN".

(** ** Maps the encoder ranges over *)

(** A map with at most one entry: a [range] over it has one order only. *)
Definition one_entry {A} (m : gmap string A) : bool := (size m <=? 1)%nat.

(** No custom-tag map of the playlist or of a segment of the store, and no
    attribute map of a date range, has two entries: every [range] of the
    media encoder over a map then has one order only, and two builds from
    one state write the same text. *)
Definition one_order (w : World) : bool :=
  let tags (m : CustomMap) := match m with Some t => one_entry t | None => true end in
  tags (Custom (pl w)) &&
  forallb (fun s : MediaSegment.t =>
             tags (MediaSegment.Custom s) &&
             forallb (fun x : option DateRange.t =>
                        match x with
                        | Some dr => one_entry (DateRange.X dr)
                        | None => true
                        end)
                     (MediaSegment.DateRange s))
          (segs w).

(** The date range [dr] with other values in its two offset fields. *)
Definition with_offsets (resume limit : float64) (dr : DateRange.t) : DateRange.t :=
  DateRange.mk (DateRange.ID dr) (DateRange.Class dr) (DateRange.StartDate dr)
    (DateRange.EndDate dr) (DateRange.Duration dr) (DateRange.PlannedDuration dr)
    (DateRange.SCTE35Cmd dr) (DateRange.SCTE35In dr) (DateRange.SCTE35Out dr)
    (DateRange.EndOnNext dr) resume limit (DateRange.XSnap dr) (DateRange.XRestrict dr)
    (DateRange.XAssetURI dr) (DateRange.XAssetList dr) (DateRange.X dr).

(** ** What the encoders need *)

(** A segment the media encoder can write: its key, if it has one, is in
    the store, and none of its date ranges is nil. *)
Definition encodable (w : World) (s : MediaSegment.t) : Prop :=
  (forall a, MediaSegment.Key s = Some a -> is_Some (keys w !! a)) /\
  (None ∉ MediaSegment.DateRange s).

(** A master playlist without a nil entry among its session data, its
    variants and their alternatives. *)
Definition no_nil_entry (p : MasterPlaylist.t) : Prop :=
  (None ∉ MasterPlaylist.SessionData_ p) /\
  (None ∉ MasterPlaylist.Variants p) /\
  (forall v, Some v ∈ MasterPlaylist.Variants p ->
     None ∉ VariantParams.Alternatives (Variant.Params v)).

(** A cache of durations in which every entry is the rendering of its
    duration. *)
Definition coherent {env : Env} (p : MediaPlaylist.t) (c : durationCache) : Prop :=
  forall k v, (k, v) ∈ c -> v = format_duration p k.


(** * Properties *)

(** ** Machine integers *)

Lemma wrap64_small z : uint64_range z -> wrap64 z = z.
Proof. unfold uint64_range, wrap64. intros H. apply Z.mod_small. lia. Qed.

Lemma wrap64_succ_neq z : wrap64 (z + 1) <> z.
Proof.
  unfold wrap64. intros H.
  assert (Hr : 0 <= z < 2 ^ 64) by (rewrite <- H; apply Z.mod_pos_bound; lia).
  destruct (Z.eq_dec z (2 ^ 64 - 1)) as [->|Hne].
  - vm_compute in H. discriminate.
  - rewrite Z.mod_small in H by lia. lia.
Qed.

Lemma wrap64_idem_add a b : wrap64 (wrap64 a + b) = wrap64 (a + b).
Proof. unfold wrap64. apply Zplus_mod_idemp_l. Qed.

(** Unfolding one layer of the calls. *)
Ltac step := unfold bind, getp, lift, umod, modp, ret in *; simpl in *.

Ltac case_zero :=
  repeat match goal with
         | |- context [if ?b =? 0 then _ else _] =>
             let E := fresh "E" in
             destruct (b =? 0) eqn:E; [discriminate|]; apply Z.eqb_neq in E
         end.

(** ** Calls step by step *)

Lemma bind_Ret {A B} (m : M A) (k : A -> M B) (w w' : World) (b : B) :
  bind m k w = Ret (b, w') -> exists a w1, m w = Ret (a, w1) /\ k a w1 = Ret (b, w').
Proof. unfold bind. destruct (m w) as [[a w1]|]; [eauto | discriminate]. Qed.

Lemma getp_Ret (w w' : World) p : getp w = Ret (p, w') -> p = pl w /\ w' = w.
Proof. unfold getp. intros H. injection H as <- <-. auto. Qed.

Lemma lift_Ret {A} (r : res A) (w w' : World) (a : A) :
  lift r w = Ret (a, w') -> r = Ret a /\ w' = w.
Proof. unfold lift. destruct r; [|discriminate]. intros H. injection H as <- <-. auto. Qed.

Lemma modp_Ret f (w w' : World) u :
  modp f w = Ret (u, w') -> w' = mkWorld (segs w) (keys w) (f (pl w)).
Proof. unfold modp. intros H. injection H as _ <-. auto. Qed.

Lemma ret_Ret {A} (a b : A) (w w' : World) : ret a w = Ret (b, w') -> b = a /\ w' = w.
Proof. unfold ret. intros H. injection H as <- <-. auto. Qed.

Lemma never_errs_ret : never_errs (ret None).
Proof. intros w r w' H. apply ret_Ret in H. tauto. Qed.

Lemma never_errs_bind {A} (m : M A) k :
  (forall a, never_errs (k a)) -> never_errs (bind m k).
Proof. intros Hk w r w' H. apply bind_Ret in H as (a & w1 & _ & H). eapply Hk, H. Qed.

Lemma never_errs_if (c : bool) m1 m2 :
  never_errs m1 -> never_errs m2 -> never_errs (if c then m1 else m2).
Proof. destruct c; auto. Qed.

Create HintDb errs.
#[local] Hint Resolve never_errs_ret never_errs_if : errs.
#[local] Hint Extern 2 (never_errs (bind _ _)) => apply never_errs_bind; intros : errs.

Lemma atomic_guard (c : MediaPlaylist.t -> bool) (e : error) (m : MediaPlaylist.t -> M (option error)) :
  (forall p, never_errs (m p)) ->
  atomic (bind getp (fun p => if c p then ret (Some e) else m p)).
Proof.
  intros Hm w e' w' H. unfold bind, getp in H.
  destruct (c (pl w)).
  - apply ret_Ret in H. tauto.
  - apply Hm in H. discriminate.
Qed.

Lemma AppendSegment_atomic seg : atomic (AppendSegment seg).
Proof.
  unfold AppendSegment.
  apply (atomic_guard (fun p => (head p =? tail p) && (0 <? count p))).
  intros p. auto 20 with errs.
Qed.

Lemma Remove_atomic : atomic Remove.
Proof.
  unfold Remove.
  apply (atomic_guard (fun p => (count p =? 0))).
  intros p. auto 20 with errs.
Qed.

Lemma SetKey_atomic a b c d e : atomic (SetKey a b c d e).
Proof.
  unfold SetKey.
  apply (atomic_guard (fun p => (count p =? 0))).
  intros p. auto 20 with errs.
Qed.

Lemma SetWinSize_atomic n : atomic (SetWinSize n).
Proof.
  unfold SetWinSize.
  apply (atomic_guard (fun p => (capacity p <? n))).
  intros p. auto 20 with errs.
Qed.

Lemma atomic_if (c : bool) (e : error) (m : M (option error)) :
  never_errs m -> atomic (if c then ret (Some e) else m).
Proof.
  intros Hm w e' w' H. destruct c.
  - apply ret_Ret in H. tauto.
  - apply Hm in H. discriminate.
Qed.

Lemma InsertSegments_atomic l n : atomic (InsertSegments l n).
Proof. unfold InsertSegments. apply atomic_if. auto 30 with errs. Qed.

Lemma atomic_checked (r : res (option error)) (m : M (option error)) :
  never_errs m ->
  forall w e w',
    bind (lift r) (fun bad => match bad with Some err => ret (Some err) | None => m end) w
    = Ret (Some e, w') -> w' = w.
Proof.
  intros Hm w e w' H. apply bind_Ret in H as (bad & w1 & H1 & H2).
  apply lift_Ret in H1 as [_ ->]. destruct bad.
  - apply ret_Ret in H2. tauto.
  - apply Hm in H2. discriminate.
Qed.

Lemma SetDateRange_atomic drs : atomic (SetDateRange drs).
Proof.
  intros w e w'. unfold SetDateRange. unfold bind at 1, getp.
  destruct (count (pl w) =? 0).
  - intros H. apply ret_Ret in H. tauto.
  - apply atomic_checked. auto 30 with errs.
Qed.

Lemma AppendDateRange_atomic dr : atomic (AppendDateRange dr).
Proof.
  intros w e w'. unfold AppendDateRange. unfold bind at 1, getp.
  destruct (count (pl w) =? 0).
  - intros H. apply ret_Ret in H. tauto.
  - apply atomic_checked. auto 30 with errs.
Qed.

Lemma update_Ret x f (w w' : World) u :
  update x f w = Ret (u, w') ->
  exists a s, x = Some a /\ segs w !! a = Some s /\
              w' = mkWorld (<[a := f s]> (segs w)) (keys w) (pl w).
Proof.
  unfold update, bind, load, lift, deref. destruct x as [a|]; [|discriminate].
  destruct (segs w !! a) as [s|] eqn:Hs; [|discriminate].
  intros H. injection H as <-. eauto.
Qed.

Lemma insert_last {A} (l : list A) (x y : A) : <[length l := y]> (l ++ [x]) = l ++ [y].
Proof. rewrite insert_app_r_alt by lia. rewrite Nat.sub_diag. reflexivity. Qed.

(** [Append] makes its segment before it tries to append it: when it
    returns an error, the new segment is all that has changed. *)
Lemma Append_error uri d t (w w' : World) e :
  Append uri d t w = Ret (Some e, w') ->
  pl w' = pl w /\ keys w' = keys w /\ exists s, segs w' = segs w ++ [s].
Proof.
  unfold Append. intros H.
  apply bind_Ret in H as (seg & w1 & H1 & H).
  unfold new_segment in H1. injection H1 as <- <-.
  apply bind_Ret in H as (u1 & w2 & H2 & H).
  apply update_Ret in H2 as (a & s & Ha & Hs & ->). injection Ha as <-. simpl in *.
  rewrite lookup_app_r, Nat.sub_diag in Hs by lia. injection Hs as <-.
  rewrite insert_last in H.
  apply bind_Ret in H as (u2 & w3 & H3 & H).
  apply update_Ret in H3 as (a & s & Ha & Hs & ->). injection Ha as <-. simpl in *.
  rewrite lookup_app_r, Nat.sub_diag in Hs by lia. injection Hs as <-.
  rewrite insert_last in H.
  apply bind_Ret in H as (u3 & w4 & H4 & H).
  apply update_Ret in H4 as (a & s & Ha & Hs & ->). injection Ha as <-. simpl in *.
  rewrite lookup_app_r, Nat.sub_diag in Hs by lia. injection Hs as <-.
  rewrite insert_last in H.
  apply AppendSegment_atomic in H as ->. simpl. eauto.
Qed.

(** ** Which calls touch the cached encoding *)

Lemma keeps_pl_buf {A} (m : M A) : keeps_pl m -> keeps_buf m.
Proof. intros H w a w' Hm. now rewrite (H _ _ _ Hm). Qed.

Lemma keeps_pl_getp : keeps_pl getp.
Proof. intros w a w' H. apply getp_Ret in H as [_ ->]. reflexivity. Qed.

Lemma keeps_pl_lift {A} (r : res A) : keeps_pl (lift r).
Proof. intros w a w' H. apply lift_Ret in H as [_ ->]. reflexivity. Qed.

Lemma keeps_pl_ret {A} (a : A) : keeps_pl (ret a).
Proof. intros w b w' H. apply ret_Ret in H as [_ ->]. reflexivity. Qed.

Lemma keeps_pl_new_key k : keeps_pl (new_key k).
Proof. intros w a w' H. unfold new_key in H. injection H as _ <-. reflexivity. Qed.

Lemma keeps_pl_new_segment : keeps_pl new_segment.
Proof. intros w a w' H. unfold new_segment in H. injection H as _ <-. reflexivity. Qed.

Lemma keeps_pl_load x : keeps_pl (load x).
Proof. intros w a w' H. unfold load in H. apply lift_Ret in H as [_ ->]. reflexivity. Qed.

Lemma keeps_pl_update x f : keeps_pl (update x f).
Proof.
  intros w a w' H. unfold update in H.
  apply bind_Ret in H as (s & w1 & Hl & H). apply keeps_pl_load in Hl.
  destruct x; [|discriminate]. injection H as _ <-. exact Hl.
Qed.

Lemma keeps_pl_current : keeps_pl current.
Proof.
  intros w a w' H. unfold current in H.
  apply bind_Ret in H as (p & w1 & Hg & H).
  apply getp_Ret in Hg as [_ ->]. apply lift_Ret in H as [_ ->]. reflexivity.
Qed.

Lemma keeps_buf_bind {A B} (m : M A) (k : A -> M B) :
  keeps_buf m -> (forall a, keeps_buf (k a)) -> keeps_buf (bind m k).
Proof.
  intros Hm Hk w b w' H. apply bind_Ret in H as (a & w1 & H1 & H2).
  rewrite (Hk _ _ _ _ H2). eapply Hm, H1.
Qed.

Lemma keeps_buf_if {A} (c : bool) (m1 m2 : M A) :
  keeps_buf m1 -> keeps_buf m2 -> keeps_buf (if c then m1 else m2).
Proof. destruct c; auto. Qed.

Lemma keeps_buf_option {A B} (o : option B) (m1 : B -> M A) (m2 : M A) :
  (forall b, keeps_buf (m1 b)) -> keeps_buf m2 ->
  keeps_buf (match o with Some b => m1 b | None => m2 end).
Proof. destruct o; auto. Qed.

Lemma keeps_buf_set_ver v : keeps_buf (modp (fun p => set_ver (v p) p)).
Proof. intros w a w' H. apply modp_Ret in H as ->. simpl. now destruct (pl w). Qed.

Create HintDb cache.
#[local] Hint Resolve keeps_pl_getp keeps_pl_lift keeps_pl_ret keeps_pl_new_key
  keeps_pl_new_segment keeps_pl_load keeps_pl_update keeps_pl_current : cache.
#[local] Hint Resolve keeps_buf_if keeps_buf_option keeps_buf_set_ver : cache.
#[local] Hint Extern 1 (keeps_buf (bind _ _)) => apply keeps_buf_bind; [|intros] : cache.
#[local] Hint Extern 3 (keeps_buf _) => apply keeps_pl_buf : cache.

Lemma SetKey_keeps_buf a b c d e : keeps_buf (SetKey a b c d e).
Proof. unfold SetKey. auto 30 with cache. Qed.
Lemma SetMap_keeps_buf a b c : keeps_buf (SetMap a b c).
Proof. unfold SetMap. auto 30 with cache. Qed.
Lemma SetRange_keeps_buf a b : keeps_buf (SetRange a b).
Proof. unfold SetRange. auto 30 with cache. Qed.
Lemma SetSCTE35_keeps_buf a : keeps_buf (SetSCTE35 a).
Proof. unfold SetSCTE35. auto 30 with cache. Qed.
Lemma SetDateRange_keeps_buf a : keeps_buf (SetDateRange a).
Proof. unfold SetDateRange. auto 30 with cache. Qed.
Lemma AppendDateRange_keeps_buf a : keeps_buf (AppendDateRange a).
Proof. unfold AppendDateRange. auto 30 with cache. Qed.
Lemma SetDiscontinuity_keeps_buf : keeps_buf SetDiscontinuity.
Proof. unfold SetDiscontinuity. auto 30 with cache. Qed.
Lemma SetGap_keeps_buf : keeps_buf SetGap.
Proof. unfold SetGap. auto 30 with cache. Qed.
Lemma SetProgramDateTime_keeps_buf a : keeps_buf (SetProgramDateTime a).
Proof. unfold SetProgramDateTime. auto 30 with cache. Qed.
Lemma SetCustomSegmentTag_keeps_buf a : keeps_buf (SetCustomSegmentTag a).
Proof. unfold SetCustomSegmentTag. auto 30 with cache. Qed.

Lemma clears_buf_bind {A} (m : M A) k :
  (forall a, clears_buf (k a)) -> clears_buf (bind m k).
Proof. intros Hk w w' H. apply bind_Ret in H as (a & w1 & _ & H). eapply Hk, H. Qed.

Lemma clears_buf_if (c : bool) m1 m2 :
  clears_buf m1 -> clears_buf m2 -> clears_buf (if c then m1 else m2).
Proof. destruct c; auto. Qed.

Lemma clears_buf_error e : clears_buf (ret (Some e)).
Proof. intros w w' H. apply ret_Ret in H as [? _]. discriminate. Qed.

Lemma clears_buf_reset : clears_buf (bind (modp (set_buf "")) (fun _ => ret None)).
Proof.
  intros w w' H. apply bind_Ret in H as (a & w1 & H1 & H2).
  apply modp_Ret in H1 as ->. apply ret_Ret in H2 as [_ ->]. simpl. now destruct (pl w).
Qed.

#[local] Hint Resolve clears_buf_if clears_buf_error clears_buf_reset : cache.
#[local] Hint Extern 2 (clears_buf (bind _ _)) => apply clears_buf_bind; intros : cache.

Lemma AppendSegment_clears seg : clears_buf (AppendSegment seg).
Proof. unfold AppendSegment. auto 30 with cache. Qed.
Lemma Remove_clears : clears_buf Remove.
Proof. unfold Remove. auto 30 with cache. Qed.
Lemma InsertSegments_clears l n : clears_buf (InsertSegments l n).
Proof. unfold InsertSegments. auto 30 with cache. Qed.
Lemma Append_clears u d t : clears_buf (Append u d t).
Proof. unfold Append. pose proof AppendSegment_clears. auto 30 with cache. Qed.

(** ** Remove *)

(** C7. [Remove] on a playlist with no live segment returns the error
    "playlist is empty" and changes nothing; with a live segment and a
    capacity it succeeds, and a successful [Remove] moves [head] to
    [(head + 1) mod capacity], takes one from [count], and adds one to
    [SeqNo] exactly when the playlist is not closed. The arithmetic is
    that of [uint] and [uint64]; where nothing overflows it is the plain
    one. *)
Theorem Remove_spec (w : World) :
  (count (pl w) = 0 ->
     exists e, Remove w = Ret (Some e, w) /\ Error e = Error ErrPlaylistEmpty) /\
  (count (pl w) <> 0 -> capacity (pl w) <> 0 -> exists w', Remove w = Ret (None, w')) /\
  (forall w', Remove w = Ret (None, w') ->
     count (pl w) <> 0 /\
     head (pl w') = wrap64 (head (pl w) + 1) mod capacity (pl w) /\
     count (pl w') = wrap64 (count (pl w) - 1) /\
     SeqNo (pl w') = (if Closed (pl w) then SeqNo (pl w) else wrap64 (SeqNo (pl w) + 1)) /\
     (SeqNo (pl w') <> SeqNo (pl w) <-> Closed (pl w) = false) /\
     (uint64_range (head (pl w) + 1) ->
        head (pl w') = (head (pl w) + 1) mod capacity (pl w)) /\
     (uint64_range (count (pl w)) -> count (pl w') = count (pl w) - 1) /\
     (uint64_range (SeqNo (pl w) + 1) -> Closed (pl w) = false ->
        SeqNo (pl w') = SeqNo (pl w) + 1)).
Proof.
  destruct w as [sg ks p]. destruct p. unfold Remove. step.
  split; [|split].
  - intros ->. simpl. eexists. split; reflexivity.
  - intros Hc Hk. apply Z.eqb_neq in Hc, Hk. rewrite Hc, Hk. eauto.
  - intros w'. case_zero.
    intros H. injection H as <-.
    match goal with |- context [negb ?c] => destruct c end; simpl;
      repeat split; intros; try congruence; try tauto;
      try (apply wrap64_succ_neq);
      try (rewrite wrap64_small by (unfold uint64_range in *; lia); reflexivity).
Qed.

(** On the empty playlist of capacity 3 [Remove] fails and leaves the
    world alone; after A, B and C it leaves two segments from slot 1 on
    and the playlist numbered from 1. *)
Lemma Remove_spec_witness :
  (exists e, Remove new_2_3 = Ret (Some e, new_2_3) /\ Error e = "playlist is empty") /\
  (exists w', Remove world_ABC = Ret (None, w') /\
     head (pl w') = 1 /\ count (pl w') = 2 /\ SeqNo (pl w') = 1).
Proof.
  split.
  - destruct (Remove_spec new_2_3) as [H _]. apply H. reflexivity.
  - destruct (Remove_spec world_ABC) as (_ & Hok & Hs).
    assert (Hex : exists w', Remove world_ABC = Ret (None, w'))
      by (apply Hok; vm_compute; discriminate).
    destruct Hex as [w' Hw'].
    exists w'. split; [exact Hw'|].
    destruct (Hs w' Hw') as (_ & _ & _ & _ & _ & Hh & Hc & Hn).
    rewrite Hh by (vm_compute; split; [discriminate | reflexivity]).
    rewrite Hc by (vm_compute; split; [discriminate | reflexivity]).
    rewrite Hn; [| vm_compute; split; [discriminate | reflexivity] | reflexivity].
    repeat split.
Defined.

(** ** The cache of [Encode] *)

Lemma buf_Len_cons c s : (0 <? buf_Len (String c s)) = true.
Proof. unfold buf_Len. simpl String.length. apply Z.ltb_lt. lia. Qed.

Lemma res_bind_Ret {A B} (r : res A) (k : A -> res B) (b : B) :
  res_bind r k = Ret b -> exists a, r = Ret a /\ k a = Ret b.
Proof. destruct r; simpl; [eauto | discriminate]. Qed.

(** What [Encode] builds is never empty: it starts with the header line. *)
Lemma encode_media_nonempty {env : Env} (w : World) (out : string) :
  encode_media w = Ret out -> (0 <? buf_Len out) = true.
Proof.
  unfold encode_media. intros H.
  apply res_bind_Ret in H as (header & Hh & H).
  apply res_bind_Ret in H as (body & Hb & H).
  injection H as <-.
  unfold encode_header in Hh.
  apply res_bind_Ret in Hh as (key & Hk & Hh).
  injection Hh as <-.
  apply buf_Len_cons.
Qed.

Lemma encode_master_nonempty {env : Env} (p : MasterPlaylist.t) (out : string) :
  Master.encode_master p = Ret out -> (0 <? buf_Len out) = true.
Proof.
  unfold Master.encode_master. intros H.
  apply res_bind_Ret in H as (session & Hs & H).
  apply res_bind_Ret in H as (variants & Hv & H).
  injection H as <-.
  apply buf_Len_cons.
Qed.

Lemma buf_Len_nonempty (b : string) : b <> "" -> (0 <? buf_Len b) = true.
Proof. destruct b; [contradiction | intros _; apply buf_Len_cons]. Qed.

Lemma buf_Len_positive (b : string) : (0 <? buf_Len b) = true -> b <> "".
Proof. intros H ->. discriminate. Qed.

Lemma repeated_fixed {St A} (m : St -> res (A * St)) (s : St) (a : A) :
  m s = Ret (a, s) -> forall n, repeated m n s = Ret (a, s).
Proof. intros H n. induction n as [|n IH]; cbn [repeated]; [exact H | now rewrite H]. Qed.

(** What [Encode] returns is not empty, is the cache, and is returned by
    the next call, which changes nothing. *)
Lemma Encode_fixed {env : Env} (w w' : World) (b : string) :
  Encode w = Ret (b, w') -> b <> "" /\ buf (pl w') = b /\ Encode w' = Ret (b, w').
Proof.
  unfold Encode. step.
  destruct (0 <? buf_Len (buf (pl w))) eqn:Hlen.
  - intros H. injection H as <- <-. rewrite Hlen. auto using buf_Len_positive.
  - destruct (encode_media w) as [out|e] eqn:Hm; [|discriminate].
    intros H. injection H as <- <-.
    pose proof (encode_media_nonempty _ _ Hm) as Hne.
    destruct w as [sg ks p]. destruct p. simpl.
    rewrite Hne. auto using buf_Len_positive.
Qed.

Lemma Master_Encode_fixed {env : Env} (p p' : MasterPlaylist.t) (b : string) :
  Master.Encode p = Ret (b, p') ->
  b <> "" /\ MasterPlaylist.buf p' = b /\ Master.Encode p' = Ret (b, p').
Proof.
  unfold Master.Encode.
  destruct (0 <? buf_Len (MasterPlaylist.buf p)) eqn:Hlen.
  - intros H. injection H as <- <-. rewrite Hlen. auto using buf_Len_positive.
  - intros H. apply res_bind_Ret in H as (out & Hm & H).
    injection H as <- <-. pose proof (encode_master_nonempty _ _ Hm) as Hne.
    destruct p. simpl. rewrite Hne. auto using buf_Len_positive.
Qed.

Lemma Encode_builds {env : Env} (w : World) :
  buf (pl w) = "" ->
  Encode w = let+ out := encode_media w in
             Ret (out, mkWorld (segs w) (keys w) (set_buf out (pl w))).
Proof. intros H. unfold Encode. step. rewrite H. reflexivity. Qed.

(** C9. [Encode], on a media and on a master playlist, builds the text
    only when nothing is cached. With an empty cache, which is what every
    cache-clearing call leaves, it builds the encoding of the state as it
    is, keeps it in [buf] and returns it. With a non-empty cache it returns
    the cache as it is and builds nothing, whatever the state would encode
    to. What a call returns is the playlist's own buffer and is never
    empty: every further call in a row returns the same bytes and leaves
    the playlist as the first call left it. *)
Theorem Encode_twice {env : Env} :
  (forall w : World,
     (buf (pl w) = "" ->
        Encode w = let+ out := encode_media w in
                   Ret (out, mkWorld (segs w) (keys w) (set_buf out (pl w)))) /\
     (buf (pl w) <> "" -> Encode w = Ret (buf (pl w), w)) /\
     (forall w1,
        Remove w = Ret (None, w1) \/
        (exists seg, AppendSegment seg w = Ret (None, w1)) \/
        (exists uri d t, Append uri d t w = Ret (None, w1)) \/
        (exists l n, InsertSegments l n w = Ret (None, w1)) \/
        (exists l, SetMediaSegments l w = Ret (tt, w1)) \/
        ResetCache w = Ret (tt, w1) ->
        Encode w1 = let+ out := encode_media w1 in
                    Ret (out, mkWorld (segs w1) (keys w1) (set_buf out (pl w1)))) /\
     (forall b w', Encode w = Ret (b, w') ->
        b <> "" /\ buf (pl w') = b /\
        forall n, repeated Encode n w' = Ret (b, w'))) /\
  (forall p : MasterPlaylist.t,
     (MasterPlaylist.buf p = "" ->
        Master.Encode p = let+ out := Master.encode_master p in
                          Ret (out, MasterPlaylist.set_buf out p)) /\
     (MasterPlaylist.buf p <> "" -> Master.Encode p = Ret (MasterPlaylist.buf p, p)) /\
     (forall p1,
        (exists uri chunklist params, p1 = Master.Append uri chunklist params p) \/
        p1 = Master.ResetCache p ->
        Master.Encode p1 = let+ out := Master.encode_master p1 in
                           Ret (out, MasterPlaylist.set_buf out p1)) /\
     (forall b p', Master.Encode p = Ret (b, p') ->
        b <> "" /\ MasterPlaylist.buf p' = b /\
        forall n, repeated Master.Encode n p' = Ret (b, p'))).
Proof.
  split.
  - intros w. split; [apply Encode_builds|]. split; [|split].
    + intros Hne. unfold Encode. step. now rewrite (buf_Len_nonempty _ Hne).
    + intros w1 H. apply Encode_builds.
      destruct H as [H|[(seg & H)|[(uri & d & t & H)|[(l & n & H)|[(l & H)|H]]]]].
      * eapply Remove_clears; eauto.
      * eapply AppendSegment_clears; eauto.
      * eapply Append_clears; eauto.
      * eapply InsertSegments_clears; eauto.
      * unfold SetMediaSegments in H. step. injection H as <-. simpl. now destruct (pl w).
      * unfold ResetCache in H. step. injection H as <-. simpl. now destruct (pl w).
    + intros b w' H. apply Encode_fixed in H as (Hne & Hb & Hagain).
      split; [exact Hne|]. split; [exact Hb|]. now apply repeated_fixed.
  - assert (Hbuilds : forall q, MasterPlaylist.buf q = "" ->
              Master.Encode q = let+ out := Master.encode_master q in
                                Ret (out, MasterPlaylist.set_buf out q)).
    { intros q Hq. unfold Master.Encode. now rewrite Hq. }
    intros p. split; [apply Hbuilds|]. split; [|split].
    + intros Hne. unfold Master.Encode. now rewrite (buf_Len_nonempty _ Hne).
    + intros p1 H. apply Hbuilds.
      destruct H as [(uri & chunklist & params & ->)| ->].
      * unfold Master.Append. now destruct (0 <? _), p.
      * unfold Master.ResetCache. now destruct p.
    + intros b p' H. apply Master_Encode_fixed in H as (Hne & Hb & Hagain).
      split; [exact Hne|]. split; [exact Hb|]. now apply repeated_fixed.
Qed.

(** The playlist with A, B and C has nothing cached: [Encode] builds the
    text of its state, and three more calls return the same bytes. With A
    encoded and then flagged by [SetDiscontinuity] the cache is returned as
    it is. The master playlist with two variants behaves the same way. *)
Lemma Encode_twice_witness :
  (exists b w', @Encode GoEnv.go world_ABC = Ret (b, w') /\
                @encode_media GoEnv.go world_ABC = Ret b /\
                buf (pl w') = b /\
                repeated (@Encode GoEnv.go) 2 w' = Ret (b, w')) /\
  (exists w1, SetDiscontinuity world_A_encoded = Ret (None, w1) /\
              @Encode GoEnv.go w1 = Ret (buf (pl world_A_encoded), w1)) /\
  (exists b p', @Master.Encode GoEnv.go master_two = Ret (b, p') /\
                @Master.encode_master GoEnv.go master_two = Ret b /\
                repeated (@Master.Encode GoEnv.go) 2 p' = Ret (b, p')).
Proof.
  destruct (@Encode_twice GoEnv.go) as [Hmedia Hmaster].
  split; [|split].
  - destruct (Hmedia world_ABC) as (Hbuild & _ & _ & Hrep).
    assert (Hm : exists b, @encode_media GoEnv.go world_ABC = Ret b)
      by (eexists; vm_compute; reflexivity).
    destruct Hm as [b Hm].
    assert (HE : @Encode GoEnv.go world_ABC =
                 Ret (b, mkWorld (segs world_ABC) (keys world_ABC)
                           (set_buf b (pl world_ABC)))).
    { rewrite Hbuild by reflexivity. now rewrite Hm. }
    destruct (Hrep _ _ HE) as (_ & Hb & Hn).
    eexists _, _. split; [exact HE|]. split; [exact Hm|]. split; [exact Hb | apply Hn].
  - eexists. split; [vm_compute; reflexivity|].
    lazymatch goal with |- Encode ?w1 = _ =>
      destruct (Hmedia w1) as (_ & Hcached & _) end.
    rewrite Hcached by (vm_compute; discriminate). vm_compute. reflexivity.
  - destruct (Hmaster master_two) as (Hbuild & _ & _ & Hrep).
    assert (Hm : exists b, @Master.encode_master GoEnv.go master_two = Ret b)
      by (eexists; vm_compute; reflexivity).
    destruct Hm as [b Hm].
    assert (HE : @Master.Encode GoEnv.go master_two =
                 Ret (b, MasterPlaylist.set_buf b master_two)).
    { rewrite Hbuild by reflexivity. now rewrite Hm. }
    destruct (Hrep _ _ HE) as (_ & _ & Hn).
    eexists _, _. split; [exact HE|]. split; [exact Hm | apply Hn].
Defined.

(** ** Errors leave the playlist as it was *)

Lemma setter_atomic (m : MediaPlaylist.t -> M (option error)) :
  (forall p, never_errs (m p)) ->
  atomic (bind getp (fun p => if count p =? 0 then ret (Some playlist_is_empty) else m p)).
Proof. intros Hm. apply (atomic_guard (fun p => count p =? 0)), Hm. Qed.

(** C5. Whenever a mutator of a media playlist returns an error, the world
    it returns is the world it was called in: playlist, cached encoding and
    store. [Append] has by then made the segment it was going to append;
    that unreferenced segment is all its failure leaves behind. A failed
    [NewMediaPlaylist] returns no playlist. *)
Theorem errors_leave_state {env : Env} (w w' : World) (e : error) :
  (forall n, SetWinSize n w = Ret (Some e, w') -> w' = w) /\
  (forall n c, NewMediaPlaylist n c w = Ret (Some e, w') -> w' = w) /\
  (forall l n, InsertSegments l n w = Ret (Some e, w') -> w' = w) /\
  (Remove w = Ret (Some e, w') -> w' = w) /\
  (forall seg, AppendSegment seg w = Ret (Some e, w') -> w' = w) /\
  (forall uri d t, Append uri d t w = Ret (Some e, w') ->
     pl w' = pl w /\ keys w' = keys w /\ exists s, segs w' = segs w ++ [s]) /\
  (forall m u iv kf kfv, SetKey m u iv kf kfv w = Ret (Some e, w') -> w' = w) /\
  (forall u l o, SetMap u l o w = Ret (Some e, w') -> w' = w) /\
  (forall l o, SetRange l o w = Ret (Some e, w') -> w' = w) /\
  (forall c, SetSCTE35 c w = Ret (Some e, w') -> w' = w) /\
  (forall c i t, SetSCTE c i t w = Ret (Some e, w') -> w' = w) /\
  (forall drs, SetDateRange drs w = Ret (Some e, w') -> w' = w) /\
  (forall dr, AppendDateRange dr w = Ret (Some e, w') -> w' = w) /\
  (SetDiscontinuity w = Ret (Some e, w') -> w' = w) /\
  (SetGap w = Ret (Some e, w') -> w' = w) /\
  (forall t, SetProgramDateTime t w = Ret (Some e, w') -> w' = w) /\
  (forall tag, SetCustomSegmentTag tag w = Ret (Some e, w') -> w' = w).
Proof.
  repeat split; intros.
  - eapply SetWinSize_atomic; eauto.
  - unfold NewMediaPlaylist in H.
    destruct (SetWinSize n _) as [[[err|] w1]|]; try discriminate.
    + injection H as _ <-. reflexivity.
    + unfold bind, lift in H. destruct (make _ _ _); discriminate.
  - eapply InsertSegments_atomic; eauto.
  - eapply Remove_atomic; eauto.
  - eapply AppendSegment_atomic; eauto.
  - eapply Append_error; eauto.
  - eapply Append_error; eauto.
  - eapply Append_error; eauto.
  - eapply SetKey_atomic; eauto.
  - revert H. apply setter_atomic. auto 30 with errs.
  - revert H. apply setter_atomic. auto 30 with errs.
  - revert H. apply setter_atomic. auto 30 with errs.
  - revert H. apply setter_atomic. auto 30 with errs.
  - eapply SetDateRange_atomic; eauto.
  - eapply AppendDateRange_atomic; eauto.
  - revert H. apply setter_atomic. auto 30 with errs.
  - revert H. apply setter_atomic. auto 30 with errs.
  - revert H. apply setter_atomic. auto 30 with errs.
  - revert H. apply setter_atomic. auto 30 with errs.
Qed.

(** A full playlist refuses a fourth segment, an empty one refuses
    [Remove] and [SetKey], a window of 4 does not fit a capacity of 3, and
    a date range without an id is refused: each time the world is the same
    afterwards. *)
Lemma errors_leave_state_witness :
  (exists w', AppendSegment (Some 0%nat) world_ABC = Ret (Some ErrPlaylistFull, w') /\
              w' = world_ABC) /\
  (exists w', Remove new_2_3 = Ret (Some playlist_is_empty, w') /\ w' = new_2_3) /\
  (exists w', SetKey "AES-128" "k" "" "" "" new_2_3 = Ret (Some playlist_is_empty, w') /\
              w' = new_2_3) /\
  (exists e w', SetWinSize 4 new_2_3 = Ret (Some e, w') /\ w' = new_2_3) /\
  (exists w', InsertSegments [] 0 world_ABC = Ret (Some ErrPlaylistEmpty, w') /\
              w' = world_ABC) /\
  (exists w', SetDateRange [Some nameless_range] world_ABC
              = Ret (Some (errors_New "DateRange ID"), w') /\ w' = world_ABC).
Proof.
  repeat split.
  - eexists. split; [vm_compute; reflexivity|].
    match goal with |- ?w' = ?w =>
      destruct (@errors_leave_state GoEnv.go w w' ErrPlaylistFull)
        as (_ & _ & _ & _ & H & _) end.
    apply (H (Some 0%nat)). vm_compute. reflexivity.
  - eexists. split; [vm_compute; reflexivity|].
    match goal with |- ?w' = ?w =>
      destruct (@errors_leave_state GoEnv.go w w' playlist_is_empty)
        as (_ & _ & _ & H & _) end.
    apply H. vm_compute. reflexivity.
  - eexists. split; [vm_compute; reflexivity|].
    match goal with |- ?w' = ?w =>
      destruct (@errors_leave_state GoEnv.go w w' playlist_is_empty)
        as (_ & _ & _ & _ & _ & _ & H & _) end.
    apply (H "AES-128" "k" "" "" ""). vm_compute. reflexivity.
  - eexists _, _. split; [vm_compute; reflexivity|].
    match goal with |- ?w' = ?w =>
      destruct (@errors_leave_state GoEnv.go w w'
                  (errors_New "capacity must be greater than winsize or equal"))
        as (H & _) end.
    apply (H 4). vm_compute. reflexivity.
  - eexists. split; [vm_compute; reflexivity|].
    match goal with |- ?w' = ?w =>
      destruct (@errors_leave_state GoEnv.go w w' ErrPlaylistEmpty)
        as (_ & _ & H & _) end.
    apply (H [] 0). vm_compute. reflexivity.
  - eexists. split; [vm_compute; reflexivity|].
    match goal with |- ?w' = ?w =>
      destruct (@errors_leave_state GoEnv.go w w' (errors_New "DateRange ID"))
        as (_ & _ & _ & _ & _ & _ & _ & _ & _ & _ & _ & H & _) end.
    apply (H [Some nameless_range]). vm_compute. reflexivity.
Defined.

(** ** Which mutators clear the cache *)

Lemma SetMediaSegments_Ret (segments : slice ptr) (w : World) :
  SetMediaSegments segments w =
  Ret (tt, mkWorld (segs w) (keys w)
             (set_buf "" (set_capacity (len segments) (set_tail (len segments)
                (set_count (len segments) (set_Segments segments (pl w))))))).
Proof. unfold SetMediaSegments. step. destruct (pl w). reflexivity. Qed.

Lemma Slide_cache uri d t (w w' : World) u :
  Slide uri d t w = Ret (u, w') -> buf (pl w') = "" \/ pl w' = pl w.
Proof.
  unfold Slide. intros H.
  apply bind_Ret in H as (p & w0 & Hg & H). apply getp_Ret in Hg as [-> ->].
  apply bind_Ret in H as (u1 & w1 & H1 & H).
  apply bind_Ret in H as (r & w2 & H2 & H). apply ret_Ret in H as [_ ->].
  assert (Hw1 : buf (pl w1) = "" \/ pl w1 = pl w).
  { destruct (negb (Closed (pl w)) && (winsize (pl w) <=? count (pl w))).
    - apply bind_Ret in H1 as (r1 & w3 & H1 & H3). apply ret_Ret in H3 as [_ ->].
      destruct r1 as [e|].
      + apply Remove_atomic in H1 as ->. now right.
      + apply Remove_clears in H1. now left.
    - apply ret_Ret in H1 as [_ ->]. now right. }
  destruct r as [e|].
  - apply Append_error in H2 as (Hp & _). rewrite Hp. exact Hw1.
  - apply Append_clears in H2. now left.
Qed.

(** C3, as the code has it. The calls that change the ring ([AppendSegment],
    [Append], [InsertSegments], [Remove], [SetMediaSegments]) have
    emptied the cached encoding when they return without error, and [Slide]
    has emptied it unless it left the playlist as it was. The setters of the
    current segment ([SetKey], [SetMap], [SetRange], [SetSCTE35], [SetSCTE],
    [SetDateRange], [AppendDateRange], [SetDiscontinuity], [SetGap],
    [SetProgramDateTime], [SetCustomSegmentTag]) do not touch the cached
    encoding. [Encode] builds the text anew when the cache is empty and
    returns the cache as it is otherwise. *)
Theorem cache_after_mutation {env : Env} (w w' : World) :
  ((forall seg, AppendSegment seg w = Ret (None, w') -> buf (pl w') = "") /\
   (forall uri d t, Append uri d t w = Ret (None, w') -> buf (pl w') = "") /\
   (forall l n, InsertSegments l n w = Ret (None, w') -> buf (pl w') = "") /\
   (Remove w = Ret (None, w') -> buf (pl w') = "") /\
   (forall l, SetMediaSegments l w = Ret (tt, w') -> buf (pl w') = "") /\
   (forall uri d t, Slide uri d t w = Ret (tt, w') -> buf (pl w') = "" \/ pl w' = pl w)) /\
  ((forall m u iv kf kfv r, SetKey m u iv kf kfv w = Ret (r, w') -> buf (pl w') = buf (pl w)) /\
   (forall u l o r, SetMap u l o w = Ret (r, w') -> buf (pl w') = buf (pl w)) /\
   (forall l o r, SetRange l o w = Ret (r, w') -> buf (pl w') = buf (pl w)) /\
   (forall c r, SetSCTE35 c w = Ret (r, w') -> buf (pl w') = buf (pl w)) /\
   (forall c i t r, SetSCTE c i t w = Ret (r, w') -> buf (pl w') = buf (pl w)) /\
   (forall drs r, SetDateRange drs w = Ret (r, w') -> buf (pl w') = buf (pl w)) /\
   (forall dr r, AppendDateRange dr w = Ret (r, w') -> buf (pl w') = buf (pl w)) /\
   (forall r, SetDiscontinuity w = Ret (r, w') -> buf (pl w') = buf (pl w)) /\
   (forall r, SetGap w = Ret (r, w') -> buf (pl w') = buf (pl w)) /\
   (forall t r, SetProgramDateTime t w = Ret (r, w') -> buf (pl w') = buf (pl w)) /\
   (forall tag r, SetCustomSegmentTag tag w = Ret (r, w') -> buf (pl w') = buf (pl w))) /\
  ((buf (pl w) = "" -> forall b, Encode w = Ret (b, w') -> encode_media w = Ret b) /\
   ((0 <? buf_Len (buf (pl w))) = true -> Encode w = Ret (buf (pl w), w))).
Proof.
  split; [|split]; repeat split; intros.
  - eapply AppendSegment_clears; eauto.
  - eapply Append_clears; eauto.
  - eapply InsertSegments_clears; eauto.
  - eapply Remove_clears; eauto.
  - rewrite SetMediaSegments_Ret in H. injection H as <-. simpl. now destruct (pl w).
  - eapply Slide_cache; eauto.
  - eapply SetKey_keeps_buf; eauto.
  - eapply SetMap_keeps_buf; eauto.
  - eapply SetRange_keeps_buf; eauto.
  - eapply SetSCTE35_keeps_buf; eauto.
  - eapply SetSCTE35_keeps_buf; eauto.
  - eapply SetDateRange_keeps_buf; eauto.
  - eapply AppendDateRange_keeps_buf; eauto.
  - eapply SetDiscontinuity_keeps_buf; eauto.
  - eapply SetGap_keeps_buf; eauto.
  - eapply SetProgramDateTime_keeps_buf; eauto.
  - eapply SetCustomSegmentTag_keeps_buf; eauto.
  - unfold Encode in H0. step. rewrite H in H0. simpl in H0.
    destruct (encode_media w); [|discriminate]. injection H0 as <- _. reflexivity.
  - unfold Encode. step. rewrite H. reflexivity.
Qed.

(** With A appended and encoded: [Remove] empties the cache, while
    [SetDiscontinuity] keeps the encoding made before it. *)
Lemma cache_after_mutation_witness :
  (exists w2, Remove world_A_encoded = Ret (None, w2) /\ buf (pl w2) = "") /\
  (exists w2, SetDiscontinuity world_A_encoded = Ret (None, w2) /\
              buf (pl w2) = buf (pl world_A_encoded)).
Proof.
  split.
  - eexists. split; [vm_compute; reflexivity|].
    lazymatch goal with |- buf (pl ?w2) = _ =>
      destruct (@cache_after_mutation GoEnv.go world_A_encoded w2)
        as ((_ & _ & _ & H & _) & _) end.
    apply H. vm_compute. reflexivity.
  - eexists. split; [vm_compute; reflexivity|].
    lazymatch goal with |- buf (pl ?w2) = _ =>
      destruct (@cache_after_mutation GoEnv.go world_A_encoded w2)
        as (_ & (_ & _ & _ & _ & _ & _ & _ & H & _) & _) end.
    apply (H None). vm_compute. reflexivity.
Defined.

(** C3 does not hold for the setters of the current segment: after A is
    appended and encoded, [SetDiscontinuity] succeeds and the cached
    encoding is still there, so the next [Encode] returns the bytes made
    before the call, without the discontinuity tag that an encoding from
    the state would carry. *)
Lemma setter_keeps_stale_cache :
  exists b w1 w2 fresh,
    @Encode GoEnv.go world_A = Ret (b, w1) /\
    SetDiscontinuity w1 = Ret (None, w2) /\
    buf (pl w2) <> "" /\
    @Encode GoEnv.go w2 = Ret (b, w2) /\
    @encode_media GoEnv.go w2 = Ret fresh /\
    strings_Contains fresh "#EXT-X-DISCONTINUITY" = true /\
    strings_Contains b "#EXT-X-DISCONTINUITY" = false.
Proof.
  eexists _, _, _, _.
  split; [vm_compute; reflexivity|].
  split; [vm_compute; reflexivity|].
  split; [vm_compute; discriminate|].
  split; [vm_compute; reflexivity|].
  split; [vm_compute; reflexivity|].
  split; vm_compute; reflexivity.
Defined.

(** ** The window of the encoder *)

Lemma append_assoc (a b c : string) : (a +:+ b) +:+ c = a +:+ (b +:+ c).
Proof.
  induction a as [|x a IH]; [reflexivity|].
  change (String x ((a +:+ b) +:+ c) = String x (a +:+ (b +:+ c))). now rewrite IH.
Qed.

Lemma append_nil_r (a : string) : a +:+ "" = a.
Proof.
  induction a as [|x a IH]; [reflexivity|].
  change (String x (a +:+ "") = String x a). now rewrite IH.
Qed.

(** C2, as the code has it. With capacity 3 and window 2, after A (4 s),
    B (6 s) and C (5 s) are appended, [Encode] writes media sequence 0,
    target duration 6, and the two segments at the head of the ring, A and
    B; C, the newest, is the one left out. This holds whatever the version
    a new playlist starts with and whatever the rendering of floats. *)
Theorem scenario1_window {env : Env} :
  output (scenario1 empty_world) =
  Some ("#EXTM3U" +:+ nl +:+
        "#EXT-X-VERSION:" +:+ strver minver +:+ nl +:+
        "#EXT-X-MEDIA-SEQUENCE:0" +:+ nl +:+
        "#EXT-X-TARGETDURATION:6" +:+ nl +:+
        "#EXTINF:" +:+ strconv_FormatFloat (4 # 1) ffmt 3 32 +:+ "," +:+ nl +:+
        "A.ts" +:+ nl +:+
        "#EXTINF:" +:+ strconv_FormatFloat (6 # 1) ffmt 3 32 +:+ "," +:+ nl +:+
        "B.ts" +:+ nl).
Proof.
  cbv -[strver strconv_FormatFloat minver append].
  rewrite ?append_assoc, ?append_nil_r. reflexivity.
Qed.

(** C2 does not hold as stated: the output of scenario 1 lists A and B and
    does not mention C. *)
Lemma scenario1_excludes_newest :
  exists out,
    output (@scenario1 GoEnv.go empty_world) = Some out /\
    occurrences "#EXTINF:" out = 2%nat /\
    strings_Contains out ("#EXTINF:4.000," +:+ nl +:+ "A.ts") = true /\
    strings_Contains out ("#EXTINF:6.000," +:+ nl +:+ "B.ts") = true /\
    strings_Contains out "C.ts" = false.
Proof.
  eexists. split; [vm_compute; reflexivity|]. repeat split; vm_compute; reflexivity.
Defined.

(** ** The key of a segment *)

Lemma key_changed_spec (p : MediaPlaylist.t) (seg : MediaSegment.t) :
  key_changed p seg = true <->
  MediaSegment.Key seg <> None /\ Key p <> MediaSegment.Key seg.
Proof.
  unfold key_changed. destruct (MediaSegment.Key seg) as [a|].
  - rewrite negb_true_iff, bool_decide_eq_false. split; [intros H; split; [discriminate|exact H] | tauto].
  - split; [discriminate | intros [H _]; congruence].
Qed.

Lemma new_key_Ret k (w w' : World) x :
  new_key k w = Ret (x, w') ->
  x = Some (length (keys w)) /\ w' = mkWorld (segs w) (keys w ++ [k]) (pl w).
Proof. unfold new_key. intros H. injection H as <- <-. auto. Qed.

Lemma current_Ret (w w' : World) x :
  current w = Ret (x, w') -> index (Segments (pl w)) (last (pl w)) = Ret x /\ w' = w.
Proof.
  unfold current. intros H.
  apply bind_Ret in H as (p & w1 & Hg & H). apply getp_Ret in Hg as [-> ->].
  apply lift_Ret in H. exact H.
Qed.

Lemma SetKey_Ret m u iv kf kfv (w w' : World) :
  SetKey m u iv kf kfv w = Ret (None, w') ->
  exists a s,
    index (Segments (pl w)) (last (pl w)) = Ret (Some a) /\
    segs w !! a = Some s /\
    segs w' = <[a := MediaSegment.set_Key (Some (length (keys w))) s]> (segs w) /\
    keys w' = keys w ++ [Key.mk m u iv kf kfv] /\
    Segments (pl w') = Segments (pl w) /\ last (pl w') = last (pl w) /\
    Key (pl w') = Key (pl w).
Proof.
  unfold SetKey. intros H.
  apply bind_Ret in H as (p & w0 & Hg & H). apply getp_Ret in Hg as [-> ->].
  destruct (count (pl w) =? 0); [apply ret_Ret in H as [? _]; discriminate|].
  apply bind_Ret in H as (u1 & w1 & H1 & H).
  assert (Hw1 : keys w1 = keys w /\ segs w1 = segs w /\ Segments (pl w1) = Segments (pl w)
                /\ last (pl w1) = last (pl w) /\ Key (pl w1) = Key (pl w)).
  { destruct (_ || _).
    - apply modp_Ret in H1 as ->. simpl. now destruct (pl w).
    - apply ret_Ret in H1 as [_ ->]. auto. }
  destruct Hw1 as (Hk & Hs & Hsg & Hl & Hkey).
  apply bind_Ret in H as (x & w2 & H2 & H). apply current_Ret in H2 as [Hx ->].
  apply bind_Ret in H as (k & w3 & H3 & H). apply new_key_Ret in H3 as [-> ->].
  apply bind_Ret in H as (u4 & w4 & H4 & H).
  apply update_Ret in H4 as (a & s & -> & Hsa & ->). apply ret_Ret in H as [_ ->].
  simpl in *. exists a, s. rewrite <- Hs, <- Hk, <- Hsg, <- Hl, <- Hkey. auto 10.
Qed.

(** C8. The encoder writes a key tag for a segment exactly when the
    segment's [Key] pointer is not nil and is not the pointer held in the
    playlist's [Key]: the test compares the two pointers and never the keys
    they point to. When the test holds, the tag of the key pointed to is
    written, right after the cue of the segment; when it fails, nothing is.
    A key given by [SetKey] is a new object, so its tag is written whatever
    the default key holds, the same contents included. *)
Theorem key_tag_by_identity {env : Env} (w : World) (seg : MediaSegment.t) :
  (key_changed (pl w) seg = true <->
     MediaSegment.Key seg <> None /\ Key (pl w) <> MediaSegment.Key seg) /\
  (key_changed (pl w) seg = false -> encode_segment_key w seg = Ret "") /\
  (forall k, key_changed (pl w) seg = true ->
     deref (keys w) (MediaSegment.Key seg) = Ret k ->
     encode_segment_key w seg = Ret (encode_key k) /\
     String.prefix "#EXT-X-KEY:" (encode_key k) = true) /\
  (forall c out c', encode_segment w seg c = Ret (out, c') ->
     exists key rest,
       encode_segment_key w seg = Ret key /\
       out = encode_scte (MediaSegment.SCTE seg) +:+ key +:+ rest) /\
  (forall m u iv kf kfv w',
     (forall a, Key (pl w) = Some a -> (a < length (keys w))%nat) ->
     SetKey m u iv kf kfv w = Ret (None, w') ->
     exists s, segment_at w' (last (pl w')) = Some s /\
               encode_segment_key w' s = Ret (encode_key (Key.mk m u iv kf kfv))).
Proof.
  split; [apply key_changed_spec|].
  split; [unfold encode_segment_key; now intros ->|].
  split.
  { intros k Hc Hd. unfold encode_segment_key. rewrite Hc, Hd. split; reflexivity. }
  split.
  { intros c out c' H. unfold encode_segment in H.
    apply res_bind_Ret in H as (key & Hk & H).
    apply res_bind_Ret in H as (drs & Hd & H).
    destruct (encode_extinf (pl w) seg c) as [extinf c1].
    injection H as <- _. exists key. eexists. split; [exact Hk|].
    unfold cat. cbn [String.concat]. rewrite ?append_assoc. reflexivity. }
  intros m u iv kf kfv w' Hvalid H.
  apply SetKey_Ret in H as (a & s & Hi & Hs & Hsegs & Hkeys & Hsg & Hl & Hkey).
  exists (MediaSegment.set_Key (Some (length (keys w))) s). split.
  - unfold segment_at. rewrite Hl, Hsg, Hi, Hsegs.
    apply list_lookup_insert_eq. eapply lookup_lt_Some, Hs.
  - unfold encode_segment_key, key_changed. rewrite Hkey, Hkeys.
    destruct s; simpl.
    rewrite bool_decide_eq_false_2.
    + simpl. rewrite lookup_app_r, Nat.sub_diag by lia. reflexivity.
    + intros Heq. apply Hvalid in Heq. lia.
Qed.

(** [SetKey] with the contents of the default key: the segment's tag is
    written all the same, and the output carries the tag twice; with the
    default key's own pointer in the segment it carries it once. *)
Lemma key_tag_by_identity_witness :
  (exists w' s,
     SetKey "AES-128" "https://k" "" "" "" world_keyed = Ret (None, w') /\
     segment_at w' (last (pl w')) = Some s /\
     deref (keys w') (Key (pl w')) = Ret (Key.mk "AES-128" "https://k" "" "" "") /\
     encode_segment_key w' s = Ret (encode_key (Key.mk "AES-128" "https://k" "" "" ""))) /\
  (exists out, output (@equal_keys GoEnv.go empty_world) = Some out /\
               occurrences "#EXT-X-KEY:" out = 2%nat) /\
  (exists out, output (@shared_key GoEnv.go empty_world) = Some out /\
               occurrences "#EXT-X-KEY:" out = 1%nat).
Proof.
  split; [|split].
  - destruct (@key_tag_by_identity GoEnv.go world_keyed MediaSegment.zero)
      as (_ & _ & _ & _ & H).
    assert (Hrun : exists w', SetKey "AES-128" "https://k" "" "" "" world_keyed
                              = Ret (None, w')) by (eexists; vm_compute; reflexivity).
    destruct Hrun as [w' Hrun].
    destruct (H "AES-128" "https://k" "" "" "" w') as (s & Hs & He).
    + intros a Ha. vm_compute in Ha. injection Ha as <-. vm_compute. lia.
    + exact Hrun.
    + exists w', s. split; [exact Hrun|]. split; [exact Hs|]. split; [|exact He].
      vm_compute in Hrun. injection Hrun as <-. vm_compute. reflexivity.
  - eexists. split; vm_compute; reflexivity.
  - eexists. split; vm_compute; reflexivity.
Defined.

(** ** Replacing the segments *)

Lemma encode_header_total {env : Env} (w : World) :
  valid_key w -> exists hdr, encode_header w = Ret hdr.
Proof.
  unfold valid_key, encode_header. destruct (Key (pl w)) as [a|]; simpl.
  - intros [k ->]. simpl. eauto.
  - eauto.
Qed.

Lemma index_out_of_range {A} (s : slice A) (i : Z) :
  len s <= i -> index s i = Panic IndexOutOfRange.
Proof.
  intros H. unfold index. destruct (i <? len s) eqn:E.
  - apply Z.ltb_lt in E. lia.
  - now rewrite andb_false_r.
Qed.

Lemma index_in_range {A} (s : slice A) (i : Z) (x : A) :
  0 <= i -> elems s !! Z.to_nat i = Some x -> index s i = Ret x.
Proof.
  intros Hi Hx. unfold index, len.
  apply lookup_lt_Some in Hx as Hlt.
  destruct (0 <=? i) eqn:E1; [|apply Z.leb_gt in E1; lia].
  destruct (i <? Z.of_nat (length (elems s))) eqn:E2; [|apply Z.ltb_ge in E2; lia].
  simpl. now rewrite Hx.
Qed.

Lemma encode_segments_S {env : Env} (w : World) (n : nat) (h i : Z) (c : durationCache) :
  encode_segments w (S n) h i c =
  if (i <? winsize (pl w)) || (winsize (pl w) =? 0) then
    let+ seg := index (Segments (pl w)) h in
    let+ next := umod (wrap64 (h + 1)) (capacity (pl w)) in
    match seg with
    | None => encode_segments w n next i c
    | Some _ =>
        let+ s := deref (segs w) seg in
        let i' := if 0 <? winsize (pl w) then wrap64 (i + 1) else i in
        let+ out := encode_segment w s c in
        let+ rest := encode_segments w n next i' (snd out) in
        Ret (fst out +:+ rest)
    end
  else Ret "".
Proof. reflexivity. Qed.

Lemma Encode_fresh {env : Env} (w : World) :
  buf (pl w) = "" ->
  Encode w =
  match encode_media w with
  | Ret out => Ret (out, mkWorld (segs w) (keys w) (set_buf out (pl w)))
  | Panic e => Panic e
  end.
Proof. intros H. unfold Encode. step. rewrite H. reflexivity. Qed.

(** C10. [SetMediaSegments] makes [count], [tail] and [capacity] the
    length of the new list, installs the list, and leaves [head] where it
    was. With a non-empty list, [Encode] then makes its first access at
    index [head]: when [head] is not below the length of the list that
    access is out of range and [Encode] panics; when it is below, the text
    of the segment found at [head] is what follows the header. *)
Theorem SetMediaSegments_keeps_head {env : Env} (w : World) (list : slice ptr) :
  (exists w', SetMediaSegments list w = Ret (tt, w')) /\
  (forall w',
     SetMediaSegments list w = Ret (tt, w') ->
     head (pl w') = head (pl w) /\
     count (pl w') = len list /\ tail (pl w') = len list /\ capacity (pl w') = len list /\
     Segments (pl w') = list /\
     (0 < len list -> 0 <= winsize (pl w) -> valid_key w ->
        (len list <= head (pl w) -> Encode w' = Panic IndexOutOfRange) /\
        (forall a s out c,
           0 <= head (pl w) ->
           elems list !! Z.to_nat (head (pl w)) = Some (Some a) ->
           segs w !! a = Some s ->
           encode_segment w' s [] = Ret (out, c) ->
           forall b w'', Encode w' = Ret (b, w'') ->
           exists hdr rest, encode_header w' = Ret hdr /\ b = hdr +:+ out +:+ rest))).
Proof.
  split; [eexists; apply SetMediaSegments_Ret|].
  intros w' Hrun. rewrite SetMediaSegments_Ret in Hrun. injection Hrun as Hw'.
  assert (Hf : head (pl w') = head (pl w) /\ count (pl w') = len list /\
               tail (pl w') = len list /\ capacity (pl w') = len list /\
               Segments (pl w') = list /\ buf (pl w') = "" /\
               winsize (pl w') = winsize (pl w) /\ Key (pl w') = Key (pl w) /\
               segs w' = segs w /\ keys w' = keys w).
  { subst w'. simpl. destruct (pl w). simpl. auto 12. }
  clear Hw'.
  destruct Hf as (Hh & Hc & Ht & Hcap & Hs & Hb & Hw & Hk & Hsg & Hks).
  repeat (split; [assumption|]).
  intros Hlen Hwin Hvalid.
  assert (Hhdr : exists hdr, encode_header w' = Ret hdr).
  { apply encode_header_total. unfold valid_key. now rewrite Hk, Hks. }
  destruct Hhdr as [hdr Hhdr].
  assert (Hn : exists n, Z.to_nat (count (pl w')) = S n).
  { exists (Z.to_nat (len list - 1)). rewrite Hc. lia. }
  destruct Hn as [n Hn].
  assert (Hcond : ((0 <? winsize (pl w')) || (winsize (pl w') =? 0)) = true).
  { rewrite Hw. destruct (Z.eq_dec (winsize (pl w)) 0) as [->|]; [reflexivity|].
    apply orb_true_iff. left. apply Z.ltb_lt. lia. }
  split.
  - intros Hge. rewrite (Encode_fresh _ Hb).
    unfold encode_media. rewrite Hhdr. cbn [res_bind]. rewrite Hn, encode_segments_S.
    rewrite Hcond, Hh, Hs. rewrite index_out_of_range by lia. reflexivity.
  - intros a s out c Hh0 Ha Hsa Hout b w'' HE.
    exists hdr. rewrite (Encode_fresh _ Hb) in HE.
    unfold encode_media in HE. rewrite Hhdr in HE. cbn [res_bind] in HE.
    rewrite Hn, encode_segments_S in HE. rewrite Hcond, Hh, Hs in HE.
    rewrite (@index_in_range ptr list _ _ Hh0 Ha) in HE. cbn [res_bind] in HE.
    destruct (umod _ _) as [next|]; [cbn [res_bind] in HE|discriminate].
    unfold deref in HE. rewrite Hsg, Hsa in HE. cbn [res_bind] in HE.
    rewrite Hout in HE. cbn [res_bind fst snd] in HE.
    destruct (encode_segments _ _ _ _ _) as [rest|]; [cbn [res_bind] in HE|discriminate].
    injection HE as <- _. eexists. split; [exact Hhdr|].
    unfold cat. cbn [String.concat]. rewrite ?append_assoc. reflexivity.
Qed.

(** After two calls of [Remove] the head is at slot 2. A list of one
    segment put in place then makes [Encode] panic; a list of three makes
    it start at the third. *)
Lemma SetMediaSegments_keeps_head_witness :
  head (pl world_removed2) = 2 /\
  (exists w', SetMediaSegments (mkSlice [Some 0%nat] []) world_removed2 = Ret (tt, w') /\
              @Encode GoEnv.go w' = Panic IndexOutOfRange) /\
  (exists w' b w'',
     SetMediaSegments (mkSlice [Some 0%nat; Some 1%nat; Some 2%nat] []) world_removed2
     = Ret (tt, w') /\
     @Encode GoEnv.go w' = Ret (b, w'') /\
     exists hdr rest,
       @encode_header GoEnv.go w' = Ret hdr /\
       b = hdr +:+ ("#EXTINF:5.000," +:+ nl +:+ "C.ts" +:+ nl) +:+ rest).
Proof.
  split; [vm_compute; reflexivity|]. split.
  - eexists. split; [vm_compute; reflexivity|].
    lazymatch goal with |- Encode ?w' = _ =>
      destruct (@SetMediaSegments_keeps_head GoEnv.go world_removed2
                  (mkSlice [Some 0%nat] [])) as [_ H];
      assert (Hrun : SetMediaSegments (mkSlice [Some 0%nat] []) world_removed2
                     = Ret (tt, w')) by (vm_compute; reflexivity);
      destruct (H w' Hrun) as (_ & _ & _ & _ & _ & H') end.
    apply H'; [vm_compute; reflexivity | vm_compute; discriminate | vm_compute; exact I
              | vm_compute; discriminate].
  - eexists _, _, _. split; [vm_compute; reflexivity|].
    split; [vm_compute; reflexivity|].
    lazymatch goal with |- exists hdr rest, encode_header ?w' = _ /\ _ =>
      destruct (@SetMediaSegments_keeps_head GoEnv.go world_removed2
                  (mkSlice [Some 0%nat; Some 1%nat; Some 2%nat] [])) as [_ H];
      assert (Hrun : SetMediaSegments (mkSlice [Some 0%nat; Some 1%nat; Some 2%nat] [])
                       world_removed2 = Ret (tt, w')) by (vm_compute; reflexivity);
      destruct (H w' Hrun) as (_ & _ & _ & _ & _ & H') end.
    destruct H' as [_ H'];
      [vm_compute; reflexivity | vm_compute; discriminate | vm_compute; exact I |].
    eapply (H' 2%nat);
      [vm_compute; discriminate | vm_compute; reflexivity | vm_compute; reflexivity
      | vm_compute; reflexivity | vm_compute; reflexivity].
Defined.

(** ** What an append does *)

Lemma load_Ret x (w w' : World) s :
  load x w = Ret (s, w') -> deref (segs w) x = Ret s /\ w' = w.
Proof. unfold load. apply lift_Ret. Qed.

Lemma deref_Ret {A} (store : list A) x v :
  deref store x = Ret v -> exists a, x = Some a /\ store !! a = Some v.
Proof.
  unfold deref. destruct x as [a|]; [|discriminate].
  destruct (store !! a) eqn:E; [|discriminate]. intros H. injection H as <-. eauto.
Qed.

Lemma umod_Ret a b r : umod a b = Ret r -> b <> 0 /\ r = a mod b.
Proof.
  unfold umod. destruct (b =? 0) eqn:E; [discriminate|].
  apply Z.eqb_neq in E. intros H. injection H as <-. auto.
Qed.

Lemma set_SeqId_twice u v s :
  MediaSegment.set_SeqId u (MediaSegment.set_SeqId v s) = MediaSegment.set_SeqId u s.
Proof. now destruct s. Qed.

Lemma Duration_set_SeqId v s :
  MediaSegment.Duration (MediaSegment.set_SeqId v s) = MediaSegment.Duration s.
Proof. now destruct s. Qed.

Lemma SeqId_set_SeqId v s : MediaSegment.SeqId (MediaSegment.set_SeqId v s) = v.
Proof. now destruct s. Qed.

Lemma AppendSegment_Ret seg (w w' : World) :
  AppendSegment seg w = Ret (None, w') ->
  exists a s id segments,
    seg = Some a /\ segs w !! a = Some s /\
    ((head (pl w) =? tail (pl w)) && (0 <? count (pl w))) = false /\
    next_SeqId w a s = Ret id /\
    assign (Segments (pl w)) (tail (pl w)) seg = Ret segments /\
    capacity (pl w) <> 0 /\
    w' = mkWorld (<[a := MediaSegment.set_SeqId id s]> (segs w)) (keys w)
           (appended (pl w) segments (MediaSegment.Duration s)).
Proof.
  unfold AppendSegment. intros H.
  apply bind_Ret in H as (p & w0 & Hg & H). apply getp_Ret in Hg as [-> ->].
  destruct ((head (pl w) =? tail (pl w)) && (0 <? count (pl w))) eqn:Hfull;
    [apply ret_Ret in H as [? _]; discriminate|].
  apply bind_Ret in H as (u1 & w1 & H1 & H).
  apply update_Ret in H1 as (a & s & -> & Hs & ->).
  apply bind_Ret in H as (u2 & w2 & H2 & H).
  assert (Hw2 : exists id, next_SeqId w a s = Ret id /\
            w2 = mkWorld (<[a := MediaSegment.set_SeqId id s]> (segs w)) (keys w) (pl w)).
  { unfold next_SeqId. destruct (0 <? count (pl w)).
    - apply bind_Ret in H2 as (i & w3 & Hi & H2). apply lift_Ret in Hi as [Hi ->].
      apply bind_Ret in H2 as (prev & w3 & Hp & H2). apply lift_Ret in Hp as [Hp ->].
      apply bind_Ret in H2 as (sp & w3 & H3 & H2). apply load_Ret in H3 as [H3 ->].
      simpl in H3. rewrite Hi. cbn [res_bind]. rewrite Hp. cbn [res_bind].
      rewrite H3. cbn [res_bind].
      apply update_Ret in H2 as (a' & s' & Ha & Hs' & ->). injection Ha as <-.
      simpl in Hs'. rewrite list_lookup_insert_eq in Hs' by (eapply lookup_lt_Some, Hs).
      injection Hs' as <-. simpl. rewrite list_insert_insert_eq, set_SeqId_twice.
      eauto.
    - apply ret_Ret in H2 as [_ ->]. eauto. }
  destruct Hw2 as (id & Hid & ->).
  apply bind_Ret in H as (segments & w3 & H3 & H). apply lift_Ret in H3 as [Hassign ->].
  apply bind_Ret in H as (u4 & w4 & H4 & H). apply modp_Ret in H4 as ->.
  apply bind_Ret in H as (t & w5 & H5 & H). apply lift_Ret in H5 as [Ht ->].
  apply umod_Ret in Ht as [Hcap ->].
  apply bind_Ret in H as (u6 & w6 & H6 & H). apply modp_Ret in H6 as ->.
  apply bind_Ret in H as (u7 & w7 & H7 & H). apply modp_Ret in H7 as ->.
  apply bind_Ret in H as (s8 & w8 & H8 & H). apply load_Ret in H8 as [H8 ->].
  simpl in H8. rewrite list_lookup_insert_eq in H8 by (eapply lookup_lt_Some, Hs).
  injection H8 as <-.
  apply bind_Ret in H as (u9 & w9 & H9 & H). apply modp_Ret in H9 as ->.
  apply bind_Ret in H as (u10 & w10 & H10 & H). apply modp_Ret in H10 as ->.
  apply ret_Ret in H as [_ ->].
  exists a, s, id, segments. repeat (split; [assumption || reflexivity|]).
  simpl. rewrite Duration_set_SeqId. unfold appended. destruct (pl w). simpl.
  reflexivity.
Qed.

(** ** The target duration *)

Lemma float_lt_true a b : float_lt a b = true -> (a < b)%Q.
Proof.
  unfold float_lt. rewrite negb_true_iff. intros H.
  apply Qnot_le_lt. intros Hle. apply Qle_bool_iff in Hle. congruence.
Qed.

Lemma float_lt_false a b : float_lt a b = false -> (b <= a)%Q.
Proof. unfold float_lt. rewrite negb_false_iff. apply Qle_bool_iff. Qed.

Lemma whole_Ceil d : whole (math_Ceil d).
Proof. unfold whole, math_Ceil. now rewrite Qfloor_Z. Qed.

Lemma Ceil_le_whole d t : whole t -> (d <= t)%Q -> (math_Ceil d <= t)%Q.
Proof.
  unfold whole, math_Ceil. intros Hw Hle. rewrite <- Hw.
  rewrite <- Zle_Qle. apply Qceiling_resp_le in Hle.
  rewrite <- Hw in Hle at 1. rewrite Qceiling_Z in Hle. exact Hle.
Qed.

Lemma TargetDuration_appended p segments d :
  TargetDuration (appended p segments d) =
  if float_lt (TargetDuration p) d then math_Ceil d else TargetDuration p.
Proof. unfold appended. destruct p; simpl. now destruct (float_lt _ _). Qed.

Lemma grown_le t d : (t <= (if float_lt t d then math_Ceil d else t))%Q.
Proof.
  destruct (float_lt t d) eqn:E; [|apply Qle_refl].
  apply float_lt_true in E. apply Qlt_le_weak.
  eapply Qlt_le_trans; [exact E|]. apply Qle_ceiling.
Qed.

Lemma grown_max t d :
  whole t -> ((if float_lt t d then math_Ceil d else t) == Qmax t (math_Ceil d))%Q.
Proof.
  intros Hw. destruct (float_lt t d) eqn:E.
  - symmetry. apply Q.max_r. pose proof (grown_le t d) as H. now rewrite E in H.
  - symmetry. apply Q.max_l. apply Ceil_le_whole; [exact Hw|]. now apply float_lt_false.
Qed.

Lemma grown_whole t d : whole t -> whole (if float_lt t d then math_Ceil d else t).
Proof. intros Hw. destruct (float_lt t d); [apply whole_Ceil | exact Hw]. Qed.

Lemma AppendSegment_TargetDuration seg (w w' : World) :
  AppendSegment seg w = Ret (None, w') ->
  exists s, deref (segs w) seg = Ret s /\
    TargetDuration (pl w') =
    if float_lt (TargetDuration (pl w)) (MediaSegment.Duration s)
    then math_Ceil (MediaSegment.Duration s) else TargetDuration (pl w).
Proof.
  intros H. apply AppendSegment_Ret in H
    as (a & s & id & segments & -> & Hs & _ & _ & _ & _ & ->).
  exists s. split; [simpl; now rewrite Hs|]. simpl. apply TargetDuration_appended.
Qed.

Lemma AppendSegment_TD P seg (w w' : World) r :
  TD_stable P -> AppendSegment seg w = Ret (r, w') ->
  P (TargetDuration (pl w)) (TargetDuration (pl w')).
Proof.
  intros (Hrefl & Hgrow & _) H. destruct r as [e|].
  - apply AppendSegment_atomic in H as ->. apply Hrefl.
  - apply AppendSegment_TargetDuration in H as (s & _ & ->). apply Hgrow.
Qed.

Lemma Append_TD P uri d t (w w' : World) r :
  TD_stable P -> Append uri d t w = Ret (r, w') ->
  P (TargetDuration (pl w)) (TargetDuration (pl w')).
Proof.
  intros HP H. unfold Append in H.
  apply bind_Ret in H as (seg & w1 & H1 & H). apply keeps_pl_new_segment in H1.
  apply bind_Ret in H as (u2 & w2 & H2 & H). apply keeps_pl_update in H2.
  apply bind_Ret in H as (u3 & w3 & H3 & H). apply keeps_pl_update in H3.
  apply bind_Ret in H as (u4 & w4 & H4 & H). apply keeps_pl_update in H4.
  apply (AppendSegment_TD P) in H; [|exact HP].
  now rewrite H4, H3, H2, H1 in H.
Qed.

Lemma Remove_TD P (w w' : World) r :
  TD_stable P -> Remove w = Ret (r, w') ->
  P (TargetDuration (pl w)) (TargetDuration (pl w')).
Proof.
  intros (Hrefl & _) H. destruct r as [e|].
  - apply Remove_atomic in H as ->. apply Hrefl.
  - destruct w as [sg ks p]. destruct p. unfold Remove in H. step. revert H.
    case_zero. intros H. injection H as <-.
    match goal with |- context [negb ?c] => destruct c end; simpl; apply Hrefl.
Qed.

Lemma Slide_TD P uri d t (w w' : World) u :
  TD_stable P -> Slide uri d t w = Ret (u, w') ->
  P (TargetDuration (pl w)) (TargetDuration (pl w')).
Proof.
  intros HP H. unfold Slide in H.
  apply bind_Ret in H as (p & w0 & Hg & H). apply getp_Ret in Hg as [-> ->].
  apply bind_Ret in H as (u1 & w1 & H1 & H).
  apply bind_Ret in H as (r & w2 & H2 & H). apply ret_Ret in H as [_ ->].
  apply (Append_TD P) in H2; [|exact HP].
  destruct HP as (Hrefl & Hgrow & Htrans).
  eapply Htrans; [|exact H2].
  destruct (negb (Closed (pl w)) && (winsize (pl w) <=? count (pl w))).
  - apply bind_Ret in H1 as (r1 & w3 & H1 & H3). apply ret_Ret in H3 as [_ ->].
    eapply Remove_TD; [repeat split; eauto | exact H1].
  - apply ret_Ret in H1 as [_ ->]. apply Hrefl.
Qed.

Lemma run_ops_TD P ops : 
  TD_stable P -> forall (w w' : World) u, run_ops ops w = Ret (u, w') ->
  P (TargetDuration (pl w)) (TargetDuration (pl w')).
Proof.
  intros HP. induction ops as [|o ops IH]; intros w w' u H.
  - apply ret_Ret in H as [_ ->]. apply HP.
  - simpl in H. apply bind_Ret in H as (u1 & w1 & H1 & H).
    apply IH in H. destruct HP as (Hrefl & Hgrow & Htrans).
    eapply Htrans; [|exact H].
    destruct o; simpl in H1.
    + apply bind_Ret in H1 as (r & w2 & H1 & H2). apply ret_Ret in H2 as [_ ->].
      eapply Append_TD; [repeat split; eauto | exact H1].
    + apply bind_Ret in H1 as (r & w2 & H1 & H2). apply ret_Ret in H2 as [_ ->].
      eapply AppendSegment_TD; [repeat split; eauto | exact H1].
    + apply bind_Ret in H1 as (r & w2 & H1 & H2). apply ret_Ret in H2 as [_ ->].
      eapply Remove_TD; [repeat split; eauto | exact H1].
    + eapply Slide_TD; [repeat split; eauto | exact H1].
Qed.

Lemma TD_stable_le : TD_stable Qle.
Proof.
  repeat split.
  - intros t. apply Qle_refl.
  - apply grown_le.
  - intros a b c. apply Qle_trans.
Qed.

Lemma TD_stable_whole : TD_stable (fun a b => whole a -> whole b).
Proof.
  repeat split.
  - auto.
  - intros t d. apply grown_whole.
  - auto.
Qed.

Lemma NewMediaPlaylist_Ret {env : Env} n c (w w' : World) :
  NewMediaPlaylist n c w = Ret (None, w') ->
  (c <? n) = false /\
  w' = mkWorld (segs w) (keys w)
         (set_Segments (mkSlice (replicate (Z.to_nat c) None) [])
            (set_winsize n (set_capacity c (set_ver minver MediaPlaylist.zero)))).
Proof.
  unfold NewMediaPlaylist, SetWinSize. step.
  destruct (c <? n); [discriminate|]. unfold bind, lift, make.
  destruct ((0 <=? c) && (c * PtrSize <=? maxAlloc)); [|discriminate].
  intros H. injection H as <-. auto.
Qed.

Lemma Append_unfold uri d t (w : World) :
  Append uri d t w =
  AppendSegment (Some (length (segs w)))
    (mkWorld (segs w ++ [new_MediaSegment uri d t]) (keys w) (pl w)).
Proof.
  unfold Append, bind at 1, new_segment.
  unfold bind at 1, update at 1, bind at 1, load, lift, deref. simpl.
  rewrite lookup_app_r, Nat.sub_diag by lia. simpl. rewrite insert_last.
  unfold bind at 1, update at 1, bind at 1, load, lift, deref. simpl.
  rewrite lookup_app_r, Nat.sub_diag by lia. simpl. rewrite insert_last.
  unfold bind at 1, update at 1, bind at 1, load, lift, deref. simpl.
  rewrite lookup_app_r, Nat.sub_diag by lia. simpl. rewrite insert_last.
  reflexivity.
Qed.

(** C4, as the code has it. An append of a segment of duration [d] to a
    playlist of target duration [t] leaves the target duration at
    [math.Ceil(d)] when [t < d] and at [t] otherwise. That is
    [max(t, ceil(d))] whenever [t] is a whole number, and it is one in
    every playlist made by [NewMediaPlaylist] and changed by appends,
    removals and slides only. Whatever [t] is, no run of appends, removals
    and slides makes the target duration smaller. *)
Theorem TargetDuration_grows {env : Env} :
  (forall seg w w',
     AppendSegment seg w = Ret (None, w') ->
     exists s, deref (segs w) seg = Ret s /\
       let t := TargetDuration (pl w) in
       let d := MediaSegment.Duration s in
       TargetDuration (pl w') = (if float_lt t d then math_Ceil d else t) /\
       (whole t -> (TargetDuration (pl w') == Qmax t (math_Ceil d))%Q)) /\
  (forall uri d title w w',
     Append uri d title w = Ret (None, w') ->
     let t := TargetDuration (pl w) in
     TargetDuration (pl w') = (if float_lt t d then math_Ceil d else t) /\
     (whole t -> (TargetDuration (pl w') == Qmax t (math_Ceil d))%Q)) /\
  (forall n c w0 w ops w' u,
     NewMediaPlaylist n c w0 = Ret (None, w) ->
     run_ops ops w = Ret (u, w') ->
     whole (TargetDuration (pl w'))) /\
  (forall ops w w' u,
     run_ops ops w = Ret (u, w') ->
     (TargetDuration (pl w) <= TargetDuration (pl w'))%Q).
Proof.
  split; [|split; [|split]].
  - intros seg w w' H. apply AppendSegment_TargetDuration in H as (s & Hs & Ht).
    exists s. split; [exact Hs|]. cbv zeta. split; [exact Ht|].
    intros Hw. rewrite Ht. now apply grown_max.
  - intros uri d title w w' H. rewrite Append_unfold in H.
    apply AppendSegment_TargetDuration in H as (s & Hs & Ht).
    simpl in Hs. rewrite lookup_app_r, Nat.sub_diag in Hs by lia.
    injection Hs as <-. simpl in Ht. cbv zeta. split; [exact Ht|].
    intros Hw. rewrite Ht. now apply grown_max.
  - intros n c w0 w ops w' u Hnew Hops.
    apply (run_ops_TD _ ops TD_stable_whole) in Hops. apply Hops.
    apply NewMediaPlaylist_Ret in Hnew as [_ ->]. reflexivity.
  - intros ops w w' u Hops. apply (run_ops_TD _ ops TD_stable_le) in Hops. exact Hops.
Qed.

(** From a new playlist an append of 4.2 s sets the target duration to 5;
    a further run with a longer and a shorter segment and two removals does
    not lower it and leaves it whole. *)
Lemma TargetDuration_grows_witness :
  exists w1 w2,
    Append "A.ts" (21 # 5) "" new_2_3 = Ret (None, w1) /\
    TargetDuration (pl w1) = 5%Q /\
    (TargetDuration (pl w1) == Qmax (TargetDuration (pl new_2_3)) (math_Ceil (21 # 5)))%Q /\
    run_ops [OpAppend "B.ts" (6 # 1) ""; OpRemove; OpRemove; OpAppend "C.ts" (1 # 2) ""] w1
    = Ret (tt, w2) /\
    (TargetDuration (pl w1) <= TargetDuration (pl w2))%Q /\
    whole (TargetDuration (pl w2)).
Proof.
  destruct (@TargetDuration_grows GoEnv.go) as (_ & Happ & Hwhole & Hle).
  eexists _, _.
  split; [vm_compute; reflexivity|].
  split; [vm_compute; reflexivity|].
  split.
  { lazymatch goal with |- (TargetDuration (pl ?w1) == _)%Q =>
      apply (Happ "A.ts" (21 # 5) "" new_2_3 w1); vm_compute; reflexivity end. }
  split; [vm_compute; reflexivity|].
  split.
  { lazymatch goal with |- (TargetDuration (pl ?w1) <= TargetDuration (pl ?w2))%Q =>
      apply (Hle [OpAppend "B.ts" (6 # 1) ""; OpRemove; OpRemove; OpAppend "C.ts" (1 # 2) ""]
               w1 w2 tt); vm_compute; reflexivity end. }
  lazymatch goal with |- whole (TargetDuration (pl ?w2)) =>
    apply (Hwhole 2 3 empty_world new_2_3
             [OpAppend "A.ts" (21 # 5) ""; OpAppend "B.ts" (6 # 1) ""; OpRemove; OpRemove;
              OpAppend "C.ts" (1 # 2) ""] w2 tt); vm_compute; reflexivity end.
Defined.

(** C4 does not hold for a target duration that is not whole: at 4.5, an
    append of 4.2 s leaves it at 4.5, while [max(4.5, ceil(4.2))] is 5. *)
Lemma fractional_target_stays :
  exists w',
    Append "A.ts" (21 # 5) "" world_fractional = Ret (None, w') /\
    TargetDuration (pl world_fractional) = (9 # 2)%Q /\
    TargetDuration (pl w') = (9 # 2)%Q /\
    Qmax (9 # 2) (math_Ceil (21 # 5)) = 5%Q /\
    ~ (TargetDuration (pl w') == Qmax (9 # 2) (math_Ceil (21 # 5)))%Q.
Proof.
  eexists. split; [vm_compute; reflexivity|].
  split; [vm_compute; reflexivity|].
  split; [vm_compute; reflexivity|].
  split; [vm_compute; reflexivity|].
  vm_compute. discriminate.
Defined.

(** ** Appends in a row *)

Lemma bind_eq {A B} (m : M A) (k : A -> M B) (w w1 : World) (a : A) :
  m w = Ret (a, w1) -> bind m k w = k a w1.
Proof. unfold bind. now intros ->. Qed.

Lemma update_eq a f s (w : World) :
  segs w !! a = Some s ->
  update (Some a) f w = Ret (tt, mkWorld (<[a := f s]> (segs w)) (keys w) (pl w)).
Proof. intros H. unfold update, bind, load, lift, deref. now rewrite H. Qed.

Lemma load_eq a s (w : World) :
  segs w !! a = Some s -> load (Some a) w = Ret (s, w).
Proof. intros H. unfold load, lift, deref. now rewrite H. Qed.

Lemma lift_eq {A} (r : res A) (a : A) (w : World) : r = Ret a -> lift r w = Ret (a, w).
Proof. now intros ->. Qed.

Lemma AppendSegment_full seg (w : World) :
  head (pl w) = tail (pl w) -> 0 < count (pl w) ->
  AppendSegment seg w = Ret (Some ErrPlaylistFull, w).
Proof.
  intros Hh Hc. unfold AppendSegment, bind at 1, getp.
  apply Z.eqb_eq in Hh. apply Z.ltb_lt in Hc. rewrite Hh, Hc. reflexivity.
Qed.

Lemma AppendSegment_ok a s id segments (w : World) :
  segs w !! a = Some s ->
  ((head (pl w) =? tail (pl w)) && (0 <? count (pl w))) = false ->
  next_SeqId w a s = Ret id ->
  assign (Segments (pl w)) (tail (pl w)) (Some a) = Ret segments ->
  capacity (pl w) <> 0 ->
  AppendSegment (Some a) w =
  Ret (None, mkWorld (<[a := MediaSegment.set_SeqId id s]> (segs w)) (keys w)
               (appended (pl w) segments (MediaSegment.Duration s))).
Proof.
  intros Hs Hfull Hid Hassign Hcap.
  assert (Hlt : (a < length (segs w))%nat) by (eapply lookup_lt_Some, Hs).
  unfold AppendSegment. unfold bind at 1, getp. rewrite Hfull.
  rewrite (bind_eq _ _ _ _ _ (update_eq a _ s w Hs)).
  set (w1 := mkWorld _ _ _).
  assert (H2 : (if 0 <? count (pl w)
           then
            let* i := lift (umod (wrap64 (capacity (pl w) + tail (pl w) - 1)) (capacity (pl w))) in
            let* prev := lift (index (Segments (pl w)) i) in
            let* s0 := load prev in
            update (Some a) (MediaSegment.set_SeqId (wrap64 (MediaSegment.SeqId s0 + 1)))
           else ret ()) w1 =
          Ret (tt, mkWorld (<[a := MediaSegment.set_SeqId id s]> (segs w)) (keys w) (pl w))).
  { unfold next_SeqId in Hid. destruct (0 <? count (pl w)).
    - apply res_bind_Ret in Hid as (i & Hi & Hid).
      apply res_bind_Ret in Hid as (prev & Hp & Hid).
      apply res_bind_Ret in Hid as (sp & Hsp & Hid). injection Hid as <-.
      rewrite (bind_eq _ _ _ _ _ (lift_eq _ _ _ Hi)).
      rewrite (bind_eq _ _ _ _ _ (lift_eq _ _ _ Hp)).
      apply deref_Ret in Hsp as (b & -> & Hb).
      rewrite (bind_eq _ _ w1 w1 sp) by (apply load_eq; exact Hb).
      rewrite (update_eq a _ (MediaSegment.set_SeqId (SeqNo (pl w)) s))
        by (subst w1; simpl; now apply list_lookup_insert_eq).
      subst w1. simpl. now rewrite list_insert_insert_eq, set_SeqId_twice.
    - injection Hid as <-. reflexivity. }
  rewrite (bind_eq _ _ _ _ _ H2). clear H2 w1.
  rewrite (bind_eq _ _ _ _ _ (lift_eq _ _ _ Hassign)).
  unfold bind at 1, modp at 1. simpl.
  unfold bind at 1, lift at 1, umod. apply Z.eqb_neq in Hcap. rewrite Hcap.
  unfold bind at 1, modp at 1. simpl.
  unfold bind at 1, modp at 1. simpl.
  match goal with |- bind (load (Some a)) _ ?W = _ =>
    rewrite (bind_eq _ _ W W (MediaSegment.set_SeqId id s))
      by (apply load_eq; simpl; now apply list_lookup_insert_eq) end.
  unfold bind at 1, modp at 1. simpl.
  unfold bind at 1, modp at 1. simpl.
  unfold ret. rewrite Duration_set_SeqId. unfold appended. destruct (pl w). reflexivity.
Qed.

Lemma mod_slots_differ h i k C :
  0 < C -> 0 <= i < k -> k < C -> (h + i) mod C <> (h + k) mod C.
Proof.
  intros HC Hi Hk Heq.
  assert (H : ((h + k) - (h + i)) mod C = 0).
  { rewrite Zminus_mod, Heq, Z.sub_diag. apply Z.mod_0_l. lia. }
  replace (h + k - (h + i)) with (k - i) in H by lia.
  rewrite Z.mod_small in H by lia. lia.
Qed.

Lemma mod_prev_slot x C : 0 < C -> (C + x mod C - 1) mod C = (x - 1) mod C.
Proof.
  intros HC. replace (C + x mod C - 1) with ((x mod C - 1) + 1 * C) by lia.
  rewrite Z.mod_add by lia. apply Zminus_mod_idemp_l.
Qed.

Lemma mod_next_slot x C : (x mod C + 1) mod C = (x + 1) mod C.
Proof. apply Zplus_mod_idemp_l. Qed.

Lemma mod_range x C : 0 < C -> 0 <= x mod C < C.
Proof. intros. apply Z.mod_pos_bound. lia. Qed.

Lemma wrap64_succ_wrap z : wrap64 (wrap64 z + 1) = wrap64 (z + 1).
Proof. apply wrap64_idem_add. Qed.

Lemma appended_fields p segments d :
  capacity (appended p segments d) = capacity p /\
  head (appended p segments d) = head p /\
  SeqNo (appended p segments d) = SeqNo p /\
  count (appended p segments d) = wrap64 (count p + 1) /\
  tail (appended p segments d) = wrap64 (tail p + 1) mod capacity p /\
  Segments (appended p segments d) = segments /\
  winsize (appended p segments d) = winsize p /\
  Closed (appended p segments d) = Closed p /\
  buf (appended p segments d) = "".
Proof. unfold appended. destruct p; simpl. destruct (float_lt _ _); simpl; auto 10. Qed.

Lemma filled_step h s C k uri d t (w : World) :
  0 < C < 2 ^ 63 -> 0 <= h < C -> uint64_range s -> 0 <= k < C ->
  filled h s C k w ->
  exists w', Append uri d t w = Ret (None, w') /\ filled h s C (k + 1) w'.
Proof.
  intros HC Hh Hs Hk [Hcap Hhead Hseq Hcount Htail Hlen Hids].
  rewrite Append_unfold.
  set (a := length (segs w)). set (sn := new_MediaSegment uri d t).
  set (w1 := mkWorld _ _ _).
  assert (Hsa : segs w1 !! a = Some sn).
  { subst w1 a. simpl. now rewrite lookup_app_r, Nat.sub_diag by lia. }
  assert (Htr : 0 <= tail (pl w) < C) by (rewrite Htail; now apply mod_range).
  assert (Hfull : ((head (pl w1) =? tail (pl w1)) && (0 <? count (pl w1))) = false).
  { subst w1. simpl. destruct (Z.eq_dec k 0) as [->|Hk0].
    - rewrite Hcount. apply andb_false_r.
    - apply andb_false_iff. left. apply Z.eqb_neq. rewrite Hhead, Htail.
      replace h with ((h + 0) mod C) at 1 by (rewrite Z.add_0_r; apply Z.mod_small; lia).
      apply mod_slots_differ; lia. }
  assert (Hid : next_SeqId w1 a sn = Ret (wrap64 (s + k))).
  { unfold next_SeqId. subst w1. simpl. rewrite Hcount, Hcap, Hseq, Htail.
    destruct (0 <? k) eqn:Hk0.
    - apply Z.ltb_lt in Hk0.
      unfold umod. destruct (C =? 0) eqn:HC0; [apply Z.eqb_eq in HC0; lia|].
      cbn [res_bind].
      assert (Hw : wrap64 (C + (h + k) mod C - 1) = C + (h + k) mod C - 1).
      { apply wrap64_small. pose proof (mod_range (h + k) C ltac:(lia)).
        unfold uint64_range. change (2 ^ 64) with (2 * 2 ^ 63). lia. }
      rewrite Hw, mod_prev_slot by lia.
      replace (h + k - 1) with (h + (k - 1)) by lia.
      destruct (Hids (k - 1) ltac:(lia)) as (b & sb & Hslot & Hsb & Hidb).
      rewrite (index_in_range _ _ (Some b)); [|apply mod_range; lia|exact Hslot].
      cbn [res_bind]. unfold deref.
      assert (Hb : (b < length (segs w))%nat) by (eapply lookup_lt_Some, Hsb).
      rewrite list_lookup_insert_ne by (subst a; lia).
      rewrite lookup_app_l by exact Hb. rewrite Hsb. cbn [res_bind].
      rewrite Hidb, wrap64_succ_wrap. f_equal. f_equal. lia.
    - apply Z.ltb_ge in Hk0. replace k with 0 by lia.
      rewrite Z.add_0_r. now rewrite wrap64_small. }
  assert (Hassign : assign (Segments (pl w1)) (tail (pl w1)) (Some a) =
                    Ret (mkSlice (<[Z.to_nat (tail (pl w)) := Some a]> (elems (Segments (pl w))))
                                 (spare (Segments (pl w))))).
  { subst w1. simpl. unfold assign. rewrite Hlen.
    destruct (0 <=? tail (pl w)) eqn:E1; [|apply Z.leb_gt in E1; lia].
    destruct (tail (pl w) <? C) eqn:E2; [|apply Z.ltb_ge in E2; lia]. reflexivity. }
  rewrite (AppendSegment_ok a sn _ _ w1 Hsa Hfull Hid Hassign)
    by (subst w1; simpl; lia).
  eexists. split; [reflexivity|].
  assert (Hlen' : length (elems (Segments (pl w))) = Z.to_nat C).
  { unfold len in Hlen. lia. }
  destruct (appended_fields (pl w1)
              (mkSlice (<[Z.to_nat (tail (pl w)) := Some a]> (elems (Segments (pl w))))
                 (spare (Segments (pl w)))) (MediaSegment.Duration sn))
    as (Ecap & Ehead & Eseq & Ecount & Etail & Esegs & _).
  subst w1 a. simpl in *.
  split; simpl.
  - now rewrite Ecap.
  - now rewrite Ehead.
  - now rewrite Eseq.
  - rewrite Ecount, Hcount. apply wrap64_small. unfold uint64_range. lia.
  - rewrite Etail, Hcap, Htail.
    rewrite wrap64_small by (rewrite <- Htail; unfold uint64_range; lia).
    rewrite mod_next_slot. f_equal. lia.
  - rewrite Esegs. unfold len. simpl. rewrite length_insert. lia.
  - intros i Hi. rewrite Esegs. simpl. rewrite Htail, insert_last.
    destruct (Z.eq_dec i k) as [->|Hne].
    + exists (length (segs w)), (MediaSegment.set_SeqId (wrap64 (s + k)) sn).
      split; [|split].
      * apply list_lookup_insert_eq. pose proof (mod_range (h + k) C ltac:(lia)). lia.
      * now rewrite lookup_app_r, Nat.sub_diag by lia.
      * apply SeqId_set_SeqId.
    + destruct (Hids i ltac:(lia)) as (b & sb & Hslot & Hsb & Hidb).
      exists b, sb. split; [|split]; [| |exact Hidb].
      * rewrite list_lookup_insert_ne; [exact Hslot|].
        intros Heq. apply Z2Nat.inj in Heq; try (apply mod_range; lia).
        symmetry in Heq. revert Heq. apply mod_slots_differ; lia.
      * assert (Hb : (b < length (segs w))%nat) by (eapply lookup_lt_Some, Hsb).
        now rewrite lookup_app_l by exact Hb.
Qed.

Lemma filled_append_all h s C (l : list (string * float64 * string)) :
  0 < C < 2 ^ 63 -> 0 <= h < C -> uint64_range s ->
  forall k (w : World),
    0 <= k -> k + Z.of_nat (length l) <= C ->
    filled h s C k w ->
    exists w', append_all l w = Ret (replicate (length l) None, w') /\
               filled h s C (k + Z.of_nat (length l)) w'.
Proof.
  intros HC Hh Hs. induction l as [|[[uri d] t] l IH]; intros k w Hk Hle Hf.
  - exists w. split; [reflexivity|]. simpl. now rewrite Z.add_0_r.
  - simpl length in *. 
    destruct (filled_step h s C k uri d t w HC Hh Hs ltac:(lia) Hf) as (w1 & Hrun & Hf1).
    destruct (IH (k + 1) w1 ltac:(lia) ltac:(lia) Hf1) as (w' & Hrest & Hf').
    exists w'. split.
    + simpl. rewrite (bind_eq _ _ _ _ _ Hrun), (bind_eq _ _ _ _ _ Hrest). reflexivity.
    + replace (k + Z.of_nat (S (length l))) with (k + 1 + Z.of_nat (length l)) by lia.
      exact Hf'.
Qed.

Lemma filled_segment_at h s C k (w : World) i :
  0 < C -> 0 <= i < k -> filled h s C k w ->
  exists sg, segment_at w ((h + i) mod C) = Some sg /\
             MediaSegment.SeqId sg = wrap64 (s + i).
Proof.
  intros HC Hi Hf. destruct (filled_ids _ _ _ _ _ Hf i Hi) as (a & sg & Hslot & Hsg & Hid).
  exists sg. split; [|exact Hid]. unfold segment_at.
  rewrite (index_in_range _ _ (Some a)); [exact Hsg | apply mod_range; lia | exact Hslot].
Qed.

(** C6. An append on a ring that is full (head = tail with a live segment)
    returns [ErrPlaylistFull] and changes nothing. From an empty ring of
    capacity [C], any [n <= C] appends in a row all succeed; the segment
    appended as number [i] sits in slot [(head + i) mod C] and has
    sequence id [SeqNo + i] in [uint64] arithmetic (the plain sum when the
    ids stay below 2^64): the first gets the base sequence number, each
    later one the id before it plus one. After [C] appends the ring is
    full and the next [AppendSegment] or [Append] returns
    [ErrPlaylistFull]. *)
Theorem appends_number_in_sequence :
  (forall (w : World) seg,
     head (pl w) = tail (pl w) -> 0 < count (pl w) ->
     AppendSegment seg w = Ret (Some ErrPlaylistFull, w)) /\
  (forall (w : World) (l : list (string * float64 * string)),
     let p := pl w in
     let n := Z.of_nat (length l) in
     count p = 0 -> head p = tail p -> 0 <= head p < capacity p ->
     len (Segments p) = capacity p -> capacity p < 2 ^ 63 -> uint64_range (SeqNo p) ->
     n <= capacity p ->
     exists w',
       append_all l w = Ret (replicate (length l) None, w') /\
       count (pl w') = n /\ head (pl w') = head p /\ SeqNo (pl w') = SeqNo p /\
       (forall i, 0 <= i < n ->
          exists sg,
            segment_at w' ((head p + i) mod capacity p) = Some sg /\
            MediaSegment.SeqId sg = wrap64 (SeqNo p + i) /\
            (SeqNo p + n <= 2 ^ 64 -> MediaSegment.SeqId sg = SeqNo p + i)) /\
       (n = capacity p ->
          head (pl w') = tail (pl w') /\
          (forall seg, AppendSegment seg w' = Ret (Some ErrPlaylistFull, w')) /\
          (forall uri d t, exists w'',
             Append uri d t w' = Ret (Some ErrPlaylistFull, w'') /\ pl w'' = pl w'))).
Proof.
  split; [intros w seg; apply AppendSegment_full|].
  intros w l p n Hc Hht Hh Hlen HC Hs Hn. subst p n.
  assert (Hf0 : filled (head (pl w)) (SeqNo (pl w)) (capacity (pl w)) 0 w).
  { split; try reflexivity; try assumption.
    - rewrite Z.add_0_r, Z.mod_small by lia. now symmetry.
    - intros i Hi. lia. }
  assert (HC' : 0 < capacity (pl w) < 2 ^ 63) by lia.
  assert (Hle : 0 + Z.of_nat (length l) <= capacity (pl w)) by lia.
  destruct (filled_append_all _ _ _ l HC' Hh Hs 0 w (Z.le_refl 0) Hle Hf0)
    as (w' & Hrun & Hf).
  rewrite Z.add_0_l in Hf.
  exists w'. split; [exact Hrun|].
  split; [apply (filled_count _ _ _ _ _ Hf)|].
  split; [apply (filled_head _ _ _ _ _ Hf)|].
  split; [apply (filled_SeqNo _ _ _ _ _ Hf)|].
  split.
  - intros i Hi.
    assert (HC0 : 0 < capacity (pl w)) by lia.
    destruct (filled_segment_at _ _ _ _ w' i HC0 Hi Hf) as (sg & Hsg & Hid).
    exists sg. split; [exact Hsg|]. split; [exact Hid|].
    intros Hno. rewrite Hid. apply wrap64_small. unfold uint64_range in *. lia.
  - intros Hfull.
    assert (Hht' : head (pl w') = tail (pl w')).
    { rewrite (filled_head _ _ _ _ _ Hf), (filled_tail _ _ _ _ _ Hf), Hfull.
      replace (head (pl w) + capacity (pl w)) with (head (pl w) + 1 * capacity (pl w)) by lia.
      rewrite Z.mod_add by lia. symmetry. apply Z.mod_small. lia. }
    assert (Hc' : 0 < count (pl w')) by (rewrite (filled_count _ _ _ _ _ Hf); lia).
    split; [exact Hht'|]. split.
    + intros seg. now apply AppendSegment_full.
    + intros uri d t. eexists. rewrite Append_unfold. split.
      * apply AppendSegment_full; simpl; assumption.
      * reflexivity.
Qed.

(** On a ring of capacity 3 emptied with head and base number at 2, three
    appends fill slots 2, 0 and 1 with the ids 2, 3 and 4, and a fourth is
    refused. *)
Lemma appends_number_in_sequence_witness :
  exists w',
    append_all three_more world_drained = Ret ([None; None; None], w') /\
    head (pl world_drained) = 2 /\ SeqNo (pl world_drained) = 2 /\
    slot_ids w' = [Some 3; Some 4; Some 2] /\
    AppendSegment (Some 0%nat) w' = Ret (Some ErrPlaylistFull, w').
Proof.
  destruct appends_number_in_sequence as [_ H].
  pose proof (H world_drained three_more) as H1. cbv zeta in H1.
  assert (E1 : count (pl world_drained) = 0) by (vm_compute; reflexivity).
  assert (E2 : head (pl world_drained) = tail (pl world_drained)) by (vm_compute; reflexivity).
  assert (E3 : 0 <= head (pl world_drained) < capacity (pl world_drained))
    by (vm_compute; split; [discriminate | reflexivity]).
  assert (E4 : len (Segments (pl world_drained)) = capacity (pl world_drained))
    by (vm_compute; reflexivity).
  assert (E5 : capacity (pl world_drained) < 2 ^ 63) by (vm_compute; reflexivity).
  assert (E6 : uint64_range (SeqNo (pl world_drained)))
    by (vm_compute; split; [discriminate | reflexivity]).
  assert (E7 : Z.of_nat (length three_more) <= capacity (pl world_drained))
    by (vm_compute; discriminate).
  destruct (H1 E1 E2 E3 E4 E5 E6 E7) as (w' & Hrun & _ & _ & _ & Hids & Hfull).
  exists w'. split; [exact Hrun|].
  split; [vm_compute; reflexivity|]. split; [vm_compute; reflexivity|].
  split.
  - assert (Hrun' := Hrun). vm_compute in Hrun'. injection Hrun' as <-. vm_compute. reflexivity.
  - apply Hfull. vm_compute. reflexivity.
Defined.

(** ** Inserting segments *)

Lemma copy_short {A} (dst src : list A) :
  (length src <= length dst)%nat -> copy dst src = src ++ drop (length src) dst.
Proof. intros H. unfold copy. now rewrite take_ge by lia. Qed.

Lemma copy_long {A} (dst src : list A) :
  (length dst <= length src)%nat -> copy dst src = take (length dst) src.
Proof. intros H. unfold copy. rewrite (drop_ge dst) by lia. apply app_nil_r. Qed.

Lemma copy_at_eq {A} (s : list A) (off : nat) (src : list A) :
  (off <= length s)%nat ->
  copy_at s (Z.of_nat off) src = Ret (take off s ++ copy (drop off s) src).
Proof.
  intros H. unfold copy_at.
  destruct (0 <=? Z.of_nat off) eqn:E1; [|apply Z.leb_gt in E1; lia].
  destruct (Z.of_nat off <=? Z.of_nat (length s)) eqn:E2; [|apply Z.leb_gt in E2; lia].
  simpl. now rewrite Nat2Z.id.
Qed.

(** The first branch: a new backing array. *)
Lemma grow_placed {A} (z : A) (old new : list A) (i : nat) :
  (i <= length old)%nat ->
  let fresh := replicate (length old + length new) z in
  let c1 := copy fresh (take i old) in
  let c2 := take (i + length new) c1 ++ copy (drop (i + length new) c1) (drop i old) in
  take i c2 ++ copy (drop i c2) new = placed old new i.
Proof.
  intros Hi fresh c1 c2.
  assert (Hti : length (take i old) = i) by (rewrite length_take; lia).
  assert (E1 : c1 = take i old ++ replicate (length old + length new - i) z).
  { subst c1 fresh. rewrite copy_short by (rewrite Hti, length_replicate; lia).
    now rewrite Hti, drop_replicate. }
  assert (E2 : c2 = take i old ++ replicate (length new) z ++ drop i old).
  { subst c2. rewrite E1.
    rewrite take_app_ge, drop_app_ge by (rewrite Hti; lia).
    rewrite Hti, take_replicate, drop_replicate.
    replace (i + length new - i)%nat with (length new) by lia.
    replace (length new `min` (length old + length new - i))%nat with (length new) by lia.
    rewrite <- app_assoc. do 2 f_equal.
    rewrite copy_long by (rewrite length_replicate, length_drop; lia).
    rewrite length_replicate. apply take_ge. rewrite length_drop. lia. }
  rewrite E2. unfold placed.
  rewrite take_app_ge, drop_app_ge by (rewrite Hti; lia).
  rewrite Hti, Nat.sub_diag, take_0, drop_0, app_nil_r. f_equal.
  rewrite copy_short by (rewrite length_app, length_replicate; lia).
  f_equal. rewrite drop_app_ge by (rewrite length_replicate; lia).
  now rewrite length_replicate, Nat.sub_diag, drop_0.
Qed.

(** The second branch: the same backing array, re-sliced. *)
Lemma shift_placed {A} (old rest new : list A) (i : nat) :
  (i <= length old)%nat -> (length new <= length rest)%nat ->
  let e := take (length old + length new) (old ++ rest) in
  let c2 := take (i + length new) e ++ copy (drop (i + length new) e) (drop i e) in
  take i c2 ++ copy (drop i c2) new = placed old new i.
Proof.
  intros Hi Hn e c2.
  assert (E1 : e = old ++ take (length new) rest).
  { subst e. rewrite take_app_ge by lia. do 2 f_equal. lia. }
  assert (Hlen : length e = (length old + length new)%nat).
  { rewrite E1, length_app, length_take. lia. }
  set (pre := take (i + length new) e).
  assert (Hpre : length pre = (i + length new)%nat).
  { subst pre. rewrite length_take. lia. }
  assert (Hpre_i : take i pre = take i old).
  { subst pre. rewrite take_take. replace (i `min` (i + length new))%nat with i by lia.
    rewrite E1. now rewrite take_app_le by lia. }
  assert (E2 : c2 = pre ++ drop i old).
  { subst c2. fold pre. f_equal.
    rewrite copy_long by (rewrite !length_drop; lia).
    rewrite length_drop, Hlen. rewrite E1 at 1.
    rewrite drop_app_le by lia.
    rewrite take_app_le by (rewrite length_drop; lia).
    apply take_ge. rewrite length_drop. lia. }
  rewrite E2. unfold placed.
  rewrite take_app_le by lia. rewrite Hpre_i. f_equal.
  rewrite drop_app_le by lia.
  rewrite copy_short by (rewrite length_app, length_drop, Hpre; lia).
  f_equal. rewrite drop_app_ge by (rewrite length_drop, Hpre; lia).
  rewrite length_drop, Hpre.
  replace (length new - (i + length new - i))%nat with 0%nat by lia.
  apply drop_0.
Qed.

Lemma take_drop_cons {A} (l : list A) (i n : nat) (x : A) (rest : list A) :
  take (S n) (drop i l) = x :: rest ->
  l !! i = Some x /\ take n (drop (S i) l) = rest.
Proof.
  intros H. destruct (drop i l) as [|y l'] eqn:E; [discriminate|].
  simpl in H. injection H as -> <-.
  split.
  - rewrite <- (Nat.add_0_r i), <- lookup_drop, E. reflexivity.
  - replace (S i) with (i + 1)%nat by lia. rewrite <- drop_drop, E. reflexivity.
Qed.

Lemma index_nat {A} (s : slice A) (i : nat) (x : A) :
  elems s !! i = Some x -> index s (Z.of_nat i) = Ret x.
Proof. intros H. apply index_in_range; [lia | now rewrite Nat2Z.id]. Qed.

Lemma renumber_inserted_spec n :
  forall (i : nat) (it idx : Z) (w : World) (ptrs : list nat),
    length ptrs = n ->
    take n (drop i (elems (Segments (pl w)))) = map Some ptrs ->
    Forall (fun a => a < length (segs w))%nat ptrs ->
    NoDup ptrs ->
    exists sg',
      renumber_inserted n (Z.of_nat i) it idx w = Ret (tt, mkWorld sg' (keys w) (pl w)) /\
      length sg' = length (segs w) /\
      (forall j a, ptrs !! j = Some a ->
         sg' !! a = MediaSegment.set_SeqId (wrap64 (idx + (it + Z.of_nat j))) <$> segs w !! a) /\
      (forall a, a ∉ ptrs -> sg' !! a = segs w !! a).
Proof.
  induction n as [|n IH]; intros i it idx w ptrs Hlen Hslots Hvalid Hnd.
  - destruct ptrs; [|discriminate]. exists (segs w). simpl.
    split; [now destruct w|]. split; [reflexivity|]. split; [intros j a H; discriminate|auto].
  - destruct ptrs as [|a ptrs]; [discriminate|]. simpl in Hlen. injection Hlen as Hlen.
    apply take_drop_cons in Hslots as [Ha Hslots].
    apply Forall_cons in Hvalid as [Hav Hvalid]. apply NoDup_cons in Hnd as [Hnotin Hnd].
    destruct (lookup_lt_is_Some_2 (segs w) a Hav) as [s Hs].
    set (w1 := mkWorld (<[a := MediaSegment.set_SeqId (wrap64 (idx + it)) s]> (segs w))
                 (keys w) (pl w)).
    destruct (IH (S i) (it + 1) idx w1 ptrs Hlen Hslots) as (sg' & Hrun & Hl & Hin & Hout).
    { subst w1. simpl. now rewrite length_insert. }
    { exact Hnd. }
    exists sg'. split; [|split; [|split]].
    + cbn [renumber_inserted]. unfold bind at 1, getp.
      rewrite (bind_eq _ _ _ _ _ (lift_eq _ _ _ (index_nat _ _ _ Ha))).
      rewrite (bind_eq _ _ _ _ _ (update_eq a _ s w Hs)). fold w1.
      replace (Z.of_nat i + 1) with (Z.of_nat (S i)) by lia. exact Hrun.
    + rewrite Hl. subst w1. simpl. apply length_insert.
    + intros [|j] b Hb.
      * simpl in Hb. injection Hb as <-. rewrite Hout by exact Hnotin.
        subst w1. simpl. rewrite list_lookup_insert_eq by exact Hav.
        rewrite Hs. simpl. now rewrite Z.add_0_r.
      * simpl in Hb. rewrite (Hin j b Hb). subst w1. simpl.
        rewrite list_lookup_insert_ne.
        -- do 3 f_equal. lia.
        -- intros ->. apply Hnotin. eapply list_elem_of_lookup_2, Hb.
    + intros b Hb. apply not_elem_of_cons in Hb as [Hne Hb].
      rewrite (Hout b Hb). subst w1. simpl. now rewrite list_lookup_insert_ne.
Qed.

Lemma live_cons_Some a l : live (Some a :: l) = a :: live l.
Proof. reflexivity. Qed.

Lemma live_cons_None l : live (None :: l) = live l.
Proof. reflexivity. Qed.

Lemma elem_of_live a l : a ∈ live l <-> Some a ∈ l.
Proof.
  unfold live. rewrite list_elem_of_omap. split.
  - intros (x & Hx & Hid). destruct x; simpl in Hid; [|discriminate].
    now injection Hid as ->.
  - intros H. exists (Some a). auto.
Qed.

Lemma live_app l1 l2 : live (l1 ++ l2) = live l1 ++ live l2.
Proof. unfold live. apply omap_app. Qed.

Lemma live_map_Some l : live (map Some l) = l.
Proof.
  induction l as [|a l IH]; [reflexivity|].
  change (a :: live (map Some l) = a :: l). now f_equal.
Qed.

Lemma renumber_following_spec n :
  forall (i : nat) (adj : Z) (w : World) (slots : list (option nat)),
    length slots = n ->
    take n (drop i (elems (Segments (pl w)))) = slots ->
    Forall (fun a => a < length (segs w))%nat (live slots) ->
    NoDup (live slots) ->
    exists sg',
      renumber_following n (Z.of_nat i) adj w = Ret (tt, mkWorld sg' (keys w) (pl w)) /\
      length sg' = length (segs w) /\
      (forall a, a ∈ live slots ->
         sg' !! a =
         (fun s => MediaSegment.set_SeqId (wrap64 (MediaSegment.SeqId s + adj)) s)
           <$> segs w !! a) /\
      (forall a, a ∉ live slots -> sg' !! a = segs w !! a).
Proof.
  induction n as [|n IH]; intros i adj w slots Hlen Hslots Hvalid Hnd.
  - destruct slots; [|discriminate]. exists (segs w). simpl.
    split; [now destruct w|]. split; [reflexivity|].
    split; [intros a H; now apply elem_of_nil in H|auto].
  - destruct slots as [|x slots]; [discriminate|]. simpl in Hlen. injection Hlen as Hlen.
    apply take_drop_cons in Hslots as [Hx Hslots].
    destruct x as [a|].
    + rewrite live_cons_Some in Hvalid, Hnd.
      apply Forall_cons in Hvalid as [Hav Hvalid]. apply NoDup_cons in Hnd as [Hnotin Hnd].
      destruct (lookup_lt_is_Some_2 (segs w) a Hav) as [s Hs].
      set (w1 := mkWorld (<[a := MediaSegment.set_SeqId
                                    (wrap64 (MediaSegment.SeqId s + adj)) s]> (segs w))
                   (keys w) (pl w)).
      destruct (IH (S i) adj w1 slots Hlen Hslots) as (sg' & Hrun & Hl & Hin & Hout).
      { subst w1. simpl. now rewrite length_insert. }
      { exact Hnd. }
      exists sg'. split; [|split; [|split]].
      * cbn [renumber_following]. unfold bind at 1, getp.
        rewrite (bind_eq _ _ _ _ _ (lift_eq _ _ _ (index_nat _ _ _ Hx))).
        rewrite (bind_eq _ _ w w1 tt).
        -- replace (Z.of_nat i + 1) with (Z.of_nat (S i)) by lia. exact Hrun.
        -- rewrite (bind_eq _ _ w w s) by (now apply load_eq).
           now apply update_eq.
      * rewrite Hl. subst w1. simpl. apply length_insert.
      * intros b Hb. rewrite live_cons_Some in Hb. apply elem_of_cons in Hb as [->|Hb].
        -- rewrite Hout by exact Hnotin. subst w1. simpl.
           rewrite list_lookup_insert_eq by exact Hav. now rewrite Hs.
        -- rewrite (Hin b Hb). subst w1. simpl. rewrite list_lookup_insert_ne; [reflexivity|].
           intros ->. contradiction.
      * intros b Hb. rewrite live_cons_Some in Hb. apply not_elem_of_cons in Hb as [Hne Hb].
        rewrite (Hout b Hb). subst w1. simpl. now rewrite list_lookup_insert_ne.
    + rewrite live_cons_None in *.
      destruct (IH (S i) adj w slots Hlen Hslots Hvalid Hnd) as (sg' & Hrun & Hl & Hin & Hout).
      exists sg'. split; [|auto].
      cbn [renumber_following]. unfold bind at 1, getp.
      rewrite (bind_eq _ _ _ _ _ (lift_eq _ _ _ (index_nat _ _ _ Hx))).
      unfold bind at 1, ret at 1.
      replace (Z.of_nat i + 1) with (Z.of_nat (S i)) by lia. exact Hrun.
Qed.

Lemma insertIndex_of_range l seqID :
  0 <= l -> 0 <= seqID -> 0 <= insertIndex_of l seqID <= l.
Proof.
  intros Hl Hs. unfold insertIndex_of.
  destruct (l <=? seqID) eqn:E1; [lia|]. apply Z.leb_gt in E1.
  destruct (seqID =? 0) eqn:E2; simpl; [lia|]. apply Z.eqb_neq in E2.
  destruct (seqID <? l) eqn:E3; lia.
Qed.

Lemma insertIndex_of_cases l seqID :
  0 <= l -> 0 <= seqID ->
  (l <= seqID -> insertIndex_of l seqID = l) /\
  (0 < seqID < l -> insertIndex_of l seqID = seqID - 1) /\
  (seqID = 0 -> insertIndex_of l seqID = 0).
Proof.
  intros Hl Hs. unfold insertIndex_of. repeat split.
  - intros H. apply Z.leb_le in H. now rewrite H.
  - intros [H1 H2]. destruct (l <=? seqID) eqn:E1; [apply Z.leb_le in E1; lia|].
    destruct (seqID =? 0) eqn:E2; [apply Z.eqb_eq in E2; lia|].
    apply Z.ltb_lt in H2. now rewrite H2.
  - intros ->. destruct (l <=? 0) eqn:E1; [apply Z.leb_le in E1; lia|]. reflexivity.
Qed.

Lemma Segments_set_Segments v p : Segments (set_Segments v p) = v.
Proof. now destruct p. Qed.

(** Both branches of the capacity test leave the new pointers at
    [insertIndex], between the old ones. *)
Lemma InsertSegments_places {B} (k : unit -> M B) (w : World)
  (new : list (option nat)) (i : nat) :
  let S0 := Segments (pl w) in
  (i <= length (elems S0))%nat ->
  exists sp,
    (let* _ :=
       (if cap S0 <? len S0 + Z.of_nat (length new) then
          let newSegments := replicate (Z.to_nat (len S0 + Z.of_nat (length new))) None in
          let newSegments := copy newSegments (take (Z.to_nat (Z.of_nat i)) (elems S0)) in
          let* newSegments := lift (copy_at newSegments (Z.of_nat i + Z.of_nat (length new))
                                      (drop (Z.to_nat (Z.of_nat i)) (elems S0))) in
          modp (set_Segments (mkSlice newSegments []))
        else
          let* s := lift (reslice_to S0 (len S0 + Z.of_nat (length new))) in
          let* e := lift (copy_at (elems s) (Z.of_nat i + Z.of_nat (length new))
                            (drop (Z.to_nat (Z.of_nat i)) (elems s))) in
          modp (set_Segments (mkSlice e (spare s)))) in
     let* p := getp in
     let* e := lift (copy_at (elems (Segments p)) (Z.of_nat i) new) in
     let* u := modp (set_Segments (mkSlice e (spare (Segments p)))) in
     k u) w
    = k tt (mkWorld (segs w) (keys w)
              (set_Segments (mkSlice (placed (elems S0) new i) sp) (pl w))).
Proof.
  intros S0 Hi. rewrite Nat2Z.id.
  assert (Hlen : len S0 + Z.of_nat (length new)
                 = Z.of_nat (length (elems S0) + length new)) by (unfold len; lia).
  set (old := elems S0) in *. set (n := length new) in *.
  replace (Z.of_nat i + Z.of_nat n) with (Z.of_nat (i + n)) by lia.
  rewrite Hlen, Nat2Z.id.
  destruct (cap S0 <? Z.of_nat (length old + n)) eqn:Hcap.
  - exists []. cbv zeta.
    set (c1 := copy (replicate (length old + n) None) (take i old)).
    assert (Hc1 : length c1 = (length old + n)%nat).
    { subst c1. unfold copy. rewrite length_app, !length_take, length_drop, length_replicate. lia. }
    unfold bind at 1. unfold bind at 1.
    unfold lift at 1. rewrite copy_at_eq by lia.
    unfold modp at 1. unfold bind at 1, getp at 1.
    cbn [pl]. rewrite !Segments_set_Segments. cbn [elems spare].
    unfold bind at 1, lift at 1.
    rewrite copy_at_eq by (rewrite length_app, length_take; lia).
    unfold bind at 1, modp. cbn [segs keys pl].
    subst c1 n. rewrite (grow_placed None old new i Hi). now destruct (pl w).
  - apply Z.ltb_ge in Hcap.
    assert (Hsp : (n <= length (spare S0))%nat).
    { unfold cap in Hcap. subst old n. lia. }
    exists (drop (length old + n) (old ++ spare S0)).
    unfold bind at 1. unfold bind at 1. unfold lift at 1, reslice_to.
    replace (0 <=? Z.of_nat (length old + n)) with true by (symmetry; apply Z.leb_le; lia).
    replace (Z.of_nat (length old + n) <=? cap S0) with true
      by (symmetry; apply Z.leb_le; exact Hcap).
    cbn [andb]. rewrite Nat2Z.id. cbn [elems spare]. fold old.
    set (e := take (length old + n) (old ++ spare S0)).
    assert (He : length e = (length old + n)%nat).
    { subst e. rewrite length_take, length_app. lia. }
    unfold bind at 1, lift at 1. rewrite copy_at_eq by lia.
    unfold modp at 1. unfold bind at 1, getp at 1.
    cbn [pl]. rewrite !Segments_set_Segments. cbn [elems spare].
    unfold bind at 1, lift at 1.
    rewrite copy_at_eq by (rewrite length_app, length_take; lia).
    unfold bind at 1, modp. cbn [segs keys pl].
    subst e n. rewrite (shift_placed old (spare S0) new i Hi) by lia.
    now destruct (pl w).
Qed.

Lemma placed_inserted {A} (old new : list A) (i : nat) :
  (i <= length old)%nat ->
  take (length new) (drop i (placed old new i)) = new.
Proof.
  intros Hi. unfold placed.
  rewrite drop_app_ge by (rewrite length_take; lia).
  rewrite length_take. replace (i - i `min` length old)%nat with 0%nat by lia.
  rewrite drop_0. now rewrite take_app_le, take_ge by lia.
Qed.

Lemma placed_following {A} (old new : list A) (i : nat) :
  (i <= length old)%nat ->
  take (length old - i) (drop (i + length new) (placed old new i)) = drop i old.
Proof.
  intros Hi. unfold placed.
  rewrite drop_app_ge by (rewrite length_take; lia).
  rewrite length_take. replace (i + length new - i `min` length old)%nat with (length new) by lia.
  rewrite drop_app_ge by lia. rewrite Nat.sub_diag, drop_0.
  apply take_ge. rewrite length_drop. lia.
Qed.

Lemma length_placed {A} (old new : list A) (i : nat) :
  (i <= length old)%nat -> length (placed old new i) = (length old + length new)%nat.
Proof. intros Hi. unfold placed. rewrite !length_app, length_take, length_drop. lia. Qed.

Lemma InsertSegments_ok (w : World) (ptrs : list nat) (seqID : Z) :
  let old := elems (Segments (pl w)) in
  let i := Z.to_nat (insertIndex_of (len (Segments (pl w))) seqID) in
  ptrs <> [] -> 0 <= seqID ->
  NoDup (ptrs ++ live (drop i old)) ->
  Forall (fun a => a < length (segs w))%nat (ptrs ++ live (drop i old)) ->
  exists sg' sp,
    InsertSegments (map Some ptrs) seqID w =
    Ret (None, mkWorld sg' (keys w)
                 (inserted (pl w) (mkSlice (placed old (map Some ptrs) i) sp)
                    (Z.of_nat (length ptrs)))) /\
    length sg' = length (segs w) /\
    (forall j a, ptrs !! j = Some a ->
       sg' !! a = MediaSegment.set_SeqId (wrap64 (Z.of_nat (i + j) + 1)) <$> segs w !! a) /\
    (forall a, a ∈ live (drop i old) ->
       sg' !! a =
       (fun s => MediaSegment.set_SeqId
                   (wrap64 (MediaSegment.SeqId s + Z.of_nat (length ptrs))) s)
         <$> segs w !! a) /\
    (forall a, a ∉ ptrs -> a ∉ live (drop i old) -> sg' !! a = segs w !! a).
Proof.
  intros old i Hne Hseq Hnd Hvalid.
  assert (Hrange := insertIndex_of_range (len (Segments (pl w))) seqID
                      ltac:(unfold len; lia) Hseq).
  assert (Hi : (i <= length old)%nat).
  { subst i old. set (x := insertIndex_of _ _) in *. unfold len in Hrange. lia. }
  assert (Hidx : insertIndex_of (len (Segments (pl w))) seqID = Z.of_nat i)
    by (subst i; lia).
  apply NoDup_app in Hnd as (Hnd1 & Hdisj & Hnd2).
  apply Forall_app in Hvalid as [Hv1 Hv2].
  unfold InsertSegments. rewrite length_map.
  destruct (Z.of_nat (length ptrs) =? 0) eqn:E0.
  { apply Z.eqb_eq in E0. destruct ptrs; [congruence|simpl in E0; lia]. }
  unfold bind at 1, getp at 1. cbv zeta. rewrite Hidx.
  rewrite <- (length_map Some ptrs).
  destruct (InsertSegments_places
              (fun _ =>
                 renumber_inserted (length (map Some ptrs)) (Z.of_nat i) 1 (Z.of_nat i) ;;
                 let* p := getp in
                 renumber_following
                   (Z.to_nat (len (Segments p)
                              - (Z.of_nat i + Z.of_nat (length (map Some ptrs)))))
                   (Z.of_nat i + Z.of_nat (length (map Some ptrs)))
                   (Z.of_nat (length (map Some ptrs))) ;;
                 modp (fun p => set_count
                                  (wrap64 (count p + Z.of_nat (length (map Some ptrs)))) p) ;;
                 modp (fun p => set_capacity
                                  (wrap64 (capacity p + Z.of_nat (length (map Some ptrs)))) p) ;;
                 modp (fun p => set_tail (count p) p) ;;
                 modp (set_buf "") ;;
                 ret (@None error))
              w (map Some ptrs) i Hi) as (sp & Hplace).
  cbv zeta in Hplace. rewrite Hplace. clear Hplace.
  set (new := map Some ptrs) in *.
  set (w1 := mkWorld (segs w) (keys w)
               (set_Segments (mkSlice (placed (elems (Segments (pl w))) new i) sp) (pl w))).
  assert (Hel1 : elems (Segments (pl w1)) = placed old new i).
  { subst w1. cbn [pl]. now rewrite Segments_set_Segments. }
  assert (Hn : length new = length ptrs) by (subst new; apply length_map).
  destruct (renumber_inserted_spec (length new) i 1 (Z.of_nat i) w1 ptrs)
    as (sg1 & Hrun1 & Hl1 & Hin1 & Hout1); try assumption.
  { now symmetry. }
  { rewrite Hel1. now apply placed_inserted. }
  rewrite (bind_eq _ _ _ _ _ Hrun1). clear Hrun1.
  set (w2 := mkWorld sg1 (keys w1) (pl w1)).
  unfold bind at 1, getp at 1.
  replace (Z.to_nat (len (Segments (pl w2)) - (Z.of_nat i + Z.of_nat (length new))))
    with (length old - i)%nat
    by (subst w2; cbn [pl]; unfold len; rewrite Hel1, length_placed by exact Hi; lia).
  replace (Z.of_nat i + Z.of_nat (length new)) with (Z.of_nat (i + length new)) by lia.
  destruct (renumber_following_spec (length old - i) (i + length new)
              (Z.of_nat (length new)) w2 (drop i old))
    as (sg2 & Hrun2 & Hl2 & Hin2 & Hout2).
  { rewrite length_drop. reflexivity. }
  { subst w2. cbn [pl]. rewrite Hel1. now apply placed_following. }
  { subst w2. cbn [segs]. now rewrite Hl1. }
  { exact Hnd2. }
  rewrite (bind_eq _ _ _ _ _ Hrun2). clear Hrun2.
  exists sg2, sp. split; [|split; [|split; [|split]]].
  - unfold bind, modp, ret. subst w2 w1. cbn [segs keys pl].
    rewrite Hn. unfold inserted. fold old. now destruct (pl w).
  - rewrite Hl2. subst w2. cbn [segs]. rewrite Hl1. reflexivity.
  - intros j a Hj.
    assert (Ha : a ∈ ptrs) by (eapply list_elem_of_lookup_2, Hj).
    rewrite Hout2 by (apply Hdisj, Ha).
    subst w2. cbn [segs]. rewrite (Hin1 j a Hj). subst w1. cbn [segs].
    do 3 f_equal. lia.
  - intros a Ha. rewrite (Hin2 a Ha). subst w2. cbn [segs].
    rewrite Hout1 by (intros Hp; exact (Hdisj a Hp Ha)).
    subst w1. cbn [segs]. now rewrite Hn.
  - intros a Ha1 Ha2. rewrite (Hout2 a Ha2). subst w2. cbn [segs].
    now rewrite (Hout1 a Ha1).
Qed.

Lemma inserted_fields p segments n :
  Segments (inserted p segments n) = segments /\
  count (inserted p segments n) = wrap64 (count p + n) /\
  capacity (inserted p segments n) = wrap64 (capacity p + n) /\
  tail (inserted p segments n) = wrap64 (count p + n) /\
  head (inserted p segments n) = head p /\
  SeqNo (inserted p segments n) = SeqNo p /\
  buf (inserted p segments n) = "".
Proof. unfold inserted. destruct p; simpl. auto 10. Qed.

(** C1, as the code has it. For a non-empty list of distinct segments that
    are not yet in the playlist, [InsertSegments] succeeds and puts them at
    the insertion index: the length of the list when [seqID] is at least
    that length, [seqID - 1] when [seqID] lies strictly between 0 and the
    length, and 0, the front, when [seqID] is 0. The pointers before the
    index stay and their segments are untouched; the new segments are
    numbered from the index plus one; the segments after them keep their
    order and have the number of new segments added to their ids. [count]
    and [capacity] grow by that number and [tail] becomes [count]. *)
Theorem InsertSegments_spec (w : World) (ptrs : list nat) (seqID : Z) :
  let S0 := Segments (pl w) in
  let old := elems S0 in
  let n := Z.of_nat (length ptrs) in
  let i := Z.to_nat (insertIndex_of (len S0) seqID) in
  ptrs <> [] -> 0 <= seqID ->
  NoDup (ptrs ++ live old) ->
  Forall (fun a => a < length (segs w))%nat (ptrs ++ live old) ->
  ((len S0 <= seqID -> i = length old) /\
   (0 < seqID < len S0 -> Z.of_nat i = seqID - 1) /\
   (seqID = 0 -> i = 0%nat)) /\
  exists w',
    InsertSegments (map Some ptrs) seqID w = Ret (None, w') /\
    elems (Segments (pl w')) = take i old ++ map Some ptrs ++ drop i old /\
    count (pl w') = wrap64 (count (pl w) + n) /\
    capacity (pl w') = wrap64 (capacity (pl w) + n) /\
    tail (pl w') = count (pl w') /\
    head (pl w') = head (pl w) /\
    (forall j a, take i old !! j = Some (Some a) -> segs w' !! a = segs w !! a) /\
    (forall j a, ptrs !! j = Some a ->
       segs w' !! a = MediaSegment.set_SeqId (wrap64 (Z.of_nat (i + j) + 1)) <$> segs w !! a) /\
    (forall j a, drop i old !! j = Some (Some a) ->
       segs w' !! a =
       (fun s => MediaSegment.set_SeqId (wrap64 (MediaSegment.SeqId s + n)) s)
         <$> segs w !! a).
Proof.
  intros S0 old n i Hne Hseq Hnd Hvalid.
  assert (Hlen0 : 0 <= len S0) by (unfold len; lia).
  destruct (insertIndex_of_cases (len S0) seqID Hlen0 Hseq) as (C1 & C2 & C3).
  split.
  { subst i. repeat split.
    - intros H. rewrite (C1 H). unfold len. subst old. lia.
    - intros H. rewrite (C2 H). lia.
    - intros H. now rewrite (C3 H). }
  assert (Hsplit : live old = live (take i old) ++ live (drop i old)).
  { rewrite <- live_app. now rewrite take_drop. }
  rewrite Hsplit in Hnd, Hvalid.
  assert (Hnd' : NoDup (ptrs ++ live (drop i old))).
  { apply NoDup_app in Hnd as (H1 & H2 & H3). apply NoDup_app in H3 as (_ & _ & H3).
    apply NoDup_app. repeat split; [exact H1| |exact H3].
    intros x Hx Hx'. apply (H2 x Hx). apply elem_of_app. now right. }
  assert (Hvalid' : Forall (fun a => a < length (segs w))%nat (ptrs ++ live (drop i old))).
  { apply Forall_app in Hvalid as [H1 H2]. apply Forall_app in H2 as [_ H2].
    now apply Forall_app. }
  destruct (InsertSegments_ok w ptrs seqID Hne Hseq Hnd' Hvalid')
    as (sg' & sp & Hrun & Hl & Hin & Hfol & Hout).
  fold S0 in Hrun. fold old in Hrun, Hin, Hfol, Hout. fold i in Hrun, Hin, Hfol, Hout.
  eexists. split; [exact Hrun|]. cbn [pl segs].
  destruct (inserted_fields (pl w) (mkSlice (placed old (map Some ptrs) i) sp) n)
    as (E1 & E2 & E3 & E4 & E5 & _).
  fold n. rewrite E1, E2, E3, E4, E5. cbn [elems].
  repeat (split; [reflexivity|]).
  split; [|split].
  - intros j a Hj. apply Hout.
    + intros Ha. apply NoDup_app in Hnd as (_ & H2 & _). apply (H2 a Ha).
      apply elem_of_app. left. apply elem_of_live. eapply list_elem_of_lookup_2, Hj.
    + intros Ha. apply NoDup_app in Hnd as (_ & _ & H3).
      apply NoDup_app in H3 as (_ & H3 & _). apply (H3 a); [|exact Ha].
      apply elem_of_live. eapply list_elem_of_lookup_2, Hj.
  - exact Hin.
  - intros j a Hj. apply Hfol. apply elem_of_live. eapply list_elem_of_lookup_2, Hj.
Qed.

(** With A and B in the playlist and X in the store, inserting X at
    sequence id 1 puts it at index 0: X is numbered 1, A and B become 1 and
    2. *)
Lemma InsertSegments_spec_witness :
  exists w',
    InsertSegments [Some 2%nat] 1 world_AB_X = Ret (None, w') /\
    elems (Segments (pl world_AB_X)) = [Some 0%nat; Some 1%nat] /\
    elems (Segments (pl w')) = [Some 2%nat; Some 0%nat; Some 1%nat] /\
    count (pl w') = 3 /\ capacity (pl w') = 3 /\ tail (pl w') = 3 /\
    (MediaSegment.SeqId <$> segs w' !! 2%nat) = Some 1 /\
    (MediaSegment.SeqId <$> segs w' !! 0%nat) = Some 1 /\
    (MediaSegment.SeqId <$> segs w' !! 1%nat) = Some 2.
Proof.
  pose proof (InsertSegments_spec world_AB_X [2%nat] 1) as H. cbv zeta in H.
  assert (H1 : [2%nat] <> []) by discriminate.
  assert (H2 : 0 <= 1) by discriminate.
  assert (H3 : NoDup ([2%nat] ++ live (elems (Segments (pl world_AB_X)))))
    by compute_done.
  assert (H4 : Forall (fun a => a < length (segs world_AB_X))%nat
                 ([2%nat] ++ live (elems (Segments (pl world_AB_X)))))
    by compute_done.
  destruct (H H1 H2 H3 H4) as (_ & w' & Hrun & Hel & Hc & Hcap & Ht & _ & _ & Hnew & Hfol).
  exists w'. split; [exact Hrun|]. split; [vm_compute; reflexivity|].
  split; [rewrite Hel; vm_compute; reflexivity|].
  split; [rewrite Hc; vm_compute; reflexivity|].
  split; [rewrite Hcap; vm_compute; reflexivity|].
  split; [rewrite Ht, Hc; vm_compute; reflexivity|].
  split; [rewrite (Hnew 0%nat 2%nat) by reflexivity; vm_compute; reflexivity|].
  split.
  - rewrite (Hfol 0%nat 0%nat) by (vm_compute; reflexivity). vm_compute. reflexivity.
  - rewrite (Hfol 1%nat 1%nat) by (vm_compute; reflexivity). vm_compute. reflexivity.
Defined.

(** C1 does not hold for [seqID = 0] on a non-empty playlist: the index is
    0 and not the length, X goes in front of A and B, and the ids of A and
    B change from 0 and 1 to 1 and 2. *)
Lemma insert_at_zero_goes_first :
  exists w',
    InsertSegments [Some 2%nat] 0 world_AB_X = Ret (None, w') /\
    elems (Segments (pl world_AB_X)) = [Some 0%nat; Some 1%nat] /\
    insertIndex_of (len (Segments (pl world_AB_X))) 0 = 0 /\
    elems (Segments (pl w')) = [Some 2%nat; Some 0%nat; Some 1%nat] /\
    slot_ids world_AB_X = [Some 0; Some 1] /\
    slot_ids w' = [Some 1; Some 1; Some 2].
Proof.
  eexists. split; [vm_compute; reflexivity|].
  repeat split; vm_compute; reflexivity.
Defined.

(** * Further properties *)

(** ** The ring stays in working order *)

Lemma filled_store_grows h s C k (w : World) (more : list MediaSegment.t) :
  filled h s C k w -> filled h s C k (mkWorld (segs w ++ more) (keys w) (pl w)).
Proof.
  intros [Hcap Hhead Hseq Hcount Htail Hlen Hids].
  split; try assumption.
  intros i Hi. destruct (Hids i Hi) as (a & sg & Hslot & Hsg & Hid).
  exists a, sg. repeat split; try assumption.
  simpl. rewrite lookup_app_l; [exact Hsg | eapply lookup_lt_Some, Hsg].
Qed.

Lemma filled_new {env : Env} n c (w0 w : World) :
  NewMediaPlaylist n c w0 = Ret (None, w) -> 0 <= c -> filled 0 0 c 0 w.
Proof.
  intros H Hc. apply NewMediaPlaylist_Ret in H as [_ ->].
  split; try reflexivity.
  - unfold len. simpl. rewrite length_replicate. lia.
  - intros i Hi. lia.
Qed.

Lemma Remove_fields (w w' : World) :
  Remove w = Ret (None, w') ->
  count (pl w) <> 0 /\ capacity (pl w) <> 0 /\
  segs w' = segs w /\ keys w' = keys w /\
  Segments (pl w') = Segments (pl w) /\
  head (pl w') = wrap64 (head (pl w) + 1) mod capacity (pl w) /\
  count (pl w') = wrap64 (count (pl w) - 1) /\
  SeqNo (pl w') = (if Closed (pl w) then SeqNo (pl w) else wrap64 (SeqNo (pl w) + 1)) /\
  capacity (pl w') = capacity (pl w) /\ tail (pl w') = tail (pl w) /\
  Closed (pl w') = Closed (pl w) /\ winsize (pl w') = winsize (pl w) /\
  ver (pl w') = ver (pl w) /\ TargetDuration (pl w') = TargetDuration (pl w).
Proof.
  destruct w as [sg ks p]. destruct p. unfold Remove. step.
  case_zero. intros H. injection H as <-.
  match goal with |- context [negb ?c] => destruct c end; simpl; auto 20.
Qed.

Lemma Remove_ok (w : World) :
  count (pl w) <> 0 -> capacity (pl w) <> 0 -> exists w', Remove w = Ret (None, w').
Proof.
  destruct w as [sg ks p]. destruct p. unfold Remove. step.
  intros Hc Hk. apply Z.eqb_neq in Hc, Hk. rewrite Hc, Hk. eauto.
Qed.

Lemma Remove_empty (w : World) :
  count (pl w) = 0 -> Remove w = Ret (Some playlist_is_empty, w).
Proof. intros H. unfold Remove, bind, getp. now rewrite H. Qed.

Lemma Append_fields uri d t (w w' : World) r :
  Append uri d t w = Ret (r, w') ->
  keys w' = keys w /\ capacity (pl w') = capacity (pl w) /\ head (pl w') = head (pl w) /\
  SeqNo (pl w') = SeqNo (pl w) /\ Closed (pl w') = Closed (pl w) /\
  winsize (pl w') = winsize (pl w).
Proof.
  intros H. destruct r as [e|].
  - apply Append_error in H as (-> & -> & _). auto 10.
  - rewrite Append_unfold in H.
    apply AppendSegment_Ret in H as (a & s & id & segments & _ & _ & _ & _ & _ & _ & ->).
    cbn [keys pl].
    destruct (appended_fields (pl w) segments (MediaSegment.Duration s))
      as (E1 & E2 & E3 & _ & _ & _ & E7 & E8 & _).
    auto 10.
Qed.

Lemma ring_Remove (w : World) :
  ring w -> 0 < count (pl w) ->
  exists w', Remove w = Ret (None, w') /\ ring w' /\
             count (pl w') = count (pl w) - 1 /\
             head (pl w') = (head (pl w) + 1) mod capacity (pl w) /\
             SeqNo (pl w') = wrap64 (SeqNo (pl w) + 1) /\
             capacity (pl w') = capacity (pl w) /\ winsize (pl w') = winsize (pl w).
Proof.
  intros (HC & Hh & Hk & Hs & Hcl & Hf) Hpos.
  destruct (Remove_ok w) as [w' Hrun]; [lia | lia |].
  exists w'. split; [exact Hrun|].
  apply Remove_fields in Hrun
    as (_ & _ & Esg & Eks & Eseg & Eh & Ec & Es & Ecap & Et & Ecl & Ew & _).
  rewrite Hcl in Es.
  rewrite wrap64_small in Eh by (unfold uint64_range; lia).
  rewrite wrap64_small in Ec by (unfold uint64_range; lia).
  destruct Hf as [_ _ _ _ Htail Hlen Hids].
  assert (HC0 : 0 < capacity (pl w)) by lia.
  pose proof (mod_range (head (pl w) + 1) (capacity (pl w)) HC0) as Hr.
  repeat split; try (rewrite ?Ecap, ?Eh, ?Ec, ?Es, ?Ecl; first [assumption | lia]).
  - rewrite Es. unfold wrap64. apply Z.mod_pos_bound. lia.
  - rewrite Es. unfold wrap64. apply Z.mod_pos_bound. lia.
  - rewrite Et, Ecap, Eh, Ec, Htail, Zplus_mod_idemp_l. f_equal. lia.
  - now rewrite Eseg, Ecap.
  - rewrite Ecap, Eh, Ec, Es, Eseg, Esg. intros i Hi.
    destruct (Hids (i + 1) ltac:(lia)) as (a & sg & Hslot & Hsg & Hid).
    exists a, sg. split; [|split; [exact Hsg|]].
    + rewrite Zplus_mod_idemp_l.
      replace (head (pl w) + 1 + i) with (head (pl w) + (i + 1)) by lia. exact Hslot.
    + rewrite Hid, wrap64_idem_add. f_equal. lia.
Qed.

Lemma ring_full (w : World) :
  ring w -> count (pl w) = capacity (pl w) -> head (pl w) = tail (pl w).
Proof.
  intros (HC & Hh & Hk & Hs & Hcl & Hf) Hfull.
  rewrite (filled_tail _ _ _ _ _ Hf), Hfull.
  replace (head (pl w) + capacity (pl w)) with (head (pl w) + 1 * capacity (pl w)) by lia.
  rewrite Z.mod_add by lia. symmetry. apply Z.mod_small. lia.
Qed.

Lemma ring_Append uri d t (w : World) :
  ring w ->
  exists r w', Append uri d t w = Ret (r, w') /\ ring w' /\
    (count (pl w) < capacity (pl w) -> r = None /\ count (pl w') = count (pl w) + 1) /\
    (count (pl w) = capacity (pl w) -> r = Some ErrPlaylistFull /\ pl w' = pl w).
Proof.
  intros Hring. assert (Hring' := Hring).
  destruct Hring' as (HC & Hh & Hk & Hs & Hcl & Hf).
  destruct (Z.eq_dec (count (pl w)) (capacity (pl w))) as [Hfull|Hroom].
  - exists (Some ErrPlaylistFull). eexists. rewrite Append_unfold. split; [|split; [|split]].
    + apply AppendSegment_full; simpl; [now apply ring_full | lia].
    + refine (conj HC (conj Hh (conj Hk (conj Hs (conj Hcl _))))).
      now apply filled_store_grows.
    + intros H. lia.
    + auto.
  - assert (Hlt : 0 <= count (pl w) < capacity (pl w)) by lia.
    destruct (filled_step _ _ _ _ uri d t w HC Hh Hs Hlt Hf) as (w' & Hrun & Hf').
    exists None, w'. split; [exact Hrun|].
    apply Append_fields in Hrun as (_ & Ecap & Eh & Es & Ecl & _).
    pose proof (filled_count _ _ _ _ _ Hf') as Ec.
    split; [|split; [auto | intros H; lia]].
    unfold ring. rewrite Ecap, Eh, Es, Ecl, Ec.
    refine (conj HC (conj Hh (conj _ (conj Hs (conj Hcl Hf'))))). lia.
Qed.

Lemma ring_Slide uri d t (w : World) :
  ring w -> exists w', Slide uri d t w = Ret (tt, w') /\ ring w'.
Proof.
  intros Hring. unfold Slide. unfold bind at 1, getp.
  destruct (negb (Closed (pl w)) && (winsize (pl w) <=? count (pl w))).
  - destruct (Z.eq_dec (count (pl w)) 0) as [H0|Hpos].
    + unfold bind at 1. unfold bind at 1. rewrite (Remove_empty w H0). unfold ret at 1.
      destruct (ring_Append uri d t w Hring) as (r & w' & Hrun & Hring' & _).
      exists w'. unfold bind. rewrite Hrun. auto.
    + destruct Hring as (HC & Hh & Hk & Hrest).
      assert (Hk' : 0 < count (pl w)) by lia.
      destruct (ring_Remove w (conj HC (conj Hh (conj Hk Hrest))) Hk')
        as (w1 & Hrem & Hring1 & _).
      unfold bind at 1. unfold bind at 1. rewrite Hrem. unfold ret at 1.
      destruct (ring_Append uri d t w1 Hring1) as (r & w' & Hrun & Hring' & _).
      exists w'. unfold bind. rewrite Hrun. auto.
  - unfold bind at 1, ret at 1.
    destruct (ring_Append uri d t w Hring) as (r & w' & Hrun & Hring' & _).
    exists w'. unfold bind. rewrite Hrun. auto.
Qed.

Lemma run_ops_ring ops :
  Forall makes_its_segment ops ->
  forall w : World, ring w -> exists w', run_ops ops w = Ret (tt, w') /\ ring w'.
Proof.
  induction 1 as [|o ops Ho _ IH]; intros w Hring.
  - exists w. auto.
  - assert (Hstep : exists w1, run_op o w = Ret (tt, w1) /\ ring w1).
    { destruct o as [uri d t|seg| |uri d t]; simpl in *.
      - destruct (ring_Append uri d t w Hring) as (r & w1 & Hrun & Hring1 & _).
        exists w1. unfold bind. rewrite Hrun. auto.
      - contradiction.
      - destruct (Z.eq_dec (count (pl w)) 0) as [H0|Hpos].
        + exists w. unfold bind. rewrite (Remove_empty w H0). auto.
        + destruct (ring_Remove w Hring) as (w1 & Hrem & Hring1 & _).
          { destruct Hring as (_ & _ & Hk & _). lia. }
          exists w1. unfold bind. rewrite Hrem. auto.
      - now apply ring_Slide. }
    destruct Hstep as (w1 & Hrun1 & Hring1).
    destruct (IH w1 Hring1) as (w' & Hrun & Hring').
    exists w'. simpl. unfold bind at 1. rewrite Hrun1. auto.
Qed.

Lemma ring_new {env : Env} n c (w0 w : World) :
  NewMediaPlaylist n c w0 = Ret (None, w) -> 0 < c < 2 ^ 63 -> ring w.
Proof.
  intros H Hc. pose proof (filled_new n c w0 w H ltac:(lia)) as Hf.
  apply NewMediaPlaylist_Ret in H as [_ ->].
  unfold ring, uint64_range. simpl in *.
  refine (conj Hc (conj _ (conj _ (conj _ (conj eq_refl Hf))))); lia.
Qed.

Lemma run_ops_ring_fields ops :
  Forall makes_its_segment ops ->
  forall w w' : World, run_ops ops w = Ret (tt, w') ->
    capacity (pl w') = capacity (pl w) /\ winsize (pl w') = winsize (pl w) /\
    Closed (pl w') = Closed (pl w) /\ keys w' = keys w.
Proof.
  induction 1 as [|o ops Ho _ IH]; intros w w' H.
  - apply ret_Ret in H as [_ ->]. auto.
  - simpl in H. apply bind_Ret in H as (u & w1 & H1 & H).
    apply IH in H as (-> & -> & -> & ->). clear IH.
    destruct o as [uri d t|seg| |uri d t]; simpl in *.
    + apply bind_Ret in H1 as (r & w2 & H1 & H2). apply ret_Ret in H2 as [_ ->].
      apply Append_fields in H1. tauto.
    + contradiction.
    + apply bind_Ret in H1 as (r & w2 & H1 & H2). apply ret_Ret in H2 as [_ ->].
      destruct r as [e|].
      * apply Remove_atomic in H1 as ->. auto.
      * apply Remove_fields in H1. tauto.
    + unfold Slide in H1.
      apply bind_Ret in H1 as (p & w2 & Hg & H1). apply getp_Ret in Hg as [-> ->].
      apply bind_Ret in H1 as (u1 & w3 & H1 & H2).
      apply bind_Ret in H2 as (r & w4 & H2 & H3). apply ret_Ret in H3 as [_ ->].
      apply Append_fields in H2 as (-> & -> & _ & _ & -> & ->).
      destruct (negb (Closed (pl w)) && (winsize (pl w) <=? count (pl w))).
      * apply bind_Ret in H1 as (r1 & w5 & H1 & H3). apply ret_Ret in H3 as [_ ->].
        destruct r1 as [e|].
        -- apply Remove_atomic in H1 as ->. auto.
        -- apply Remove_fields in H1. tauto.
      * apply ret_Ret in H1 as [_ ->]. auto.
Qed.

(** X1. [NewMediaPlaylist] refuses a window larger than the capacity with
    the error of [SetWinSize] and leaves the world as it was. Otherwise it
    goes on to make the slots: when the array of [capacity] pointers would
    be larger than [maxAlloc], that is with more than 2^45 slots, [make]
    panics and no playlist is returned; up to that limit it returns an
    empty playlist: version [minver], the window and the capacity asked
    for, [count], [head], [tail] and [SeqNo] at 0, no cached encoding, and
    as many nil slots as the capacity. With at least one slot that
    playlist is a ring in working order. *)
Theorem NewMediaPlaylist_spec {env : Env} (winsize' capacity' : Z) (w : World) :
  (capacity' < winsize' ->
     NewMediaPlaylist winsize' capacity' w =
     Ret (Some (errors_New "capacity must be greater than winsize or equal"), w)) /\
  (winsize' <= capacity' -> maxAlloc < capacity' * PtrSize ->
     NewMediaPlaylist winsize' capacity' w = Panic MakesliceLenOutOfRange) /\
  (winsize' <= capacity' -> 0 <= capacity' -> capacity' * PtrSize <= maxAlloc ->
     exists w', NewMediaPlaylist winsize' capacity' w = Ret (None, w') /\
       segs w' = segs w /\ keys w' = keys w /\
       ver (pl w') = minver /\ winsize (pl w') = winsize' /\
       capacity (pl w') = capacity' /\
       count (pl w') = 0 /\ head (pl w') = 0 /\ tail (pl w') = 0 /\ SeqNo (pl w') = 0 /\
       buf (pl w') = "" /\ Closed (pl w') = false /\
       Segments (pl w') = mkSlice (replicate (Z.to_nat capacity') None) [] /\
       (0 < capacity' -> ring w')).
Proof.
  split; [|split].
  - intros H. apply Z.ltb_lt in H. unfold NewMediaPlaylist, SetWinSize. step.
    now rewrite H.
  - intros H Hbig. apply Z.ltb_ge in H. unfold NewMediaPlaylist, SetWinSize. step.
    rewrite H. unfold bind, lift, make.
    destruct (capacity' * PtrSize <=? maxAlloc) eqn:E; [apply Z.leb_le in E; lia|].
    now rewrite andb_false_r.
  - intros H H0 Hfit. apply Z.ltb_ge in H.
    assert (Hrun : exists w', NewMediaPlaylist winsize' capacity' w = Ret (None, w')).
    { unfold NewMediaPlaylist, SetWinSize. step. rewrite H. unfold bind, lift, make.
      apply Z.leb_le in H0, Hfit. rewrite H0, Hfit. eauto. }
    destruct Hrun as [w' Hrun]. exists w'. split; [exact Hrun|].
    assert (Hring : 0 < capacity' -> ring w').
    { intros Hpos. apply (ring_new _ _ _ _ Hrun).
      unfold maxAlloc, PtrSize in Hfit. lia. }
    apply NewMediaPlaylist_Ret in Hrun as [_ ->]. simpl. auto 20.
Qed.

(** A window of 4 does not fit a capacity of 3; a window of 2 does, and
    the playlist made is an empty ring of 3 nil slots; a capacity of 2^45
    slots and one more is refused by [make]. *)
Lemma NewMediaPlaylist_spec_witness :
  (exists e, @NewMediaPlaylist GoEnv.go 4 3 empty_world = Ret (Some e, empty_world)) /\
  @NewMediaPlaylist GoEnv.go 2 (2 ^ 45 + 1) empty_world = Panic MakesliceLenOutOfRange /\
  (exists w', @NewMediaPlaylist GoEnv.go 2 3 empty_world = Ret (None, w') /\
              elems (Segments (pl w')) = [None; None; None] /\ ring w').
Proof.
  destruct (@NewMediaPlaylist_spec GoEnv.go 4 3 empty_world) as [Herr _].
  destruct (@NewMediaPlaylist_spec GoEnv.go 2 (2 ^ 45 + 1) empty_world) as (_ & Hbig & _).
  destruct (@NewMediaPlaylist_spec GoEnv.go 2 3 empty_world) as (_ & _ & Hok).
  split; [|split].
  - eexists. apply Herr. lia.
  - apply Hbig; [lia | unfold maxAlloc, PtrSize; lia].
  - destruct Hok as (w' & Hrun & _ & _ & _ & _ & _ & _ & _ & _ & _ & _ & _ & Hel & Hring);
      [lia | lia | unfold maxAlloc, PtrSize; lia |].
    exists w'. split; [exact Hrun|]. split; [now rewrite Hel|]. apply Hring. lia.
Defined.

Lemma assign_out_of_range {A} (s : slice A) (i : Z) (x : A) :
  len s <= i -> assign s i x = Panic IndexOutOfRange.
Proof.
  intros H. unfold assign. destruct (i <? len s) eqn:E.
  - apply Z.ltb_lt in E. lia.
  - now rewrite andb_false_r.
Qed.

Lemma AppendSegment_no_slot a s (w : World) :
  segs w !! a = Some s -> count (pl w) = 0 ->
  len (Segments (pl w)) <= tail (pl w) ->
  AppendSegment (Some a) w = Panic IndexOutOfRange.
Proof.
  intros Hs Hc Hlen. unfold AppendSegment. unfold bind at 1, getp.
  rewrite Hc, andb_false_r.
  rewrite (bind_eq _ _ _ _ _ (update_eq a _ s w Hs)).
  change (0 <? 0) with false. cbv iota. unfold bind at 1, ret at 1.
  unfold bind at 1, lift. now rewrite assign_out_of_range.
Qed.

(** X2. A playlist made with capacity 0 has no slot to write to: [Append],
    [AppendSegment] of a segment of the store and [Slide] all panic with an
    index out of range, at the assignment [p.Segments[p.tail] = seg]. *)
Theorem Append_without_capacity {env : Env} (n : Z) (w0 w : World) :
  NewMediaPlaylist n 0 w0 = Ret (None, w) ->
  (forall uri d t, Append uri d t w = Panic IndexOutOfRange) /\
  (forall a s, segs w !! a = Some s -> AppendSegment (Some a) w = Panic IndexOutOfRange) /\
  (forall uri d t, Slide uri d t w = Panic IndexOutOfRange).
Proof.
  intros H. apply NewMediaPlaylist_Ret in H as [_ ->].
  set (p0 := set_Segments (mkSlice (replicate (Z.to_nat 0) None) [])
               (set_winsize n (set_capacity 0 (set_ver minver MediaPlaylist.zero)))).
  assert (Hseg : forall sg ks a s, sg !! a = Some s ->
            AppendSegment (Some a) (mkWorld sg ks p0) = Panic IndexOutOfRange).
  { intros sg ks a s Hs. apply (AppendSegment_no_slot a s); [exact Hs | reflexivity |].
    simpl. unfold len. simpl. lia. }
  assert (Happ : forall sg ks uri d t,
            Append uri d t (mkWorld sg ks p0) = Panic IndexOutOfRange).
  { intros sg ks uri d t. rewrite Append_unfold. cbn [segs keys pl].
    apply (Hseg _ _ _ (new_MediaSegment uri d t)).
    now rewrite lookup_app_r, Nat.sub_diag by lia. }
  split; [intros; apply Happ|]. split; [intros a s; apply Hseg|].
  intros uri d t. unfold Slide. unfold bind at 1, getp. cbn [pl].
  destruct (negb (Closed p0) && (winsize p0 <=? count p0)).
  - unfold bind at 1. unfold bind at 1. rewrite Remove_empty by reflexivity.
    unfold ret at 1. unfold bind. now rewrite Happ.
  - unfold bind at 1, ret at 1. unfold bind. now rewrite Happ.
Qed.

(** [NewMediaPlaylist(0, 0)] succeeds, and the first [Append] panics. *)
Lemma Append_without_capacity_witness :
  exists w, @NewMediaPlaylist GoEnv.go 0 0 empty_world = Ret (None, w) /\
            Append "A.ts" (4 # 1) "" w = Panic IndexOutOfRange.
Proof.
  eexists. split; [vm_compute; reflexivity|].
  lazymatch goal with |- Append _ _ _ ?w = _ =>
    destruct (@Append_without_capacity GoEnv.go 0 empty_world w) as [H _];
      [vm_compute; reflexivity | apply H] end.
Defined.

(** X3. On a playlist made by [NewMediaPlaylist] with a capacity between 1
    and 2^63 - 1, every run of [Append], [Remove] and [Slide] calls returns
    without panic (the errors of single calls are results, not panics), and
    leaves a ring in working order: the capacity is the one asked for,
    [count] is at most the capacity, [head] is a slot, [tail] is [count]
    slots after [head], and the live slot number [i] from the head holds a
    segment of the store with sequence id [SeqNo + i] in [uint64]. *)
Theorem ring_kept {env : Env} (n c : Z) (w0 w : World) (ops : list ring_op) :
  NewMediaPlaylist n c w0 = Ret (None, w) ->
  0 < c < 2 ^ 63 ->
  Forall makes_its_segment ops ->
  exists w',
    run_ops ops w = Ret (tt, w') /\ ring w' /\
    capacity (pl w') = c /\
    0 <= count (pl w') <= c /\ 0 <= head (pl w') < c /\
    tail (pl w') = (head (pl w') + count (pl w')) mod c /\
    (forall i, 0 <= i < count (pl w') ->
       exists sg, segment_at w' ((head (pl w') + i) mod c) = Some sg /\
                  MediaSegment.SeqId sg = wrap64 (SeqNo (pl w') + i)).
Proof.
  intros Hnew Hc Hops.
  pose proof (ring_new n c w0 w Hnew Hc) as Hring.
  destruct (run_ops_ring ops Hops w Hring) as (w' & Hrun & Hring').
  exists w'. split; [exact Hrun|]. split; [exact Hring'|].
  destruct (run_ops_ring_fields ops Hops w w' Hrun) as (Ecap & _).
  apply NewMediaPlaylist_Ret in Hnew as [_ ->]. simpl in Ecap.
  destruct Hring' as (HC & Hh & Hk & Hs & Hcl & Hf). rewrite Ecap in *.
  repeat (split; [first [assumption | lia]|]).
  split; [apply (filled_tail _ _ _ _ _ Hf)|].
  intros i Hi. assert (Hc0 : 0 < c) by lia.
  exact (filled_segment_at _ _ _ _ w' i Hc0 Hi Hf).
Qed.

(** A window of 2 in a capacity of 3: after A, B, C, a refused D, a
    removal and two slides the ring holds two live segments from slot 0
    on, numbered from 3. *)
Lemma ring_kept_witness :
  exists w',
    run_ops [OpAppend "A.ts" (4 # 1) ""; OpAppend "B.ts" (6 # 1) ""; OpAppend "C.ts" (5 # 1) "";
             OpAppend "D.ts" (5 # 1) ""; OpRemove; OpSlide "E.ts" (5 # 1) "";
             OpSlide "F.ts" (5 # 1) ""] new_2_3 = Ret (tt, w') /\
    ring w' /\ head (pl w') = 0 /\ count (pl w') = 2 /\ SeqNo (pl w') = 3 /\
    slot_ids w' = [Some 3; Some 4; Some 2].
Proof.
  destruct (@ring_kept GoEnv.go 2 3 empty_world new_2_3
              [OpAppend "A.ts" (4 # 1) ""; OpAppend "B.ts" (6 # 1) "";
               OpAppend "C.ts" (5 # 1) ""; OpAppend "D.ts" (5 # 1) ""; OpRemove;
               OpSlide "E.ts" (5 # 1) ""; OpSlide "F.ts" (5 # 1) ""])
    as (w' & Hrun & Hring & _).
  - vm_compute. reflexivity.
  - lia.
  - repeat constructor.
  - exists w'. split; [exact Hrun|]. split; [exact Hring|].
    vm_compute in Hrun. injection Hrun as <-. vm_compute. repeat split.
Defined.

(** ** The window of the encoder, in general *)

Lemma omap_cons_Some {A B} (f : A -> option B) (x : A) (y : B) (l : list A) :
  f x = Some y -> omap f (x :: l) = y :: omap f l.
Proof. intros H. change (omap f (x :: l)) with (from_option (.:: omap f l) (omap f l) (f x)). now rewrite H. Qed.

Lemma omap_seq_all {A} (f : nat -> option A) (P : nat -> A -> Prop) (n : nat) :
  forall j,
    (forall i, (j <= i < j + n)%nat -> exists x, f i = Some x /\ P i x) ->
    length (omap f (seq j n)) = n /\
    (forall i x, omap f (seq j n) !! i = Some x -> P (j + i)%nat x).
Proof.
  induction n as [|n IH]; intros j H.
  - split; [reflexivity|]. intros i x Hx. discriminate.
  - destruct (H j ltac:(lia)) as (x0 & Hf & HP).
    destruct (IH (S j)) as [Hlen Hall].
    { intros i Hi. apply H. lia. }
    cbn [seq]. rewrite (omap_cons_Some _ _ _ _ Hf). split; [simpl; now rewrite Hlen|].
    intros [|i] x Hx.
    + injection Hx as <-. now rewrite Nat.add_0_r.
    + apply Hall in Hx. now replace (j + S i)%nat with (S j + i)%nat by lia.
Qed.

Lemma append_nil_l (a : string) : "" +:+ a = a.
Proof. reflexivity. Qed.

(** One pass of the loop at the live slot number [j]. *)
Lemma encode_segments_live {env : Env} (w : World) (h s C k : Z) (n j : nat) (i : Z) c :
  filled h s C k w -> 0 < C < 2 ^ 63 -> 0 <= h < C ->
  Z.of_nat j < k ->
  ((i <? winsize (pl w)) || (winsize (pl w) =? 0)) = true ->
  exists sg,
    segment_at w ((h + Z.of_nat j) mod C) = Some sg /\
    encode_segments w (S n) ((h + Z.of_nat j) mod C) i c =
    let+ out := encode_segment w sg c in
    let+ rest := encode_segments w n ((h + Z.of_nat (S j)) mod C)
                   (if 0 <? winsize (pl w) then wrap64 (i + 1) else i) (snd out) in
    Ret (fst out +:+ rest).
Proof.
  intros Hf HC Hh Hj Hcond.
  destruct (filled_ids _ _ _ _ _ Hf (Z.of_nat j) ltac:(lia)) as (a & sg & Hslot & Hsg & _).
  assert (Hr : 0 <= (h + Z.of_nat j) mod C < C) by (apply mod_range; lia).
  assert (Hidx : index (Segments (pl w)) ((h + Z.of_nat j) mod C) = Ret (Some a)).
  { apply index_in_range; [lia | exact Hslot]. }
  exists sg. split; [unfold segment_at; now rewrite Hidx|].
  rewrite encode_segments_S, Hcond, Hidx. cbn [res_bind].
  rewrite (filled_capacity _ _ _ _ _ Hf). unfold umod.
  destruct (C =? 0) eqn:E0; [apply Z.eqb_eq in E0; lia|]. cbn [res_bind].
  rewrite wrap64_small by (unfold uint64_range; lia).
  rewrite mod_next_slot. replace (h + Z.of_nat j + 1) with (h + Z.of_nat (S j)) by lia.
  unfold deref. rewrite Hsg. reflexivity.
Qed.

Lemma encode_segments_unbounded {env : Env} (w : World) (h s C k : Z) :
  filled h s C k w -> 0 < C < 2 ^ 63 -> 0 <= h < C -> winsize (pl w) = 0 ->
  forall (n j : nat) c,
    Z.of_nat (j + n) <= k ->
    encode_segments w n ((h + Z.of_nat j) mod C) 0 c =
    encode_run w (omap (fun i : nat => segment_at w ((h + Z.of_nat i) mod C)) (seq j n)) c.
Proof.
  intros Hf HC Hh Hw. induction n as [|n IH]; intros j c Hle; [reflexivity|].
  assert (Hj : Z.of_nat j < k) by lia.
  destruct (encode_segments_live w h s C k n j 0 c Hf HC Hh Hj) as (sg & Hsg & ->).
  { rewrite Hw. reflexivity. }
  cbn [seq]. rewrite (omap_cons_Some (fun i : nat => segment_at w ((h + Z.of_nat i) mod C)) j sg _ Hsg). cbn [encode_run].
  rewrite Hw. cbn [Z.ltb Z.compare].
  destruct (encode_segment w sg c) as [out|e]; [cbn [res_bind]|reflexivity].
  rewrite IH by lia. reflexivity.
Qed.

Lemma encode_segments_bounded {env : Env} (w : World) (h s C k : Z) :
  filled h s C k w -> 0 < C < 2 ^ 63 -> 0 <= h < C -> k <= C -> 0 < winsize (pl w) ->
  forall (n j : nat) c,
    Z.of_nat (j + n) <= k ->
    encode_segments w n ((h + Z.of_nat j) mod C) (Z.of_nat j) c =
    encode_run w (omap (fun i : nat => segment_at w ((h + Z.of_nat i) mod C))
                    (seq j (n `min` (Z.to_nat (winsize (pl w)) - j)))) c.
Proof.
  intros Hf HC Hh HkC Hw. induction n as [|n IH]; intros j c Hle; [reflexivity|].
  destruct (Z.of_nat j <? winsize (pl w)) eqn:Hin.
  - apply Z.ltb_lt in Hin.
    assert (Hj : Z.of_nat j < k) by lia.
    destruct (encode_segments_live w h s C k n j (Z.of_nat j) c Hf HC Hh Hj)
      as (sg & Hsg & ->).
    { apply orb_true_iff. left. now apply Z.ltb_lt. }
    replace (S n `min` (Z.to_nat (winsize (pl w)) - j))%nat
      with (S (n `min` (Z.to_nat (winsize (pl w)) - S j)))%nat by lia.
    cbn [seq]. rewrite (omap_cons_Some (fun i : nat => segment_at w ((h + Z.of_nat i) mod C)) j sg _ Hsg). cbn [encode_run].
    replace (0 <? winsize (pl w)) with true by (symmetry; now apply Z.ltb_lt).
    rewrite wrap64_small by (unfold uint64_range; lia).
    replace (Z.of_nat j + 1) with (Z.of_nat (S j)) by lia.
    destruct (encode_segment w sg c) as [out|e]; [cbn [res_bind]|reflexivity].
    rewrite IH by lia. reflexivity.
  - rewrite encode_segments_S, Hin.
    replace (winsize (pl w) =? 0) with false by (symmetry; apply Z.eqb_neq; lia).
    apply Z.ltb_ge in Hin.
    replace (S n `min` (Z.to_nat (winsize (pl w)) - j))%nat with 0%nat by lia.
    reflexivity.
Qed.

Lemma encode_media_window {env : Env} (w : World) (h s C k : Z) :
  filled h s C k w -> 0 < C < 2 ^ 63 -> 0 <= h < C -> 0 <= k <= C ->
  0 <= winsize (pl w) ->
  let m := Z.to_nat (shown (pl w)) in
  length (live_from w m) = m /\
  (forall i sg, live_from w m !! i = Some sg ->
     segment_at w ((h + Z.of_nat i) mod C) = Some sg /\
     MediaSegment.SeqId sg = wrap64 (s + Z.of_nat i)) /\
  encode_segments w (Z.to_nat (count (pl w))) (head (pl w)) 0 [] =
    encode_run w (live_from w m) [] /\
  encode_media w =
    (let+ header := encode_header w in
     let+ body := encode_run w (live_from w m) [] in
     Ret (cat [header; body; if Closed (pl w) then "#EXT-X-ENDLIST" +:+ nl else ""])).
Proof.
  intros Hf HC Hh Hk Hw m.
  pose proof (filled_head _ _ _ _ _ Hf) as Ehead.
  pose proof (filled_capacity _ _ _ _ _ Hf) as Ecap.
  pose proof (filled_count _ _ _ _ _ Hf) as Ecount.
  assert (Hm : Z.of_nat m <= k).
  { subst m. unfold shown. rewrite Ecount. destruct (winsize (pl w) =? 0); lia. }
  unfold live_from. rewrite Ehead, Ecap.
  destruct (omap_seq_all (fun i : nat => segment_at w ((h + Z.of_nat i) mod C))
              (fun i sg => segment_at w ((h + Z.of_nat i) mod C) = Some sg /\
                           MediaSegment.SeqId sg = wrap64 (s + Z.of_nat i)) m 0%nat)
    as [Hlen Hall].
  { intros i Hi. assert (Hi' : 0 <= Z.of_nat i < k) by lia.
    assert (HC0 : 0 < C) by lia.
    destruct (filled_segment_at _ _ _ _ w (Z.of_nat i) HC0 Hi' Hf) as (sg & Hsg & Hid).
    exists sg. auto. }
  split; [exact Hlen|]. split; [exact Hall|].
  assert (Hbody : encode_segments w (Z.to_nat (count (pl w))) h 0 [] =
            encode_run w (omap (fun i : nat => segment_at w ((h + Z.of_nat i) mod C))
                            (seq 0 m)) []).
  { rewrite Ecount.
    replace h with ((h + Z.of_nat 0) mod C) at 1
      by (rewrite Z.add_0_r; apply Z.mod_small; lia).
    subst m. unfold shown. rewrite Ecount.
    destruct (winsize (pl w) =? 0) eqn:E0.
    - apply Z.eqb_eq in E0.
      apply (encode_segments_unbounded w h s C k Hf HC Hh E0). lia.
    - apply Z.eqb_neq in E0.
      assert (HkC : k <= C) by lia. assert (Hw0 : 0 < winsize (pl w)) by lia.
      rewrite (encode_segments_bounded w h s C k Hf HC Hh HkC Hw0 (Z.to_nat k) 0%nat)
        by lia.
      rewrite Z2Nat.inj_min, Nat.sub_0_r. reflexivity. }
  split; [exact Hbody|].
  unfold encode_media. rewrite Ehead, Hbody. reflexivity.
Qed.

(** X4. In a ring of capacity [C] with [k] live segments numbered from
    [SeqNo], the loop of [Encode] writes the segments that sit at the head
    of the ring, oldest first: all [k] of them when the window is 0, and
    the first [min(k, winsize)] otherwise. The newest segments are the ones
    left out when the window is smaller than the count. *)
Theorem Encode_window {env : Env} (w : World) (h s C k : Z) :
  filled h s C k w -> 0 < C < 2 ^ 63 -> 0 <= h < C -> 0 <= k <= C ->
  0 <= winsize (pl w) ->
  let m := Z.to_nat (shown (pl w)) in
  length (live_from w m) = m /\
  (forall i sg, live_from w m !! i = Some sg ->
     segment_at w ((h + Z.of_nat i) mod C) = Some sg /\
     MediaSegment.SeqId sg = wrap64 (s + Z.of_nat i)) /\
  encode_segments w (Z.to_nat (count (pl w))) (head (pl w)) 0 [] =
    encode_run w (live_from w m) [] /\
  encode_media w =
    (let+ header := encode_header w in
     let+ body := encode_run w (live_from w m) [] in
     Ret (cat [header; body; if Closed (pl w) then "#EXT-X-ENDLIST" +:+ nl else ""])).
Proof. apply encode_media_window. Qed.

(** With A, B, C in a ring of capacity 3 and a window of 2, the body of
    the encoding is the text of A and B. *)
Lemma Encode_window_witness :
  exists w' l,
    run_ops [OpAppend "A.ts" (4 # 1) ""; OpAppend "B.ts" (6 # 1) "";
             OpAppend "C.ts" (5 # 1) ""] new_2_3 = Ret (tt, w') /\
    live_from w' 2 = l /\ map MediaSegment.URI l = ["A.ts"; "B.ts"] /\
    @encode_segments GoEnv.go w' 3 0 0 [] = @encode_run GoEnv.go w' l [].
Proof.
  destruct (run_ops_ring
              [OpAppend "A.ts" (4 # 1) ""; OpAppend "B.ts" (6 # 1) "";
               OpAppend "C.ts" (5 # 1) ""] ltac:(repeat constructor) new_2_3)
    as (w' & Hrun & Hring).
  { apply (@ring_new GoEnv.go 2 3 empty_world); [vm_compute; reflexivity | lia]. }
  exists w', (live_from w' 2). split; [exact Hrun|]. split; [reflexivity|].
  destruct Hring as (HC & Hh & Hk & _ & _ & Hf).
  assert (Hw : 0 <= winsize (pl w')).
  { vm_compute in Hrun. injection Hrun as <-. vm_compute. discriminate. }
  destruct (@Encode_window GoEnv.go w' _ _ _ _ Hf HC Hh Hk Hw) as (_ & _ & Hbody & _).
  vm_compute in Hrun. injection Hrun as <-.
  split; [vm_compute; reflexivity|]. exact Hbody.
Defined.

(** ** What the encoder reads *)

(** The encoder reads neither the cached encoding nor, before the end
    tag, the flag [Closed]. *)
Lemma encode_segment_frame {env : Env} (w w' : World) (s : MediaSegment.t) c :
  keys w = keys w' ->
  set_Closed false (set_buf "" (pl w)) = set_Closed false (set_buf "" (pl w')) ->
  encode_segment w s c = encode_segment w' s c.
Proof.
  destruct w as [sg ks p], w' as [sg' ks' p']. cbn [keys pl]. intros <- Hp.
  destruct p, p'. cbn in Hp. injection Hp as <- <- <- <- <- <- <- <- <- <- <- <- <- <- <- <- <- <- <- <- <-.
  reflexivity.
Qed.

Lemma encode_segments_frame {env : Env} (w w' : World) :
  segs w = segs w' -> keys w = keys w' ->
  set_Closed false (set_buf "" (pl w)) = set_Closed false (set_buf "" (pl w')) ->
  forall n h i c, encode_segments w n h i c = encode_segments w' n h i c.
Proof.
  intros Hsg Hks Hp.
  assert (Hfields : Segments (pl w) = Segments (pl w') /\ winsize (pl w) = winsize (pl w') /\
                    capacity (pl w) = capacity (pl w')).
  { destruct (pl w), (pl w'). cbn in Hp. injection Hp as <- <- <- <- <- <- <- <- <- <- <- <- <- <- <- <- <- <- <- <- <-.
    auto. }
  destruct Hfields as (E1 & E2 & E3).
  induction n as [|n IH]; intros h i c; [reflexivity|].
  rewrite !encode_segments_S, <- E1, <- E2, <- E3, <- Hsg.
  destruct (_ || _); [|reflexivity].
  destruct (index _ _) as [seg|]; [cbn [res_bind]|reflexivity].
  destruct (umod _ _) as [next|]; [cbn [res_bind]|reflexivity].
  destruct seg as [a|]; [|apply IH].
  destruct (deref _ _) as [s|]; [cbn [res_bind]|reflexivity].
  rewrite <- (encode_segment_frame w w' s c Hks Hp).
  destruct (encode_segment w s c) as [out|]; [cbn [res_bind]|reflexivity].
  now rewrite IH.
Qed.

Lemma encode_header_frame {env : Env} (w w' : World) :
  keys w = keys w' ->
  set_Closed false (set_buf "" (pl w)) = set_Closed false (set_buf "" (pl w')) ->
  encode_header w = encode_header w'.
Proof.
  destruct w as [sg ks p], w' as [sg' ks' p']. cbn [keys pl]. intros <- Hp.
  destruct p, p'. cbn in Hp. injection Hp as <- <- <- <- <- <- <- <- <- <- <- <- <- <- <- <- <- <- <- <- <-.
  reflexivity.
Qed.

Lemma encode_media_frame {env : Env} (w w' : World) :
  segs w = segs w' -> keys w = keys w' ->
  set_buf "" (pl w) = set_buf "" (pl w') ->
  encode_media w = encode_media w'.
Proof.
  intros Hsg Hks Hp.
  assert (Hp' : set_Closed false (set_buf "" (pl w)) = set_Closed false (set_buf "" (pl w')))
    by now rewrite Hp.
  assert (Hfields : count (pl w) = count (pl w') /\ head (pl w) = head (pl w') /\
                    Closed (pl w) = Closed (pl w')).
  { destruct (pl w), (pl w'). cbn in Hp. injection Hp as <- <- <- <- <- <- <- <- <- <- <- <- <- <- <- <- <- <- <- <- <- <-.
    auto. }
  destruct Hfields as (E1 & E2 & E3).
  unfold encode_media.
  rewrite (encode_header_frame w w' Hks Hp'), E1, E2, E3.
  destruct (encode_header w') as [hdr|]; [cbn [res_bind]|reflexivity].
  now rewrite (encode_segments_frame w w' Hsg Hks Hp').
Qed.

Lemma set_buf_twice a b p : set_buf a (set_buf b p) = set_buf a p.
Proof. now destruct p. Qed.

Lemma buf_set_buf a p : buf (set_buf a p) = a.
Proof. now destruct p. Qed.

(** X5. [Encode] writes to nothing but the cached encoding, and
    [ResetCache] followed by [Encode] returns the encoding of the playlist
    as it is now, whatever had been cached: the text [encode_media] builds
    from the current state is returned and cached, or the build panics and
    nothing is returned. *)
Theorem Encode_after_ResetCache {env : Env} (w : World) :
  (forall b w', Encode w = Ret (b, w') ->
     segs w' = segs w /\ keys w' = keys w /\ pl w' = set_buf b (pl w)) /\
  (ResetCache ;; Encode) w =
    match encode_media w with
    | Ret out => Ret (out, mkWorld (segs w) (keys w) (set_buf out (pl w)))
    | Panic e => Panic e
    end.
Proof.
  split.
  - intros b w'. unfold Encode. step.
    destruct (0 <? buf_Len (buf (pl w))).
    + intros H. injection H as <- <-. repeat split. now destruct (pl w).
    + destruct (encode_media w) as [out|]; [|discriminate].
      intros H. injection H as <- <-. auto.
  - unfold ResetCache. unfold bind, modp.
    set (w0 := mkWorld (segs w) (keys w) (set_buf "" (pl w))).
    assert (Hb : buf (pl w0) = "") by (subst w0; simpl; now destruct (pl w)).
    rewrite (Encode_fresh w0 Hb).
    rewrite (encode_media_frame w0 w); try reflexivity.
    + destruct (encode_media w) as [out|]; [|reflexivity].
      subst w0. cbn [segs keys pl]. now rewrite set_buf_twice.
    + subst w0. cbn [pl]. now rewrite set_buf_twice.
Qed.

(** After A is encoded and then marked with [SetDiscontinuity], the cache
    still holds the old text; [ResetCache] and [Encode] give the text with
    the discontinuity tag. *)
Lemma Encode_after_ResetCache_witness :
  exists w1 out,
    SetDiscontinuity world_A_encoded = Ret (None, w1) /\
    buf (pl w1) <> "" /\
    (ResetCache ;; @Encode GoEnv.go) w1
    = Ret (out, mkWorld (segs w1) (keys w1) (set_buf out (pl w1))) /\
    strings_Contains out "#EXT-X-DISCONTINUITY" = true.
Proof.
  eexists _, _. split; [vm_compute; reflexivity|]. split; [vm_compute; discriminate|].
  split.
  - lazymatch goal with |- _ ?w1 = _ =>
      destruct (@Encode_after_ResetCache GoEnv.go w1) as [_ H]; rewrite H end.
    vm_compute. reflexivity.
  - vm_compute. reflexivity.
Defined.

Lemma cat3_end (a b e : string) : cat [a; b; ""] +:+ e = cat [a; b; e].
Proof.
  unfold cat. cbn [String.concat]. rewrite !append_nil_l, append_nil_r.
  now rewrite append_assoc.
Qed.

Lemma buf_Len_app (a b : string) :
  (0 <? buf_Len a) = true -> (0 <? buf_Len (a +:+ b)) = true.
Proof.
  destruct a as [|c a]; [discriminate|]. intros _.
  change (String c a +:+ b) with (String c (a +:+ b)). apply buf_Len_cons.
Qed.

(** X6. [Close] keeps a cached encoding in step with the playlist. When
    an open playlist has been encoded from its state and is then closed,
    [Close] adds the end tag to the cached text, and the next [Encode]
    returns that text. Where no map the encoder ranges over has two
    entries, so that a build has one outcome, the patched cache is exactly
    the text a build from the closed playlist gives. *)
Theorem Close_patches_cache {env : Env} (w w1 : World) (b : string) :
  buf (pl w) = "" -> Closed (pl w) = false ->
  Encode w = Ret (b, w1) ->
  exists w2,
    Close w1 = Ret (tt, w2) /\ Closed (pl w2) = true /\
    buf (pl w2) = b +:+ "#EXT-X-ENDLIST" +:+ nl /\
    Encode w2 = Ret (buf (pl w2), w2) /\
    (one_order w = true -> encode_media w2 = Ret (buf (pl w2))).
Proof.
  intros Hb Hcl HE. rewrite (Encode_fresh w Hb) in HE.
  destruct (encode_media w) as [out|] eqn:Hm; [|discriminate].
  injection HE as <- <-.
  pose proof (encode_media_nonempty w out Hm) as Hlen.
  set (w1 := mkWorld (segs w) (keys w) (set_buf out (pl w))).
  assert (Hb1 : buf (pl w1) = out) by (subst w1; simpl; now destruct (pl w)).
  set (e := "#EXT-X-ENDLIST" +:+ nl).
  set (w2 := mkWorld (segs w) (keys w) (set_Closed true (set_buf (out +:+ e) (pl w)))).
  exists w2. split.
  { unfold Close. unfold bind at 1, getp. rewrite Hb1, Hlen.
    unfold bind, modp. subst w2 w1 e. cbn [segs keys pl].
    rewrite set_buf_twice, buf_set_buf. reflexivity. }
  assert (Hf2 : Closed (pl w2) = true /\ buf (pl w2) = out +:+ e /\
                count (pl w2) = count (pl w) /\ head (pl w2) = head (pl w) /\
                set_Closed false (set_buf "" (pl w2)) = set_Closed false (set_buf "" (pl w))).
  { subst w2 w1. cbn [pl]. destruct (pl w). cbn in *. subst. auto. }
  destruct Hf2 as (E1 & E2 & E3 & E4 & E5).
  assert (Hm2 : encode_media w2 = Ret (out +:+ e)).
  { unfold encode_media in *. rewrite Hcl in Hm.
    rewrite (encode_header_frame w2 w eq_refl E5), E1, E3, E4.
    rewrite (encode_segments_frame w2 w eq_refl eq_refl E5).
    destruct (encode_header w) as [hdr|]; [cbn [res_bind] in *|discriminate].
    destruct (encode_segments w _ _ _ _) as [body|]; [cbn [res_bind] in *|discriminate].
    injection Hm as <-. now rewrite cat3_end. }
  split; [exact E1|]. split; [exact E2|]. split.
  - unfold Encode. unfold bind, getp. rewrite E2, (buf_Len_app _ _ Hlen). reflexivity.
  - intros _. now rewrite E2.
Qed.

(** A, appended and encoded, then closed: the cache ends with the end
    tag and is what the closed playlist encodes to. *)
Lemma Close_patches_cache_witness :
  exists b w1 w2,
    @Encode GoEnv.go world_A = Ret (b, w1) /\
    Close w1 = Ret (tt, w2) /\
    buf (pl w2) = b +:+ "#EXT-X-ENDLIST" +:+ nl /\
    @encode_media GoEnv.go w2 = Ret (buf (pl w2)).
Proof.
  assert (HE : exists b w1, @Encode GoEnv.go world_A = Ret (b, w1))
    by (eexists _, _; vm_compute; reflexivity).
  destruct HE as (b & w1 & HE).
  destruct (@Close_patches_cache GoEnv.go world_A w1 b) as (w2 & Hc & _ & Hb & _ & Hm).
  - vm_compute. reflexivity.
  - vm_compute. reflexivity.
  - exact HE.
  - exists b, w1, w2. split; [exact HE|]. split; [exact Hc|]. split; [exact Hb|].
    apply Hm. vm_compute. reflexivity.
Defined.

(** ** The current segment *)

Lemma current_eq (w : World) x :
  index (Segments (pl w)) (last (pl w)) = Ret x -> current w = Ret (x, w).
Proof. intros H. unfold current, bind, getp, lift. now rewrite H. Qed.

Lemma last_of_tail (p : MediaPlaylist.t) (C x : Z) :
  0 < C < 2 ^ 63 -> capacity p = C -> tail p = x mod C -> last p = (x - 1) mod C.
Proof.
  intros HC Hcap Ht. unfold last. rewrite Hcap, Ht.
  pose proof (mod_range x C ltac:(lia)) as Hr.
  rewrite <- (Zminus_mod_idemp_l x 1 C).
  destruct (x mod C =? 0) eqn:E.
  - apply Z.eqb_eq in E. rewrite E.
    rewrite wrap64_small by (unfold uint64_range; lia).
    replace (0 - 1) with (C - 1 + (-1) * C) by lia.
    rewrite Z.mod_add by lia. symmetry. apply Z.mod_small. lia.
  - apply Z.eqb_neq in E.
    rewrite wrap64_small by (unfold uint64_range; lia).
    symmetry. apply Z.mod_small. lia.
Qed.

Lemma ring_current (w : World) :
  ring w -> 0 < count (pl w) ->
  exists a sg,
    current w = Ret (Some a, w) /\ segs w !! a = Some sg /\
    MediaSegment.SeqId sg = wrap64 (SeqNo (pl w) + count (pl w) - 1) /\
    last (pl w) = (head (pl w) + count (pl w) - 1) mod capacity (pl w).
Proof.
  intros (HC & Hh & Hk & Hs & Hcl & Hf) Hpos.
  assert (Hlast : last (pl w) = (head (pl w) + count (pl w) - 1) mod capacity (pl w)).
  { apply last_of_tail; [exact HC | reflexivity | apply (filled_tail _ _ _ _ _ Hf)]. }
  assert (Hi : 0 <= count (pl w) - 1 < count (pl w)) by lia.
  destruct (filled_ids _ _ _ _ _ Hf _ Hi) as (a & sg & Hslot & Hsg & Hid).
  replace (head (pl w) + (count (pl w) - 1)) with (head (pl w) + count (pl w) - 1)
    in Hslot by lia.
  exists a, sg. split; [|split; [exact Hsg|split; [|exact Hlast]]].
  - apply current_eq. rewrite Hlast. apply index_in_range; [|exact Hslot].
    apply mod_range. lia.
  - rewrite Hid. f_equal. lia.
Qed.

Lemma assign_Ret {A} (s s' : slice A) (i : Z) (x : A) :
  assign s i x = Ret s' ->
  0 <= i < len s /\ s' = mkSlice (<[Z.to_nat i := x]> (elems s)) (spare s).
Proof.
  unfold assign. destruct (0 <=? i) eqn:E1; [|discriminate].
  destruct (i <? len s) eqn:E2; [|discriminate].
  apply Z.leb_le in E1. apply Z.ltb_lt in E2. intros H. injection H as <-. auto.
Qed.

Lemma Append_Ret uri d t (w w' : World) :
  Append uri d t w = Ret (None, w') ->
  exists id,
    0 <= tail (pl w) < len (Segments (pl w)) /\
    segs w' = segs w ++ [MediaSegment.set_SeqId id (new_MediaSegment uri d t)] /\
    keys w' = keys w /\
    pl w' = appended (pl w)
              (mkSlice (<[Z.to_nat (tail (pl w)) := Some (length (segs w))]>
                          (elems (Segments (pl w)))) (spare (Segments (pl w)))) d.
Proof.
  intros H. rewrite Append_unfold in H.
  apply AppendSegment_Ret in H as (a & s & id & segments & Ha & Hs & _ & _ & Has & _ & ->).
  injection Ha as <-. cbn [segs keys pl] in *.
  rewrite lookup_app_r, Nat.sub_diag in Hs by lia. injection Hs as <-.
  apply assign_Ret in Has as [Hr ->].
  exists id. rewrite insert_last. auto.
Qed.

Lemma ring_Append_new uri d t (w : World) :
  ring w -> count (pl w) < capacity (pl w) ->
  exists w',
    Append uri d t w = Ret (None, w') /\ ring w' /\
    current w' = Ret (Some (length (segs w)), w') /\
    segs w' = segs w ++ [MediaSegment.set_SeqId (wrap64 (SeqNo (pl w) + count (pl w)))
                           (new_MediaSegment uri d t)] /\
    last (pl w') = tail (pl w) /\
    count (pl w') = count (pl w) + 1 /\ head (pl w') = head (pl w) /\
    SeqNo (pl w') = SeqNo (pl w) /\ capacity (pl w') = capacity (pl w) /\
    winsize (pl w') = winsize (pl w).
Proof.
  intros Hring Hroom.
  destruct (ring_Append uri d t w Hring) as (r & w' & Hrun & Hring' & Hok & _).
  destruct (Hok Hroom) as [-> Hc]. exists w'. split; [exact Hrun|]. split; [exact Hring'|].
  destruct (Append_fields _ _ _ _ _ _ Hrun) as (_ & Ecap & Eh & Es & _ & Ew).
  destruct (Append_Ret _ _ _ _ _ Hrun) as (id & Htl & Esegs & _ & Epl).
  destruct Hring as (HC & Hh & Hk & Hs & Hcl & Hf).
  destruct (ring_current w' Hring') as (a' & sg' & Hcur & Hsg' & Hid' & Hlast'); [lia|].
  assert (Hlast : last (pl w') = tail (pl w)).
  { rewrite Hlast', Ecap, Eh, Hc, (filled_tail _ _ _ _ _ Hf). f_equal. lia. }
  assert (Hidx : index (Segments (pl w')) (last (pl w')) = Ret (Some (length (segs w)))).
  { rewrite Hlast, Epl.
    destruct (appended_fields (pl w)
                (mkSlice (<[Z.to_nat (tail (pl w)) := Some (length (segs w))]>
                            (elems (Segments (pl w)))) (spare (Segments (pl w)))) d)
      as (_ & _ & _ & _ & _ & -> & _).
    apply index_in_range; [lia|]. cbn [elems].
    apply list_lookup_insert_eq. unfold len in Htl. lia. }
  apply current_Ret in Hcur as [Hcur _]. rewrite Hidx in Hcur. injection Hcur as <-.
  rewrite Esegs, lookup_app_r, Nat.sub_diag in Hsg' by lia. injection Hsg' as <-.
  cbn [MediaSegment.SeqId] in Hid'. subst id.
  split; [now apply current_eq|]. split.
  { rewrite Esegs, Es, Hc.
    now replace (SeqNo (pl w) + (count (pl w) + 1) - 1) with (SeqNo (pl w) + count (pl w))
      by lia. }
  auto 10.
Qed.

(** X7. In a ring in working order that holds a live segment, the current
    segment, the one [p.Segments[p.last()]] that every setter of a segment
    writes to, is the newest one: it sits [count - 1] slots after the head
    and has sequence id [SeqNo + count - 1]. After a successful [Append]
    the current segment is the segment just appended, stored at the old
    [tail] with the next sequence id, [SeqNo + count]. *)
Theorem current_is_newest (w : World) :
  ring w ->
  (0 < count (pl w) ->
     exists a sg,
       current w = Ret (Some a, w) /\ segs w !! a = Some sg /\
       MediaSegment.SeqId sg = wrap64 (SeqNo (pl w) + count (pl w) - 1) /\
       last (pl w) = (head (pl w) + count (pl w) - 1) mod capacity (pl w)) /\
  (forall uri d t w',
     Append uri d t w = Ret (None, w') ->
     current w' = Ret (Some (length (segs w)), w') /\
     segs w' = segs w ++ [MediaSegment.set_SeqId (wrap64 (SeqNo (pl w) + count (pl w)))
                            (new_MediaSegment uri d t)] /\
     last (pl w') = tail (pl w)).
Proof.
  intros Hring. split; [apply ring_current, Hring|].
  intros uri d t w' Hrun.
  assert (Hroom : count (pl w) < capacity (pl w)).
  { destruct (ring_Append uri d t w Hring) as (r & w'' & Hrun' & _ & _ & Hfull).
    rewrite Hrun in Hrun'. injection Hrun' as <- <-.
    destruct Hring as (_ & _ & Hk & _).
    destruct (Z.eq_dec (count (pl w)) (capacity (pl w))) as [E|E]; [|lia].
    destruct (Hfull E) as [? _]. discriminate. }
  destruct (ring_Append_new uri d t w Hring Hroom) as (w'' & Hrun' & _ & H1 & H2 & H3 & _).
  rewrite Hrun in Hrun'. injection Hrun' as <-. auto.
Qed.

(** With A, B, C in the ring the current segment is C; on the new
    playlist, A is current once appended. *)
Lemma current_is_newest_witness :
  (exists w' a sg,
     run_ops [OpAppend "A.ts" (4 # 1) ""; OpAppend "B.ts" (6 # 1) "";
              OpAppend "C.ts" (5 # 1) ""] new_2_3 = Ret (tt, w') /\
     current w' = Ret (Some a, w') /\ segs w' !! a = Some sg /\
     MediaSegment.SeqId sg = 2 /\ MediaSegment.URI sg = "C.ts") /\
  (exists w', Append "A.ts" (4 # 1) "" new_2_3 = Ret (None, w') /\
              current w' = Ret (Some 0%nat, w')).
Proof.
  assert (Hnew : ring new_2_3).
  { apply (@ring_new GoEnv.go 2 3 empty_world); [vm_compute; reflexivity | lia]. }
  split.
  - destruct (run_ops_ring
                [OpAppend "A.ts" (4 # 1) ""; OpAppend "B.ts" (6 # 1) "";
                 OpAppend "C.ts" (5 # 1) ""] ltac:(repeat constructor) new_2_3 Hnew)
      as (w' & Hrun & Hring).
    destruct (current_is_newest w' Hring) as [Hcur _].
    destruct Hcur as (a & sg & Hc & Hsg & Hid & _).
    { vm_compute in Hrun. injection Hrun as <-. vm_compute. reflexivity. }
    exists w', a, sg. split; [exact Hrun|]. split; [exact Hc|]. split; [exact Hsg|].
    vm_compute in Hrun. injection Hrun as <-.
    vm_compute in Hc. injection Hc as <-.
    vm_compute in Hsg. injection Hsg as <-. split; reflexivity.
  - destruct (current_is_newest new_2_3 Hnew) as [_ Happ].
    eexists. split; [vm_compute; reflexivity|].
    lazymatch goal with |- current ?w' = _ =>
      destruct (Happ "A.ts" (4 # 1) "" w') as (H & _); [vm_compute; reflexivity | exact H] end.
Defined.

(** ** Sliding *)

(** X8. On a ring in working order whose window fits the capacity, [Slide]
    returns without panic and never loses the segment it is given: the
    segment is appended with the next sequence id and is the current
    segment afterwards. When the playlist already holds a window's worth of
    segments (and holds any), the oldest one is removed first, so [count]
    stays and [head] and [SeqNo] move on by one; otherwise [count] grows by
    one and [head] and [SeqNo] stay. *)
Theorem Slide_slides (uri : string) (d : float64) (t : string) (w : World) :
  ring w -> winsize (pl w) <= capacity (pl w) ->
  exists w',
    Slide uri d t w = Ret (tt, w') /\ ring w' /\
    current w' = Ret (Some (length (segs w)), w') /\
    segs w' = segs w ++ [MediaSegment.set_SeqId (wrap64 (SeqNo (pl w) + count (pl w)))
                           (new_MediaSegment uri d t)] /\
    (winsize (pl w) <= count (pl w) -> 0 < count (pl w) ->
       count (pl w') = count (pl w) /\
       head (pl w') = (head (pl w) + 1) mod capacity (pl w) /\
       SeqNo (pl w') = wrap64 (SeqNo (pl w) + 1)) /\
    (count (pl w) < winsize (pl w) \/ count (pl w) = 0 ->
       count (pl w') = count (pl w) + 1 /\
       head (pl w') = head (pl w) /\ SeqNo (pl w') = SeqNo (pl w)).
Proof.
  intros Hring Hwin. assert (Hring' := Hring).
  destruct Hring' as (HC & Hh & Hk & Hs & Hcl & Hf).
  unfold Slide. unfold bind at 1, getp. rewrite Hcl. cbn [negb andb].
  destruct (winsize (pl w) <=? count (pl w)) eqn:Hle.
  - apply Z.leb_le in Hle.
    destruct (Z.eq_dec (count (pl w)) 0) as [H0|Hpos].
    + unfold bind at 1. unfold bind at 1. rewrite (Remove_empty w H0). unfold ret at 1.
      destruct (ring_Append_new uri d t w Hring ltac:(lia))
        as (w' & Hrun & Hr' & Hcur & Hsegs & _ & Hc & Hhd & Hsq & _).
      exists w'. unfold bind. rewrite Hrun.
      split; [reflexivity|]. split; [exact Hr'|]. split; [exact Hcur|].
      split; [exact Hsegs|]. split; [intros; lia | auto].
    + assert (Hk' : 0 < count (pl w)) by lia.
      destruct (ring_Remove w Hring Hk')
        as (w1 & Hrem & Hring1 & Hc1 & Hh1 & Hs1 & Hcap1 & Hw1).
      apply Remove_fields in Hrem as Hf1.
      destruct Hf1 as (_ & _ & Esg & _).
      unfold bind at 1. unfold bind at 1. rewrite Hrem. unfold ret at 1.
      destruct (ring_Append_new uri d t w1 Hring1 ltac:(lia))
        as (w' & Hrun & Hr' & Hcur & Hsegs & _ & Hc & Hhd & Hsq & _).
      exists w'. unfold bind. rewrite Hrun.
      split; [reflexivity|]. split; [exact Hr'|].
      rewrite Esg in Hcur, Hsegs. split; [exact Hcur|]. split.
      { rewrite Hsegs, Hs1, Hc1, wrap64_idem_add. do 3 f_equal.
        now replace (SeqNo (pl w) + 1 + (count (pl w) - 1))
          with (SeqNo (pl w) + count (pl w)) by lia. }
      split; [intros _ _; rewrite Hc, Hhd, Hsq, Hc1, Hh1, Hs1; repeat split; lia|].
      intros [Hlt|Hz]; lia.
  - apply Z.leb_gt in Hle. unfold bind at 1, ret at 1.
    destruct (ring_Append_new uri d t w Hring ltac:(lia))
      as (w' & Hrun & Hr' & Hcur & Hsegs & _ & Hc & Hhd & Hsq & _).
    exists w'. unfold bind. rewrite Hrun.
    split; [reflexivity|]. split; [exact Hr'|]. split; [exact Hcur|].
    split; [exact Hsegs|]. split; [intros; lia | auto].
Qed.

(** With A and B in a ring of capacity 3 and a window of 2, a slide of
    C removes A: two segments stay, the head is at slot 1, and C is
    current with sequence id 2. *)
Lemma Slide_slides_witness :
  exists w0 w',
    run_ops [OpAppend "A.ts" (4 # 1) ""; OpAppend "B.ts" (6 # 1) ""] new_2_3 = Ret (tt, w0) /\
    Slide "C.ts" (5 # 1) "" w0 = Ret (tt, w') /\
    count (pl w') = 2 /\ head (pl w') = 1 /\ SeqNo (pl w') = 1 /\
    current w' = Ret (Some 2%nat, w') /\
    (MediaSegment.SeqId <$> segs w' !! 2%nat) = Some 2.
Proof.
  assert (Hnew : ring new_2_3).
  { apply (@ring_new GoEnv.go 2 3 empty_world); [vm_compute; reflexivity | lia]. }
  destruct (run_ops_ring [OpAppend "A.ts" (4 # 1) ""; OpAppend "B.ts" (6 # 1) ""]
              ltac:(repeat constructor) new_2_3 Hnew) as (w0 & Hrun & Hring).
  assert (Hwin : winsize (pl w0) <= capacity (pl w0)).
  { vm_compute in Hrun. injection Hrun as <-. vm_compute. discriminate. }
  destruct (Slide_slides "C.ts" (5 # 1) "" w0 Hring Hwin)
    as (w' & Hs & _ & Hcur & Hsegs & Hfull & _).
  exists w0, w'. split; [exact Hrun|]. split; [exact Hs|].
  destruct Hfull as (Hc & Hh & Hq).
  { vm_compute in Hrun. injection Hrun as <-. vm_compute. discriminate. }
  { vm_compute in Hrun. injection Hrun as <-. vm_compute. reflexivity. }
  rewrite Hc, Hh, Hq, Hsegs. vm_compute in Hrun. injection Hrun as <-.
  split; [vm_compute; reflexivity|]. split; [vm_compute; reflexivity|].
  split; [vm_compute; reflexivity|]. split; [exact Hcur|].
  vm_compute. reflexivity.
Defined.

(** X9. On a closed playlist that is full, [Slide] returns normally and
    leaves the playlist as it was: nothing is removed from a closed
    playlist, the append is refused with [ErrPlaylistFull], and [Slide],
    which has no result, does not report it. All that is left is the
    unreferenced segment [Append] had made. *)
Theorem Slide_on_closed_full (uri : string) (d : float64) (t : string) (w : World) :
  Closed (pl w) = true -> head (pl w) = tail (pl w) -> 0 < count (pl w) ->
  Slide uri d t w =
  Ret (tt, mkWorld (segs w ++ [new_MediaSegment uri d t]) (keys w) (pl w)).
Proof.
  intros Hcl Hht Hc. unfold Slide. unfold bind at 1, getp. rewrite Hcl. cbn [negb andb].
  unfold bind at 1, ret at 1. unfold bind at 1.
  rewrite Append_unfold, AppendSegment_full by (simpl; assumption). reflexivity.
Qed.

(** A full playlist of A, B, C, closed: a slide of D changes nothing in
    the playlist. *)
Lemma Slide_on_closed_full_witness :
  exists w w',
    (append_ABC ;; Close) new_2_3 = Ret (tt, w) /\
    Slide "D.ts" (5 # 1) "" w = Ret (tt, w') /\ pl w' = pl w /\ count (pl w') = 3.
Proof.
  eexists _, _. split; [vm_compute; reflexivity|].
  split; [apply Slide_on_closed_full; vm_compute; reflexivity|].
  split; vm_compute; reflexivity.
Defined.

(** ** What the setters of a segment write *)





(** ** The protocol version *)

Lemma version_max v n : version v n = Z.max v n.
Proof. unfold version. destruct (v <? n) eqn:E; [apply Z.ltb_lt in E | apply Z.ltb_ge in E]; lia. Qed.

Lemma ver_set_ver v p : ver (set_ver v p) = v.
Proof. now destruct p. Qed.

Lemma str_empty_false (s : string) : s <> "" -> str_empty s = false.
Proof. intros H. unfold str_empty. now apply String.eqb_neq. Qed.

Lemma str_empty_true (s : string) : str_empty s = true <-> s = "".
Proof. unfold str_empty. apply String.eqb_eq. Qed.

Lemma keeps_ver_update x f (w w' : World) u :
  update x f w = Ret (u, w') -> ver (pl w') = ver (pl w).
Proof. intros H. apply keeps_pl_update in H. now rewrite H. Qed.

Lemma key_version_ver kf kfv (w w' : World) u :
  (if negb (str_empty kf) || negb (str_empty kfv)
   then modp (fun p => set_ver (version (ver p) 5) p) else ret tt) w = Ret (u, w') ->
  ver (pl w) <= ver (pl w') /\
  (kf <> "" \/ kfv <> "" -> 5 <= ver (pl w')) /\
  (kf = "" -> kfv = "" -> ver (pl w') = ver (pl w)).
Proof.
  destruct (str_empty kf) eqn:E1; destruct (str_empty kfv) eqn:E2; cbn [negb orb]; intros H.
  - apply ret_Ret in H as [_ ->]. apply str_empty_true in E1, E2.
    split; [lia|]. split; [intros [?|?]; contradiction | reflexivity].
  - apply modp_Ret in H as ->. cbn [pl]. rewrite ver_set_ver, version_max.
    split; [lia|]. split; [lia|]. intros _ ->. discriminate.
  - apply modp_Ret in H as ->. cbn [pl]. rewrite ver_set_ver, version_max.
    split; [lia|]. split; [lia|]. intros ->. discriminate.
  - apply modp_Ret in H as ->. cbn [pl]. rewrite ver_set_ver, version_max.
    split; [lia|]. split; [lia|]. intros ->. discriminate.
Qed.

Lemma Master_Append_ver uri chunklist params (p : MasterPlaylist.t) :
  MasterPlaylist.ver (Master.Append uri chunklist params p) =
  if 0 <? Z.of_nat (length (VariantParams.Alternatives params))
  then version (MasterPlaylist.ver p) 4 else MasterPlaylist.ver p.
Proof.
  unfold Master.Append. cbn [Variant.Params].
  destruct (0 <? _); now destruct p.
Qed.

(** X11. The calls that switch a feature on never lower the protocol
    version and leave it at least at the version the feature needs: 3 for
    integer durations, 4 for I-frame playlists and byte ranges, 5 for maps
    and for keys with a key format or key-format versions; a key without
    them leaves the version alone. [SetVersion] is the one call that sets
    the version to what it is given, lower or not. A master playlist is
    raised to 4 by a variant with alternatives and left alone by one
    without. *)
Theorem feature_versions {env : Env} (w w' : World) :
  (forall yes, DurationAsInt yes w = Ret (tt, w') ->
     ver (pl w) <= ver (pl w') /\ (yes = true -> 3 <= ver (pl w')) /\
     (yes = false -> ver (pl w') = ver (pl w))) /\
  (SetIframeOnly w = Ret (tt, w') -> ver (pl w) <= ver (pl w') /\ 4 <= ver (pl w')) /\
  (forall uri l o, SetDefaultMap uri l o w = Ret (tt, w') ->
     ver (pl w) <= ver (pl w') /\ 5 <= ver (pl w')) /\
  (forall m u iv kf kfv r, SetDefaultKey m u iv kf kfv w = Ret (r, w') ->
     ver (pl w) <= ver (pl w') /\ (kf <> "" \/ kfv <> "" -> 5 <= ver (pl w')) /\
     (kf = "" -> kfv = "" -> ver (pl w') = ver (pl w))) /\
  (forall m u iv kf kfv, SetKey m u iv kf kfv w = Ret (None, w') ->
     ver (pl w) <= ver (pl w') /\ (kf <> "" \/ kfv <> "" -> 5 <= ver (pl w')) /\
     (kf = "" -> kfv = "" -> ver (pl w') = ver (pl w))) /\
  (forall u l o, SetMap u l o w = Ret (None, w') ->
     ver (pl w) <= ver (pl w') /\ 5 <= ver (pl w')) /\
  (forall l o, SetRange l o w = Ret (None, w') ->
     ver (pl w) <= ver (pl w') /\ 4 <= ver (pl w')) /\
  (forall v, SetVersion v w = Ret (tt, w') -> ver (pl w') = v) /\
  (forall uri chunklist params (p : MasterPlaylist.t),
     let p' := Master.Append uri chunklist params p in
     MasterPlaylist.ver p <= MasterPlaylist.ver p' /\
     (VariantParams.Alternatives params <> [] -> 4 <= MasterPlaylist.ver p') /\
     (VariantParams.Alternatives params = [] -> MasterPlaylist.ver p' = MasterPlaylist.ver p)).
Proof.
  repeat match goal with |- _ /\ _ => split end.
  - intros yes H. unfold DurationAsInt in H.
    apply bind_Ret in H as (u & w1 & H1 & H). apply modp_Ret in H as ->. cbn [pl].
    replace (ver (set_durationAsInt yes (pl w1))) with (ver (pl w1)) by (now destruct (pl w1)).
    destruct yes.
    + apply modp_Ret in H1 as ->. cbn [pl]. rewrite ver_set_ver, version_max.
      split; [lia|]. split; [lia | discriminate].
    + apply ret_Ret in H1 as [_ ->]. split; [lia|]. split; [discriminate | reflexivity].
  - intros H. unfold SetIframeOnly in H.
    apply bind_Ret in H as (u & w1 & H1 & H). apply modp_Ret in H as ->.
    apply modp_Ret in H1 as ->. cbn [pl].
    replace (ver (set_Iframe true (set_ver (version (ver (pl w)) 4) (pl w))))
      with (version (ver (pl w)) 4) by (now destruct (pl w)).
    rewrite version_max. lia.
  - intros uri l o H. unfold SetDefaultMap in H.
    apply bind_Ret in H as (u & w1 & H1 & H). apply modp_Ret in H as ->.
    apply modp_Ret in H1 as ->. cbn [pl].
    replace (ver (set_Map (Some (Map.mk uri l o)) (set_ver (version (ver (pl w)) 5) (pl w))))
      with (version (ver (pl w)) 5) by (now destruct (pl w)).
    rewrite version_max. lia.
  - intros m u iv kf kfv r H. unfold SetDefaultKey in H.
    apply bind_Ret in H as (u1 & w1 & H1 & H). apply key_version_ver in H1.
    apply bind_Ret in H as (k & w2 & H2 & H). apply new_key_Ret in H2 as [-> ->].
    apply bind_Ret in H as (u3 & w3 & H3 & H). apply modp_Ret in H3 as ->.
    apply ret_Ret in H as [_ ->]. cbn [pl].
    replace (ver (set_Key (Some (length (keys w1))) (pl w1))) with (ver (pl w1))
      by (now destruct (pl w1)).
    exact H1.
  - intros m u iv kf kfv H. unfold SetKey in H.
    apply bind_Ret in H as (p & w0 & Hg & H). apply getp_Ret in Hg as [-> ->].
    destruct (count (pl w) =? 0); [apply ret_Ret in H as [? _]; discriminate|].
    apply bind_Ret in H as (u1 & w1 & H1 & H). apply key_version_ver in H1.
    apply bind_Ret in H as (x & w2 & H2 & H). apply current_Ret in H2 as [_ ->].
    apply bind_Ret in H as (k & w3 & H3 & H). apply new_key_Ret in H3 as [-> ->].
    apply bind_Ret in H as (u4 & w4 & H4 & H). apply keeps_ver_update in H4.
    apply ret_Ret in H as [_ ->]. cbn [pl] in H4. rewrite H4. exact H1.
  - intros u l o H. unfold SetMap in H.
    apply bind_Ret in H as (p & w0 & Hg & H). apply getp_Ret in Hg as [-> ->].
    destruct (count (pl w) =? 0); [apply ret_Ret in H as [? _]; discriminate|].
    apply bind_Ret in H as (u1 & w1 & H1 & H). apply modp_Ret in H1 as ->.
    apply bind_Ret in H as (x & w2 & H2 & H). apply current_Ret in H2 as [_ ->].
    apply bind_Ret in H as (u4 & w4 & H4 & H). apply keeps_ver_update in H4.
    apply ret_Ret in H as [_ ->]. cbn [pl] in H4. rewrite H4, ver_set_ver, version_max. lia.
  - intros l o H. unfold SetRange in H.
    apply bind_Ret in H as (p & w0 & Hg & H). apply getp_Ret in Hg as [-> ->].
    destruct (count (pl w) =? 0); [apply ret_Ret in H as [? _]; discriminate|].
    apply bind_Ret in H as (u1 & w1 & H1 & H). apply modp_Ret in H1 as ->.
    apply bind_Ret in H as (x & w2 & H2 & H). apply current_Ret in H2 as [_ ->].
    apply bind_Ret in H as (u4 & w4 & H4 & H). apply keeps_ver_update in H4.
    apply bind_Ret in H as (x5 & w5 & H5 & H). apply current_Ret in H5 as [_ ->].
    apply bind_Ret in H as (u6 & w6 & H6 & H). apply keeps_ver_update in H6.
    apply ret_Ret in H as [_ ->]. cbn [pl] in H4. rewrite H6, H4, ver_set_ver, version_max. lia.
  - intros v H. unfold SetVersion in H. apply modp_Ret in H as ->. cbn [pl].
    apply ver_set_ver.
  - intros uri chunklist params p p'. subst p'. rewrite Master_Append_ver.
    destruct (VariantParams.Alternatives params) as [|x l]; cbn [length].
    + change (0 <? Z.of_nat 0) with false. cbv iota.
      split; [lia|]. split; [congruence | reflexivity].
    + replace (0 <? Z.of_nat (S (length l))) with true by (symmetry; apply Z.ltb_lt; lia).
      rewrite version_max. split; [lia|]. split; [lia | discriminate].
Qed.

(** On a playlist of version 3 with A appended, [SetRange] gives version
    4 and [SetKey] with a key format version 5; a master playlist gets
    version 4 with its first variant that has an alternative. *)
Lemma feature_versions_witness :
  ver (pl world_A) = 3 /\
  (exists w', SetRange 100 0 world_A = Ret (None, w') /\ 4 <= ver (pl w')) /\
  (exists w', SetKey "AES-128" "k" "" "identity" "" world_A = Ret (None, w') /\
              5 <= ver (pl w')) /\
  4 <= MasterPlaylist.ver master_two.
Proof.
  split; [vm_compute; reflexivity|]. split; [|split].
  - eexists. split; [vm_compute; reflexivity|].
    lazymatch goal with |- _ <= ver (pl ?w') =>
      destruct (@feature_versions GoEnv.go world_A w')
        as (_ & _ & _ & _ & _ & _ & H & _) end.
    apply (H 100 0). vm_compute. reflexivity.
  - eexists. split; [vm_compute; reflexivity|].
    lazymatch goal with |- _ <= ver (pl ?w') =>
      destruct (@feature_versions GoEnv.go world_A w')
        as (_ & _ & _ & _ & H & _) end.
    destruct (H "AES-128" "k" "" "identity" "") as (_ & H5 & _); [vm_compute; reflexivity|].
    apply H5. left. discriminate.
  - destruct (@feature_versions GoEnv.go empty_world empty_world)
      as (_ & _ & _ & _ & _ & _ & _ & _ & H).
    destruct (H "hi.m3u8" None (params_of 2000000)
                (Master.Append "lo.m3u8" None (params_of 500000)
                   (@Master.NewMasterPlaylist GoEnv.go))) as (_ & H4 & _).
    apply H4. discriminate.
Defined.

(** ** Date ranges *)

Lemma check_DateRange_IDs_named drs :
  check_DateRange_IDs drs = Ret None <-> Forall named drs.
Proof.
  induction drs as [|[dr|] drs IH]; cbn [check_DateRange_IDs].
  - split; [constructor | reflexivity].
  - destruct (str_empty (DateRange.ID dr)) eqn:E.
    + apply str_empty_true in E. split; [discriminate|].
      intros H. apply Forall_cons in H as [(dr' & Hd & Hid) _]. injection Hd as <-. contradiction.
    + rewrite IH. split.
      * intros H. constructor; [|exact H]. exists dr. split; [reflexivity|].
        intros Hid. apply str_empty_true in Hid. congruence.
      * intros H. now apply Forall_cons in H as [_ H].
  - split; [discriminate|].
    intros H. apply Forall_cons in H as [(dr' & Hd & _) _]. discriminate.
Qed.

Lemma check_DateRange_IDs_error drs e :
  check_DateRange_IDs drs = Ret (Some e) ->
  e = errors_New "DateRange ID" /\ exists dr, Some dr ∈ drs /\ DateRange.ID dr = "".
Proof.
  induction drs as [|[dr|] drs IH]; cbn [check_DateRange_IDs]; try discriminate.
  destruct (str_empty (DateRange.ID dr)) eqn:E.
  - apply str_empty_true in E. intros H. injection H as <-. split; [reflexivity|].
    exists dr. split; [apply elem_of_cons; now left | exact E].
  - intros H. destruct (IH H) as (-> & dr' & Hin & Hid). split; [reflexivity|].
    exists dr'. split; [apply elem_of_cons; now right | exact Hid].
Qed.

Lemma encode_dateranges_named {env : Env} drs :
  Forall named drs -> exists out, encode_dateranges drs = Ret out.
Proof.
  induction 1 as [|x drs (dr & -> & _) _ [out IH]]; cbn [encode_dateranges].
  - eauto.
  - rewrite IH. cbn [res_bind]. eauto.
Qed.

Lemma ranges_named_insert (w : World) a s drs :
  ranges_named w -> Forall named drs ->
  ranges_named (mkWorld (<[a := MediaSegment.set_DateRange drs s]> (segs w)) (keys w) (pl w)).
Proof.
  intros Hw Hd b sb. cbn [segs]. intros Hb.
  destruct (decide (a = b)) as [<-|Hne].
  - apply list_lookup_insert_Some in Hb as [(_ & <- & _)|(Hne & _)]; [|congruence].
    now destruct s.
  - rewrite list_lookup_insert_ne in Hb by exact Hne. eapply Hw, Hb.
Qed.

(** X12. [SetDateRange] and [AppendDateRange] take date ranges with an id
    only: the check returns nil exactly when every range of the list is
    there and has a non-empty id, and its error is "DateRange ID", for a
    range of the list whose id is empty. So a list these setters have
    stored is one the encoder writes without panic, and a store in which
    every date range has an id stays such under both setters. *)
Theorem DateRange_ids_checked {env : Env} (drs : list (option DateRange.t)) :
  (check_DateRange_IDs drs = Ret None <-> Forall named drs) /\
  (forall e, check_DateRange_IDs drs = Ret (Some e) ->
     e = errors_New "DateRange ID" /\ exists dr, Some dr ∈ drs /\ DateRange.ID dr = "") /\
  (forall w w', SetDateRange drs w = Ret (None, w') ->
     Forall named drs /\ (exists out, encode_dateranges drs = Ret out) /\
     (ranges_named w -> ranges_named w')) /\
  (forall w e w', SetDateRange drs w = Ret (Some e, w') ->
     (count (pl w) = 0 /\ e = playlist_is_empty) \/
     (e = errors_New "DateRange ID" /\ exists dr, Some dr ∈ drs /\ DateRange.ID dr = "")) /\
  (forall dr w w', AppendDateRange dr w = Ret (None, w') ->
     named dr /\ (ranges_named w -> ranges_named w')).
Proof.
  split; [apply check_DateRange_IDs_named|].
  split; [apply check_DateRange_IDs_error|].
  split; [|split].
  - intros w w' H. unfold SetDateRange in H.
    apply bind_Ret in H as (p & w0 & Hg & H). apply getp_Ret in Hg as [-> ->].
    destruct (count (pl w) =? 0); [apply ret_Ret in H as [? _]; discriminate|].
    apply bind_Ret in H as (bad & w1 & H1 & H). apply lift_Ret in H1 as [Hchk ->].
    destruct bad as [err|]; [apply ret_Ret in H as [? _]; discriminate|].
    apply check_DateRange_IDs_named in Hchk.
    split; [exact Hchk|]. split; [now apply encode_dateranges_named|].
    apply bind_Ret in H as (x & w2 & H2 & H). apply current_Ret in H2 as [_ ->].
    apply bind_Ret in H as (u & w3 & H3 & H). apply ret_Ret in H as [_ ->].
    apply update_Ret in H3 as (a & s & _ & _ & ->).
    intros Hw. now apply ranges_named_insert.
  - intros w e w' H. unfold SetDateRange in H.
    apply bind_Ret in H as (p & w0 & Hg & H). apply getp_Ret in Hg as [-> ->].
    destruct (count (pl w) =? 0) eqn:E0.
    { apply ret_Ret in H as [H _]. injection H as <-. apply Z.eqb_eq in E0. now left. }
    apply bind_Ret in H as (bad & w1 & H1 & H). apply lift_Ret in H1 as [Hchk ->].
    destruct bad as [err|].
    + apply ret_Ret in H as [H _]. injection H as <-. right.
      now apply check_DateRange_IDs_error.
    + apply bind_Ret in H as (x & w2 & H2 & H).
      apply bind_Ret in H as (u & w3 & H3 & H). apply ret_Ret in H as [? _]. discriminate.
  - intros dr w w' H. unfold AppendDateRange in H.
    apply bind_Ret in H as (p & w0 & Hg & H). apply getp_Ret in Hg as [-> ->].
    destruct (count (pl w) =? 0); [apply ret_Ret in H as [? _]; discriminate|].
    apply bind_Ret in H as (bad & w1 & H1 & H). apply lift_Ret in H1 as [Hchk ->].
    destruct bad as [err|]; [apply ret_Ret in H as [? _]; discriminate|].
    apply check_DateRange_IDs_named in Hchk. apply Forall_cons in Hchk as [Hdr _].
    split; [exact Hdr|].
    apply bind_Ret in H as (x & w2 & H2 & H). apply current_Ret in H2 as [_ ->].
    apply bind_Ret in H as (seg & w3 & H3 & H). apply load_Ret in H3 as [Hseg ->].
    apply bind_Ret in H as (u & w4 & H4 & H). apply ret_Ret in H as [_ ->].
    apply update_Ret in H4 as (a & s & -> & Hs & ->).
    intros Hw. apply ranges_named_insert; [exact Hw|].
    apply deref_Ret in Hseg as (a' & Ha & Hs'). injection Ha as <-.
    apply Forall_app. split; [eapply Hw, Hs' | now constructor].
Qed.

(** A range without an id is refused, one with an id is stored and
    encodes. *)
Lemma DateRange_ids_checked_witness :
  (exists dr, Some dr ∈ [Some ad_break; Some nameless_range] /\ DateRange.ID dr = "") /\
  (exists w', SetDateRange [Some ad_break] world_A = Ret (None, w') /\
              exists out, @encode_dateranges GoEnv.go [Some ad_break] = Ret out).
Proof.
  split.
  - destruct (@DateRange_ids_checked GoEnv.go [Some ad_break; Some nameless_range])
      as (_ & H & _).
    apply (H (errors_New "DateRange ID")). vm_compute. reflexivity.
  - eexists. split; [vm_compute; reflexivity|].
    destruct (@DateRange_ids_checked GoEnv.go [Some ad_break]) as (_ & _ & H & _).
    lazymatch goal with |- exists out, _ =>
      lazymatch type of H with forall w w', _ =>
        eapply (H world_A) end end.
    vm_compute. reflexivity.
Defined.

Lemma cat_cons (x : string) (l : list string) : cat (x :: l) = x +:+ cat l.
Proof.
  unfold cat. destruct l as [|y l]; cbn [String.concat].
  - now rewrite append_nil_r.
  - reflexivity.
Qed.

Lemma cat_app (l1 l2 : list string) : cat (l1 ++ l2) = cat l1 +:+ cat l2.
Proof.
  induction l1 as [|x l1 IH]; [reflexivity|].
  cbn [app]. now rewrite !cat_cons, IH, append_assoc.
Qed.

Lemma prefix_app (s b : string) : String.prefix s (s +:+ b) = true.
Proof.
  induction s as [|c s IH]; [now destruct b|].
  change (String c s +:+ b) with (String c (s +:+ b)). cbn [String.prefix].
  destruct (ascii_dec c c) as [_|Hne]; [exact IH | now destruct Hne].
Qed.

Lemma strings_Contains_middle (a s b : string) :
  strings_Contains (a +:+ s +:+ b) s = true.
Proof.
  induction a as [|c a IH].
  - change ("" +:+ s +:+ b) with (s +:+ b).
    pose proof (prefix_app s b) as H.
    destruct (s +:+ b); cbn [strings_Contains]; now rewrite H.
  - change (String c a +:+ s +:+ b) with (String c (a +:+ s +:+ b)).
    cbn [strings_Contains]. rewrite IH. apply orb_true_r.
Qed.

(** X13. The attributes X-RESUME-OFFSET and X-PLAYOUT-LIMIT of a date
    range are written with the value of the range's [Duration]. For a
    range whose attribute map has at most one entry, the tag is one text
    before and one text after the two attributes whatever the fields
    [XResumeOfsset] and [XPlayoutLimit] hold, and between them stands, for
    each of the two fields that is positive, the attribute with the
    rendering of [Duration]: what the two fields hold decides whether the
    attributes are written, not what they say. *)
Theorem daterange_offsets_carry_duration {env : Env} (dr : DateRange.t) :
  one_entry (DateRange.X dr) = true ->
  let duration := strconv_FormatFloat (DateRange.Duration dr) ffmt (-1) 64 in
  let offsets (resume limit : float64) :=
    (if float_lt (0%Q) resume then ",X-RESUME-OFFSET=" +:+ duration else "") +:+
    (if float_lt (0%Q) limit then ",X-PLAYOUT-LIMIT=" +:+ duration else "") in
  exists pre post,
    encode_daterange dr =
      pre +:+ offsets (DateRange.XResumeOfsset dr) (DateRange.XPlayoutLimit dr) +:+ post /\
    (forall resume limit,
       encode_daterange (with_offsets resume limit dr) =
       pre +:+ offsets resume limit +:+ post) /\
    (float_lt (0%Q) (DateRange.XResumeOfsset dr) = true ->
       strings_Contains (encode_daterange dr) (",X-RESUME-OFFSET=" +:+ duration) = true) /\
    (float_lt (0%Q) (DateRange.XPlayoutLimit dr) = true ->
       strings_Contains (encode_daterange dr) (",X-PLAYOUT-LIMIT=" +:+ duration) = true).
Proof.
  intros _ duration offsets.
  set (before := [ "#EXT-X-DATERANGE:"; "ID="; dq; DateRange.ID dr; dq;
        attr_quoted ",CLASS=" (DateRange.Class dr);
        if negb (Time.IsZero (DateRange.StartDate dr))
        then cat [",START-DATE="; dq; time_Format (DateRange.StartDate dr) DATETIME; dq] else "";
        if negb (Time.IsZero (DateRange.EndDate dr))
        then cat [",END-DATE="; dq; time_Format (DateRange.EndDate dr) DATETIME; dq] else "";
        if float_lt (0%Q) (DateRange.Duration dr)
        then cat [",DURATION="; strconv_FormatFloat (DateRange.Duration dr) ffmt (-1) 64] else "";
        if float_lt (0%Q) (DateRange.PlannedDuration dr)
        then cat [",PLANNED-DURATION=";
                  strconv_FormatFloat (DateRange.PlannedDuration dr) ffmt (-1) 64] else "";
        attr_plain ",SCTE35-CMD=" (DateRange.SCTE35Cmd dr);
        attr_plain ",SCTE35-IN=" (DateRange.SCTE35In dr);
        attr_plain ",SCTE35-OUT=" (DateRange.SCTE35Out dr);
        attr_quoted ",END-ON-NEXT=" (DateRange.EndOnNext dr) ]).
  set (after := [ attr_quoted ",X-SNAP=" (DateRange.XSnap dr);
        attr_quoted ",X-RESTRICT=" (DateRange.XRestrict dr);
        attr_quoted ",X-ASSET-URI=" (DateRange.XAssetURI dr);
        attr_quoted ",X-ASSET-LIST=" (DateRange.XAssetList dr);
        cat (map (fun kv : string * string => cat [","; fst kv; "="; dq; snd kv; dq])
               (map_to_list (DateRange.X dr)));
        nl ]).
  set (pre := cat before). set (post := cat after).
  assert (Hall : forall resume limit,
            encode_daterange (with_offsets resume limit dr) =
            pre +:+ offsets resume limit +:+ post).
  { intros resume limit.
    transitivity
      (cat (before ++
            [ if float_lt (0%Q) resume
              then cat [",X-RESUME-OFFSET="; duration] else "";
              if float_lt (0%Q) limit
              then cat [",X-PLAYOUT-LIMIT="; duration] else "" ] ++ after)).
    { reflexivity. }
    rewrite !cat_app. subst pre post offsets. cbv beta. f_equal. }
  assert (Hdr : encode_daterange dr =
                pre +:+ offsets (DateRange.XResumeOfsset dr) (DateRange.XPlayoutLimit dr)
                +:+ post).
  { rewrite <- Hall. now destruct dr. }
  exists pre, post. split; [exact Hdr|]. split; [exact Hall|]. split.
  - intros Hpos. rewrite Hdr. subst offsets. cbv beta. rewrite Hpos.
    set (attr := ",X-RESUME-OFFSET=" +:+ duration).
    rewrite (append_assoc attr). apply strings_Contains_middle.
  - intros Hpos. rewrite Hdr. subst offsets. cbv beta. rewrite Hpos.
    set (attr := ",X-PLAYOUT-LIMIT=" +:+ duration).
    rewrite (append_assoc _ attr), <- (append_assoc pre).
    apply strings_Contains_middle.
Qed.

(** A range of 30 s with a resume offset of 10 and a playout limit of 20:
    both attributes say 30, and so they do with offsets of 1. *)
Lemma daterange_offsets_carry_duration_witness :
  exists pre post,
    @encode_daterange GoEnv.go ad_break =
      pre +:+ (",X-RESUME-OFFSET=30" +:+ ",X-PLAYOUT-LIMIT=30") +:+ post /\
    @encode_daterange GoEnv.go ad_break_1 =
      pre +:+ (",X-RESUME-OFFSET=30" +:+ ",X-PLAYOUT-LIMIT=30") +:+ post.
Proof.
  destruct (@daterange_offsets_carry_duration GoEnv.go ad_break)
    as (pre & post & Hdr & Hall & _); [vm_compute; reflexivity|].
  exists pre, post. split.
  - exact Hdr.
  - exact (Hall (1 # 1)%Q (1 # 1)%Q).
Defined.

(** ** The master encoder *)

Lemma encode_alternatives_Some (alt : Alternative.t) rest (S : gset string) :
  Master.encode_alternatives (Some alt :: rest) S =
  if bool_decide (altKey alt ∈ S) then Master.encode_alternatives rest S
  else
    let+ more := Master.encode_alternatives rest ({[altKey alt]} ∪ S) in
    Ret (Master.encode_alternative alt +:+ fst more, snd more).
Proof. reflexivity. Qed.

Lemma encode_alternatives_repeat (l1 l2 : list (option Alternative.t))
  (alt : Alternative.t) :
  forall S : gset string,
    altKey alt ∈ S \/ (exists alt0, Some alt0 ∈ l1 /\ altKey alt0 = altKey alt) ->
    Master.encode_alternatives (l1 ++ Some alt :: l2) S =
    Master.encode_alternatives (l1 ++ l2) S.
Proof.
  induction l1 as [|[x|] l1 IH]; intros S H.
  - destruct H as [H|(alt0 & Hin & _)]; [|now apply elem_of_nil in Hin].
    cbn [app]. rewrite encode_alternatives_Some. now rewrite bool_decide_eq_true_2.
  - cbn [app]. rewrite !encode_alternatives_Some.
    destruct (bool_decide (altKey x ∈ S)) eqn:E.
    + apply IH. destruct H as [H|(alt0 & Hin & Hk)]; [now left|].
      apply elem_of_cons in Hin as [Hin|Hin].
      * injection Hin as ->. left. rewrite <- Hk. now apply bool_decide_eq_true in E.
      * right. eauto.
    + rewrite IH; [reflexivity|].
      destruct H as [H|(alt0 & Hin & Hk)]; [left; set_solver|].
      apply elem_of_cons in Hin as [Hin|Hin].
      * injection Hin as ->. left. rewrite <- Hk. set_solver.
      * right. eauto.
  - reflexivity.
Qed.

Lemma encode_alternatives_again (l : list (option Alternative.t)) :
  forall (S S' : gset string) out,
    Master.encode_alternatives l S = Ret (out, S') ->
    S ⊆ S' /\ Master.encode_alternatives l S' = Ret ("", S').
Proof.
  induction l as [|[x|] l IHl]; intros S S' out H.
  - injection H as <- <-. auto.
  - rewrite encode_alternatives_Some in H. rewrite encode_alternatives_Some.
    destruct (bool_decide (altKey x ∈ S)) eqn:E.
    + apply bool_decide_eq_true in E. pose proof (IHl _ _ _ H) as [Hsub Hagain]. clear IHl.
      split; [exact Hsub|]. rewrite bool_decide_eq_true_2 by set_solver. exact Hagain.
    + apply res_bind_Ret in H as ([o S''] & Hmore & H). injection H as <- <-.
      pose proof (IHl _ _ _ Hmore) as [Hsub Hagain]. clear IHl. cbn [snd] in *.
      split; [set_solver|]. rewrite bool_decide_eq_true_2 by set_solver. exact Hagain.
  - discriminate.
Qed.

(** X14. The master encoder writes an alternative once: an alternative
    whose type, group, name and language are those of one already written
    ([altsWritten]), or of one earlier in the list, is left out, and the
    output is what it is without it. After the alternatives of a variant
    are written, writing the same list again, as for a later variant that
    shares them, adds nothing. *)
Theorem alternatives_written_once (S : gset string) :
  (forall l1 l2 alt,
     altKey alt ∈ S \/ (exists alt0, Some alt0 ∈ l1 /\ altKey alt0 = altKey alt) ->
     Master.encode_alternatives (l1 ++ Some alt :: l2) S =
     Master.encode_alternatives (l1 ++ l2) S) /\
  (forall l out S',
     Master.encode_alternatives l S = Ret (out, S') ->
     S ⊆ S' /\ (forall alt, Some alt ∈ l -> altKey alt ∈ S') /\
     Master.encode_alternatives l S' = Ret ("", S')).
Proof.
  split; [intros l1 l2 alt; apply encode_alternatives_repeat|].
  intros l out S' H. destruct (encode_alternatives_again l S S' out H) as [Hsub Hagain].
  split; [exact Hsub|]. split; [|exact Hagain].
  clear Hsub Hagain. revert S out H.
  induction l as [|[x|] l IH]; intros S out H alt Hin.
  - now apply elem_of_nil in Hin.
  - rewrite encode_alternatives_Some in H.
    apply elem_of_cons in Hin as [Hin|Hin].
    + injection Hin as ->.
      destruct (bool_decide (altKey x ∈ S)) eqn:E.
      * apply bool_decide_eq_true in E.
        destruct (encode_alternatives_again l S S' out H) as [Hsub _]. set_solver.
      * apply res_bind_Ret in H as ([o S''] & Hmore & H). injection H as _ <-.
        destruct (encode_alternatives_again l _ _ _ Hmore) as [Hsub _]. cbn [snd].
        set_solver.
    + destruct (bool_decide (altKey x ∈ S)).
      * eapply IH; eauto.
      * apply res_bind_Ret in H as ([o S''] & Hmore & H). injection H as _ <-.
        eapply IH; eauto.
  - discriminate.
Qed.

(** The alternative the two variants of [master_two] share is written for
    the first and not again for the second: the playlist has one
    EXT-X-MEDIA line. *)
Lemma alternatives_written_once_witness :
  Master.encode_alternatives ([Some audio_en] ++ Some audio_en :: []) ∅ =
  Master.encode_alternatives ([Some audio_en] ++ []) ∅ /\
  (exists out, output (@Master.Encode GoEnv.go master_two) = Some out /\
               occurrences "#EXT-X-MEDIA:" out = 1%nat /\
               occurrences "#EXT-X-STREAM-INF:" out = 2%nat).
Proof.
  split.
  - destruct (alternatives_written_once ∅) as [H _].
    apply H. right. exists audio_en. split; [apply elem_of_cons; now left | reflexivity].
  - eexists. split; [vm_compute; reflexivity|]. split; vm_compute; reflexivity.
Defined.

Lemma encode_session_Some {env : Env} (sd : SessionData.t) rest (S : gset string) :
  Master.encode_session (Some sd :: rest) S =
  if negb (str_empty (SessionData.Language sd)) then
    if bool_decide (languageWrittenKey sd ∈ S) then Master.encode_session rest S
    else
      let+ more := Master.encode_session rest ({[languageWrittenKey sd]} ∪ S) in
      Ret (Master.encode_session_data sd +:+ more)
  else
    let+ more := Master.encode_session rest S in
    Ret (Master.encode_session_data sd +:+ more).
Proof. reflexivity. Qed.

(** X15. The master encoder writes session data once per data id and
    language, compared in lower case: an entry with a language whose key
    is already written ([languageWritten]), or is that of an earlier entry
    with a language, is left out, and the output is what it is without it.
    An entry without a language is always written. *)
Theorem session_data_written_once {env : Env} (sd : SessionData.t) :
  (SessionData.Language sd <> "" ->
   forall l1 l2 (S : gset string),
     languageWrittenKey sd ∈ S \/
     (exists sd0, Some sd0 ∈ l1 /\ SessionData.Language sd0 <> "" /\
                  languageWrittenKey sd0 = languageWrittenKey sd) ->
     Master.encode_session (l1 ++ Some sd :: l2) S = Master.encode_session (l1 ++ l2) S) /\
  (SessionData.Language sd = "" ->
   forall l (S : gset string),
     Master.encode_session (Some sd :: l) S =
     let+ more := Master.encode_session l S in
     Ret (Master.encode_session_data sd +:+ more)).
Proof.
  split.
  - intros Hlang l1 l2. induction l1 as [|[x|] l1 IHl]; intros S H.
    + destruct H as [H|(sd0 & Hin & _)]; [|now apply elem_of_nil in Hin].
      cbn [app]. rewrite encode_session_Some, (str_empty_false _ Hlang). cbn [negb].
      now rewrite bool_decide_eq_true_2.
    + cbn [app]. rewrite !encode_session_Some.
      destruct (str_empty (SessionData.Language x)) eqn:Ex; cbn [negb].
      * rewrite IHl; [reflexivity|].
        destruct H as [H|(sd0 & Hin & Hl0 & Hk)]; [now left|].
        apply elem_of_cons in Hin as [Hin|Hin].
        -- injection Hin as ->. apply str_empty_true in Ex. contradiction.
        -- right. eauto.
      * destruct (bool_decide (languageWrittenKey x ∈ S)) eqn:E.
        -- apply IHl. destruct H as [H|(sd0 & Hin & Hl0 & Hk)]; [now left|].
           apply elem_of_cons in Hin as [Hin|Hin].
           ++ injection Hin as ->. left. rewrite <- Hk. now apply bool_decide_eq_true in E.
           ++ right. eauto.
        -- rewrite IHl; [reflexivity|].
           destruct H as [H|(sd0 & Hin & Hl0 & Hk)]; [left; clear IHl; set_solver|].
           apply elem_of_cons in Hin as [Hin|Hin].
           ++ injection Hin as ->. left. rewrite <- Hk. clear IHl. set_solver.
           ++ right. eauto.
    + reflexivity.
  - intros Hlang l S. rewrite encode_session_Some.
    apply str_empty_true in Hlang. now rewrite Hlang.
Qed.

(** The title in English and the same data id in capitals with language
    EN: the second entry is left out. *)
Lemma session_data_written_once_witness :
  @Master.encode_session GoEnv.go ([Some title_en] ++ Some title_EN :: []) ∅ =
  @Master.encode_session GoEnv.go ([Some title_en] ++ []) ∅ /\
  (exists out, @Master.encode_session GoEnv.go [Some title_en; Some title_EN] ∅ = Ret out /\
               occurrences "#EXT-X-SESSION-DATA:" out = 1%nat).
Proof.
  split.
  - destruct (@session_data_written_once GoEnv.go title_EN) as [H _].
    apply H; [discriminate|]. right. exists title_en.
    split; [apply elem_of_cons; now left|]. split; [discriminate | vm_compute; reflexivity].
  - eexists. split; vm_compute; reflexivity.
Defined.

Lemma encode_variants_Some {env : Env} (p : MasterPlaylist.t) (v : Variant.t) rest
  (S : gset string) :
  Master.encode_variants p (Some v :: rest) S =
  let+ alts := Master.encode_alternatives (VariantParams.Alternatives (Variant.Params v)) S in
  let+ more := Master.encode_variants p rest (snd alts) in
  Ret (cat [fst alts; encode_variant_line p v; more]).
Proof. reflexivity. Qed.

Lemma cat3 (a b c : string) : cat [a; b; c] = a +:+ b +:+ c.
Proof. reflexivity. Qed.

Lemma encode_variants_last {env : Env} (p : MasterPlaylist.t) (v : Variant.t)
  (l : list (option Variant.t)) :
  forall (S : gset string) out,
    Master.encode_variants p (l ++ [Some v]) S = Ret out ->
    exists pre S' alts S'',
      Master.encode_variants p l S = Ret pre /\
      Master.encode_alternatives (VariantParams.Alternatives (Variant.Params v)) S'
      = Ret (alts, S'') /\
      out = pre +:+ alts +:+ encode_variant_line p v.
Proof.
  induction l as [|[x|] l IHl]; intros S out H.
  - cbn [app] in H. rewrite encode_variants_Some in H.
    apply res_bind_Ret in H as ([alts S''] & Ha & H). cbn [Master.encode_variants res_bind] in H.
    injection H as <-. exists "", S, alts, S''. split; [reflexivity|]. split; [exact Ha|].
    cbn [fst]. now rewrite cat3, append_nil_r, append_nil_l.
  - cbn [app] in H. rewrite encode_variants_Some in H.
    apply res_bind_Ret in H as ([a Sa] & Ha & H).
    apply res_bind_Ret in H as (more & Hmore & H). injection H as <-.
    cbn [snd] in Hmore.
    destruct (IHl _ _ Hmore) as (pre & S' & alts & S'' & Hpre & Halts & ->).
    exists (cat [a; encode_variant_line p x; pre]), S', alts, S''.
    split; [|split; [exact Halts|]].
    + rewrite encode_variants_Some, Ha. cbn [res_bind snd]. rewrite Hpre. reflexivity.
    + cbn [fst]. rewrite !cat3, !append_assoc. reflexivity.
  - discriminate.
Qed.

(** X16. The master encoder writes the variants in the order in which
    [Append] added them. [Append] puts the new variant last and empties the
    cache, and the encoding of the variants then is the encoding of the
    earlier variants, unchanged, followed by the alternatives of the new
    variant that are not yet written and by its own line; so the text
    [Encode] returns after an [Append] ends with the line of the variant
    just appended. *)
Theorem variants_in_order {env : Env} (p : MasterPlaylist.t) (uri : string)
  (chunklist : option nat) (params : VariantParams.t) :
  let v := Variant.mk uri chunklist params in
  let p' := Master.Append uri chunklist params p in
  MasterPlaylist.Variants p' = MasterPlaylist.Variants p ++ [Some v] /\
  MasterPlaylist.buf p' = "" /\
  (forall S out,
     Master.encode_variants p' (MasterPlaylist.Variants p') S = Ret out ->
     exists pre S' alts S'',
       Master.encode_variants p (MasterPlaylist.Variants p) S = Ret pre /\
       Master.encode_alternatives (VariantParams.Alternatives params) S' = Ret (alts, S'') /\
       out = pre +:+ alts +:+ encode_variant_line p v) /\
  (forall out p'',
     Master.Encode p' = Ret (out, p'') ->
     exists pre, out = pre +:+ encode_variant_line p v).
Proof.
  intros v p'.
  assert (Hv : MasterPlaylist.Variants p' = MasterPlaylist.Variants p ++ [Some v]).
  { subst p' v. unfold Master.Append. cbn [Variant.Params].
    destruct (0 <? _); now destruct p. }
  assert (Hb : MasterPlaylist.buf p' = "").
  { subst p' v. unfold Master.Append. cbn [Variant.Params].
    destruct (0 <? _); now destruct p. }
  assert (Hargs : MasterPlaylist.Args p' = MasterPlaylist.Args p).
  { subst p' v. unfold Master.Append. cbn [Variant.Params].
    destruct (0 <? _); now destruct p. }
  assert (Hline : forall x, encode_variant_line p' x = encode_variant_line p x).
  { intros x. unfold encode_variant_line, Master.encode_stream. now rewrite Hargs. }
  assert (Hvs : forall l S, Master.encode_variants p' l S = Master.encode_variants p l S).
  { induction l as [|[x|] l IHl]; intros S; [reflexivity| |reflexivity].
    rewrite !encode_variants_Some, Hline.
    destruct (Master.encode_alternatives _ S) as [[a Sa]|]; [cbn [res_bind]|reflexivity].
    now rewrite IHl. }
  split; [exact Hv|]. split; [exact Hb|]. split.
  - intros S out H. rewrite Hvs, Hv in H.
    now apply encode_variants_last in H.
  - intros out p'' H. unfold Master.Encode in H. rewrite Hb in H.
    change (0 <? buf_Len "") with false in H. cbv iota in H.
    apply res_bind_Ret in H as (o & Hm & H). injection H as <- _.
    unfold Master.encode_master in Hm.
    apply res_bind_Ret in Hm as (session & Hs & Hm).
    apply res_bind_Ret in Hm as (variants & Hvar & Hm). injection Hm as <-.
    rewrite Hvs, Hv in Hvar.
    apply encode_variants_last in Hvar as (pre & S' & alts & S'' & _ & _ & ->).
    exists (cat [ "#EXTM3U"; nl; "#EXT-X-VERSION:"; strver (MasterPlaylist.ver p'); nl;
                  if Master.IndependentSegments p'
                  then "#EXT-X-INDEPENDENT-SEGMENTS" +:+ nl else "";
                  encode_custom (MasterPlaylist.Custom p'); session; pre +:+ alts ]).
    unfold cat. cbn [String.concat]. rewrite ?append_nil_l, ?append_assoc. reflexivity.
Qed.

(** The encoding of [master_two] ends with the line of its second
    variant, the one appended last. *)
Lemma variants_in_order_witness :
  exists out p'' pre,
    @Master.Encode GoEnv.go master_two = Ret (out, p'') /\
    out = pre +:+ ("#EXT-X-STREAM-INF:PROGRAM-ID=0,BANDWIDTH=2000000,AUDIO=" +:+ dq +:+ "aud"
                   +:+ dq +:+ nl +:+ "hi.m3u8" +:+ nl).
Proof.
  assert (HE : exists out p'', @Master.Encode GoEnv.go master_two = Ret (out, p''))
    by (eexists _, _; vm_compute; reflexivity).
  destruct HE as (out & p'' & HE).
  destruct (@variants_in_order GoEnv.go
              (Master.Append "lo.m3u8" None (params_of 500000)
                 (@Master.NewMasterPlaylist GoEnv.go))
              "hi.m3u8" None (params_of 2000000)) as (_ & _ & _ & H).
  destruct (H out p'' HE) as [pre Hpre].
  exists out, p'', pre. split; [exact HE|]. rewrite Hpre. f_equal.
Defined.

(** ** Appending after the segments were replaced *)

Lemma bind_panics {A B} (m : M A) (k : A -> M B) (w : World) :
  (forall a w', exists e, k a w' = Panic e) -> exists e, bind m k w = Panic e.
Proof.
  intros Hk. unfold bind. destruct (m w) as [[a w']|e]; [apply Hk | eauto].
Qed.

Lemma AppendSegment_past_end seg (w : World) :
  head (pl w) <> tail (pl w) -> len (Segments (pl w)) <= tail (pl w) ->
  exists e, AppendSegment seg w = Panic e.
Proof.
  intros Hht Hlen. unfold AppendSegment. unfold bind at 1, getp.
  replace (head (pl w) =? tail (pl w)) with false by (symmetry; now apply Z.eqb_neq).
  cbn [andb].
  apply bind_panics. intros _ w1. apply bind_panics. intros _ w2.
  unfold bind, lift. rewrite assign_out_of_range by exact Hlen. eauto.
Qed.

(** X17. After [SetMediaSegments] with a non-empty list, [tail] is the
    length of the list, one past its last slot, so no append succeeds:
    when [head] happens to equal that length, [AppendSegment] and [Append]
    return [ErrPlaylistFull]; otherwise they panic. With a list shorter
    than 2^63 whose last entry is a segment of the store, the panic of
    [Append] is the index out of range at [p.Segments[p.tail] = seg]. *)
Theorem no_append_after_SetMediaSegments (w w1 : World) (list : slice (option nat)) :
  SetMediaSegments list w = Ret (tt, w1) -> 0 < len list ->
  (head (pl w) = len list ->
     (forall seg, AppendSegment seg w1 = Ret (Some ErrPlaylistFull, w1)) /\
     (forall uri d t, exists w2, Append uri d t w1 = Ret (Some ErrPlaylistFull, w2) /\
                                 pl w2 = pl w1)) /\
  (head (pl w) <> len list ->
     (forall seg, exists e, AppendSegment seg w1 = Panic e) /\
     (forall uri d t, exists e, Append uri d t w1 = Panic e) /\
     (forall uri d t b sb,
        len list < 2 ^ 63 ->
        elems list !! (length (elems list) - 1)%nat = Some (Some b) ->
        segs w !! b = Some sb ->
        Append uri d t w1 = Panic IndexOutOfRange)).
Proof.
  intros Hrun Hlen. rewrite SetMediaSegments_Ret in Hrun. injection Hrun as Hw1.
  assert (Hf : head (pl w1) = head (pl w) /\ count (pl w1) = len list /\
               tail (pl w1) = len list /\ capacity (pl w1) = len list /\
               Segments (pl w1) = list /\ segs w1 = segs w).
  { subst w1. cbn [pl segs]. destruct (pl w). cbn. auto 10. }
  clear Hw1. destruct Hf as (Eh & Ec & Et & Ecap & Es & Esg).
  split.
  - intros Hhead. split.
    + intros seg. apply AppendSegment_full; [now rewrite Eh, Et | now rewrite Ec].
    + intros uri d t. eexists. rewrite Append_unfold. split.
      * apply AppendSegment_full; cbn [pl]; [now rewrite Eh, Et | now rewrite Ec].
      * reflexivity.
  - intros Hhead. split; [|split].
    + intros seg. apply AppendSegment_past_end; rewrite ?Eh, ?Et, ?Es; [exact Hhead | lia].
    + intros uri d t. rewrite Append_unfold.
      apply AppendSegment_past_end; cbn [pl]; rewrite ?Eh, ?Et, ?Es; [exact Hhead | lia].
    + intros uri d t b sb Hsmall Hlast Hsb. rewrite Append_unfold.
      set (a := length (segs w1)). set (sn := new_MediaSegment uri d t).
      set (w2 := mkWorld (segs w1 ++ [sn]) (keys w1) (pl w1)).
      assert (Hsa : segs w2 !! a = Some sn).
      { subst w2 a. cbn [segs]. now rewrite lookup_app_r, Nat.sub_diag by lia. }
      unfold AppendSegment. unfold bind at 1, getp. cbn [pl]. subst w2. cbn [pl].
      rewrite Eh, Et, Ec, Ecap, Es.
      replace (head (pl w) =? len list) with false by (symmetry; now apply Z.eqb_neq).
      cbn [andb].
      rewrite (bind_eq _ _ _ _ _
                 (update_eq a _ sn (mkWorld (segs w1 ++ [sn]) (keys w1) (pl w1)) Hsa)).
      replace (0 <? len list) with true by (symmetry; now apply Z.ltb_lt).
      unfold umod. replace (len list =? 0) with false by (symmetry; apply Z.eqb_neq; lia).
      assert (Hprev : wrap64 (len list + len list - 1) mod len list = len list - 1).
      { rewrite wrap64_small by (unfold uint64_range; lia).
        replace (len list + len list - 1) with (len list - 1 + 1 * len list) by lia.
        rewrite Z.mod_add by lia. apply Z.mod_small. lia. }
      rewrite Hprev.
      assert (Hidx : index list (len list - 1) = Ret (Some b)).
      { apply index_in_range; [lia|].
        replace (Z.to_nat (len list - 1)) with (length (elems list) - 1)%nat
          by (unfold len; lia).
        exact Hlast. }
      assert (Hb : (b < length (segs w))%nat) by (eapply lookup_lt_Some, Hsb).
      unfold bind at 1. unfold bind at 1. unfold bind at 1, lift at 1.
      unfold bind at 1, lift at 1. rewrite Hidx.
      match goal with |- context [load (Some b) ?W] => rewrite (load_eq b sb W) end.
      2:{ cbn [segs]. rewrite list_lookup_insert_ne by (subst a; rewrite Esg; lia).
          rewrite Esg, lookup_app_l by exact Hb. exact Hsb. }
      match goal with |- context [update (Some a) ?f ?W] =>
        rewrite (update_eq a f (MediaSegment.set_SeqId (SeqNo (pl w1)) sn) W)
      end.
      2:{ cbn [segs]. apply list_lookup_insert_eq. subst a.
          rewrite length_app. cbn [length]. lia. }
      unfold bind at 1, lift at 1. rewrite assign_out_of_range by lia. reflexivity.
Qed.

(** With the head at slot 2 a list of three segments leaves the playlist
    "full"; a list of one makes the next [Append] panic. *)
Lemma no_append_after_SetMediaSegments_witness :
  (exists w1, SetMediaSegments (mkSlice [Some 0%nat] []) world_removed2 = Ret (tt, w1) /\
              Append "D.ts" (5 # 1) "" w1 = Panic IndexOutOfRange) /\
  (exists w1, SetMediaSegments (mkSlice [Some 0%nat; Some 1%nat] []) world_removed2
              = Ret (tt, w1) /\
              AppendSegment (Some 0%nat) w1 = Ret (Some ErrPlaylistFull, w1)).
Proof.
  split.
  - eexists. split; [vm_compute; reflexivity|].
    lazymatch goal with |- Append _ _ _ ?w1 = _ =>
      destruct (no_append_after_SetMediaSegments world_removed2 w1 (mkSlice [Some 0%nat] []))
        as [_ H]; [vm_compute; reflexivity | vm_compute; reflexivity |] end.
    destruct H as (_ & _ & H); [vm_compute; discriminate|].
    apply (H "D.ts" (5 # 1) "" 0%nat (MediaSegment.set_URI "A.ts"
             (MediaSegment.set_Duration (4 # 1) MediaSegment.zero)));
      vm_compute; reflexivity.
  - eexists. split; [vm_compute; reflexivity|].
    lazymatch goal with |- AppendSegment _ ?w1 = _ =>
      destruct (no_append_after_SetMediaSegments world_removed2 w1
                  (mkSlice [Some 0%nat; Some 1%nat] []))
        as [H _]; [vm_compute; reflexivity | vm_compute; reflexivity |] end.
    destruct H as [H _]; [vm_compute; reflexivity|]. apply H.
Defined.

(** ** When the encoders return *)

Lemma nil_entry_dec {A} (l : list (option A)) : None ∈ l \/ None ∉ l.
Proof.
  induction l as [|[x|] l [IHl|IHl]].
  - right. apply not_elem_of_nil.
  - left. apply elem_of_cons. now right.
  - right. apply not_elem_of_cons. split; [discriminate | exact IHl].
  - left. apply elem_of_cons. now left.
  - left. apply elem_of_cons. now left.
Qed.

Lemma nil_alternative_dec (l : list (option Variant.t)) :
  (exists v, Some v ∈ l /\ None ∈ VariantParams.Alternatives (Variant.Params v)) \/
  (forall v, Some v ∈ l -> None ∉ VariantParams.Alternatives (Variant.Params v)).
Proof.
  induction l as [|x l [(v & Hin & Hnil)|IHl]].
  - right. intros v H. now apply elem_of_nil in H.
  - left. exists v. split; [apply elem_of_cons; now right | exact Hnil].
  - destruct x as [v|].
    + destruct (nil_entry_dec (VariantParams.Alternatives (Variant.Params v))) as [Hn|Hn].
      * left. exists v. split; [apply elem_of_cons; now left | exact Hn].
      * right. intros v' H. apply elem_of_cons in H as [H|H]; [|now apply IHl].
        now injection H as ->.
    + right. intros v' H. apply elem_of_cons in H as [H|H]; [discriminate | now apply IHl].
Qed.

Lemma encode_session_nil {env : Env} (l : list (option SessionData.t)) :
  forall S : gset string,
    (None ∉ l -> exists out, Master.encode_session l S = Ret out) /\
    (None ∈ l -> Master.encode_session l S = Panic NilDereference).
Proof.
  induction l as [|[sd|] l IHl]; intros S.
  - split; [eauto | intros H; now apply elem_of_nil in H].
  - rewrite encode_session_Some. split.
    + intros H. apply not_elem_of_cons in H as [_ H].
      destruct (negb _); [destruct (bool_decide _)|].
      * now apply IHl.
      * destruct (proj1 (IHl ({[languageWrittenKey sd]} ∪ S)) H) as [out ->]. cbn. eauto.
      * destruct (proj1 (IHl S) H) as [out ->]. cbn. eauto.
    + intros H. apply elem_of_cons in H as [H|H]; [discriminate|].
      destruct (negb _); [destruct (bool_decide _)|].
      * now apply IHl.
      * now rewrite (proj2 (IHl ({[languageWrittenKey sd]} ∪ S)) H).
      * now rewrite (proj2 (IHl S) H).
  - split; [|reflexivity]. intros H. exfalso. apply H, elem_of_cons. now left.
Qed.

Lemma encode_alternatives_nil (l : list (option Alternative.t)) :
  forall S : gset string,
    (None ∉ l -> exists out, Master.encode_alternatives l S = Ret out) /\
    (None ∈ l -> Master.encode_alternatives l S = Panic NilDereference).
Proof.
  induction l as [|[alt|] l IHl]; intros S.
  - split; [eauto | intros H; now apply elem_of_nil in H].
  - rewrite encode_alternatives_Some. split.
    + intros H. apply not_elem_of_cons in H as [_ H].
      destruct (bool_decide _).
      * now apply IHl.
      * destruct (proj1 (IHl ({[altKey alt]} ∪ S)) H) as [out ->]. cbn. eauto.
    + intros H. apply elem_of_cons in H as [H|H]; [discriminate|].
      destruct (bool_decide _).
      * now apply IHl.
      * now rewrite (proj2 (IHl ({[altKey alt]} ∪ S)) H).
  - split; [|reflexivity]. intros H. exfalso. apply H, elem_of_cons. now left.
Qed.

Lemma encode_variants_nil {env : Env} (p : MasterPlaylist.t) (l : list (option Variant.t)) :
  forall S : gset string,
    (None ∉ l ->
     (forall v, Some v ∈ l -> None ∉ VariantParams.Alternatives (Variant.Params v)) ->
     exists out, Master.encode_variants p l S = Ret out) /\
    (None ∈ l \/ (exists v, Some v ∈ l /\ None ∈ VariantParams.Alternatives (Variant.Params v)) ->
     Master.encode_variants p l S = Panic NilDereference).
Proof.
  induction l as [|[v|] l IHl]; intros S.
  - split; [eauto|]. intros [H|(v & H & _)]; now apply elem_of_nil in H.
  - rewrite encode_variants_Some. split.
    + intros H Ha. apply not_elem_of_cons in H as [_ H].
      destruct (proj1 (encode_alternatives_nil _ S)
                  (Ha v ltac:(apply elem_of_cons; now left))) as [[a Sa] ->].
      cbn [res_bind snd].
      destruct (proj1 (IHl Sa) H) as [out ->].
      { intros v' Hv'. apply Ha, elem_of_cons. now right. }
      cbn. eauto.
    + intros H.
      destruct (nil_entry_dec (VariantParams.Alternatives (Variant.Params v))) as [Hn|Hn].
      { now rewrite (proj2 (encode_alternatives_nil _ S) Hn). }
      destruct (proj1 (encode_alternatives_nil _ S) Hn) as [[a Sa] ->]. cbn [res_bind snd].
      rewrite (proj2 (IHl Sa)); [reflexivity|].
      destruct H as [H|(v' & Hv' & Hnil)].
      * apply elem_of_cons in H as [H|H]; [discriminate | now left].
      * apply elem_of_cons in Hv' as [Hv'|Hv']; [injection Hv' as ->; contradiction|].
        right. eauto.
  - split; [|reflexivity]. intros H. exfalso. apply H, elem_of_cons. now left.
Qed.

(** X18. With nothing cached, the master [Encode] returns exactly when
    there is no nil entry among the session data, the variants and the
    alternatives of the variants, and then caches what it returns; a nil
    entry anywhere makes it panic with a nil dereference. With something
    cached it returns the cache. [Append] adds no nil variant. *)
Theorem Master_Encode_returns {env : Env} (p : MasterPlaylist.t) :
  ((0 <? buf_Len (MasterPlaylist.buf p)) = true ->
     Master.Encode p = Ret (MasterPlaylist.buf p, p)) /\
  (MasterPlaylist.buf p = "" ->
     (no_nil_entry p ->
        exists out, Master.encode_master p = Ret out /\
                    Master.Encode p = Ret (out, MasterPlaylist.set_buf out p)) /\
     (~ no_nil_entry p -> Master.Encode p = Panic NilDereference)) /\
  (forall uri chunklist params,
     None ∉ VariantParams.Alternatives params ->
     no_nil_entry p -> no_nil_entry (Master.Append uri chunklist params p)).
Proof.
  split; [|split].
  - intros H. unfold Master.Encode. now rewrite H.
  - intros Hb. unfold Master.Encode, Master.encode_master. rewrite Hb.
    change (0 <? buf_Len "") with false. cbv iota. split.
    + intros (Hs & Hv & Ha).
      destruct (proj1 (encode_session_nil _ ∅) Hs) as [session ->]. cbn [res_bind].
      destruct (proj1 (encode_variants_nil p _ ∅) Hv Ha) as [variants ->]. cbn [res_bind].
      eauto.
    + intros Hnot.
      destruct (nil_entry_dec (MasterPlaylist.SessionData_ p)) as [Hs|Hs].
      { now rewrite (proj2 (encode_session_nil _ ∅) Hs). }
      destruct (proj1 (encode_session_nil _ ∅) Hs) as [session ->]. cbn [res_bind].
      rewrite (proj2 (encode_variants_nil p _ ∅)); [reflexivity|].
      destruct (nil_entry_dec (MasterPlaylist.Variants p)) as [Hv|Hv]; [now left|].
      destruct (nil_alternative_dec (MasterPlaylist.Variants p)) as [He|He]; [now right|].
      exfalso. apply Hnot. split; [exact Hs|]. split; [exact Hv | exact He].
  - intros uri chunklist params Hp (Hs & Hv & Ha).
    assert (E : MasterPlaylist.SessionData_ (Master.Append uri chunklist params p)
                = MasterPlaylist.SessionData_ p /\
                MasterPlaylist.Variants (Master.Append uri chunklist params p)
                = MasterPlaylist.Variants p ++ [Some (Variant.mk uri chunklist params)]).
    { unfold Master.Append. cbn [Variant.Params]. destruct (0 <? _); now destruct p. }
    destruct E as [E1 E2]. unfold no_nil_entry. rewrite E1, E2.
    split; [exact Hs|]. split.
    + intros H. apply elem_of_app in H as [H|H]; [contradiction|].
      apply list_elem_of_singleton in H. discriminate.
    + intros v H. apply elem_of_app in H as [H|H]; [now apply Ha|].
      apply list_elem_of_singleton in H. injection H as ->. exact Hp.
Qed.

(** [master_two], built by two calls of [Append], encodes; with a nil
    variant put in front it panics. *)
Lemma Master_Encode_returns_witness :
  (exists out, @Master.Encode GoEnv.go master_two
               = Ret (out, MasterPlaylist.set_buf out master_two)) /\
  @Master.Encode GoEnv.go
    (MasterPlaylist.set_Variants (None :: MasterPlaylist.Variants master_two) master_two)
  = Panic NilDereference.
Proof.
  split.
  - assert (H0 : no_nil_entry (@Master.NewMasterPlaylist GoEnv.go)).
    { split; [|split].
      - intros H. cbn in H. now apply elem_of_nil in H.
      - intros H. cbn in H. now apply elem_of_nil in H.
      - intros v H. cbn in H. now apply elem_of_nil in H. }
    assert (Ha : forall b, None ∉ VariantParams.Alternatives (params_of b)).
    { intros b H. cbn in H. apply list_elem_of_singleton in H. discriminate. }
    assert (H2 : no_nil_entry master_two).
    { unfold master_two.
      destruct (@Master_Encode_returns GoEnv.go
                  (Master.Append "lo.m3u8" None (params_of 500000)
                     (@Master.NewMasterPlaylist GoEnv.go))) as (_ & _ & Hkeep).
      apply Hkeep; [apply Ha|].
      destruct (@Master_Encode_returns GoEnv.go (@Master.NewMasterPlaylist GoEnv.go))
        as (_ & _ & Hkeep0).
      apply Hkeep0; [apply Ha | exact H0]. }
    destruct (@Master_Encode_returns GoEnv.go master_two) as (_ & H & _).
    destruct H as [H _]; [vm_compute; reflexivity|].
    destruct (H H2) as (out & _ & HE). eauto.
  - destruct (@Master_Encode_returns GoEnv.go
                (MasterPlaylist.set_Variants (None :: MasterPlaylist.Variants master_two)
                   master_two)) as (_ & H & _).
    destruct H as [_ H]; [vm_compute; reflexivity|].
    apply H. intros (_ & Hv & _). apply Hv. vm_compute. apply elem_of_cons. now left.
Defined.

Lemma encode_dateranges_total {env : Env} (drs : list (option DateRange.t)) :
  None ∉ drs -> exists out, encode_dateranges drs = Ret out.
Proof.
  induction drs as [|[dr|] drs IHl]; intros H; cbn [encode_dateranges].
  - eauto.
  - apply not_elem_of_cons in H as [_ H]. destruct (IHl H) as [out ->]. cbn. eauto.
  - exfalso. apply H, elem_of_cons. now left.
Qed.

Lemma encode_segment_total {env : Env} (w : World) (s : MediaSegment.t) c :
  encodable w s -> exists out, encode_segment w s c = Ret out.
Proof.
  intros [Hkey Hdr]. unfold encode_segment.
  assert (Hk : exists key, encode_segment_key w s = Ret key).
  { unfold encode_segment_key, key_changed.
    destruct (MediaSegment.Key s) as [a|] eqn:E; [|eauto].
    destruct (negb _); [|eauto].
    destruct (Hkey a eq_refl) as [k Hk]. unfold deref. rewrite Hk. cbn. eauto. }
  destruct Hk as [key ->]. cbn [res_bind].
  destruct (encode_dateranges_total _ Hdr) as [drs ->]. cbn [res_bind].
  destruct (encode_extinf (pl w) s c) as [extinf c']. eauto.
Qed.

Lemma encode_run_total {env : Env} (w : World) (l : list MediaSegment.t) :
  Forall (encodable w) l -> forall c, exists out, encode_run w l c = Ret out.
Proof.
  induction 1 as [|s l Hs _ IHl]; intros c; cbn [encode_run].
  - eauto.
  - destruct (encode_segment_total w s c Hs) as [out ->]. cbn [res_bind].
    destruct (IHl (snd out)) as [rest ->]. cbn. eauto.
Qed.

(** X19. [Encode] on a media playlist returns without panic when the ring
    is in order, the default key (if any) and the keys of the live
    segments are in the store, and no live segment has a nil date range:
    it returns the playlist's buffer, which holds the text built from the
    state when nothing was cached. *)
Theorem Encode_returns {env : Env} (w : World) (h s C k : Z) :
  filled h s C k w -> 0 < C < 2 ^ 63 -> 0 <= h < C -> 0 <= k <= C ->
  0 <= winsize (pl w) ->
  valid_key w ->
  (forall i sg, 0 <= i < k -> segment_at w ((h + i) mod C) = Some sg -> encodable w sg) ->
  exists b,
    Encode w = Ret (b, mkWorld (segs w) (keys w) (set_buf b (pl w))) /\
    (buf (pl w) = "" -> encode_media w = Ret b).
Proof.
  intros Hf HC Hh Hk Hw Hkey Hsegs.
  destruct (encode_media_window w h s C k Hf HC Hh Hk Hw) as (Hlen & Hall & _ & Hm).
  cbv zeta in *.
  set (m := Z.to_nat (shown (pl w))) in *.
  assert (Hm' : Z.of_nat m <= k).
  { subst m. unfold shown. rewrite (filled_count _ _ _ _ _ Hf).
    destruct (winsize (pl w) =? 0); lia. }
  assert (Hrun : exists body, encode_run w (live_from w m) [] = Ret body).
  { apply encode_run_total. apply Forall_lookup. intros i sg Hi.
    apply lookup_lt_Some in Hi as Hlt. rewrite Hlen in Hlt.
    destruct (Hall i sg Hi) as [Hat _]. apply (Hsegs (Z.of_nat i)); [lia | exact Hat]. }
  destruct Hrun as [body Hrun].
  destruct (encode_header_total w Hkey) as [hdr Hhdr].
  rewrite Hhdr, Hrun in Hm. cbn [res_bind] in Hm.
  unfold Encode. unfold bind at 1, getp.
  destruct (0 <? buf_Len (buf (pl w))) eqn:Hb.
  - exists (buf (pl w)). split.
    + unfold ret. destruct w as [sg ks p]. destruct p. reflexivity.
    + intros E. rewrite E in Hb. discriminate.
  - rewrite Hm. eexists. split; [reflexivity|]. reflexivity.
Qed.

(** The playlist with A, B and C encodes. *)
Lemma Encode_returns_witness :
  exists w b,
    run_ops [OpAppend "A.ts" (4 # 1) ""; OpAppend "B.ts" (6 # 1) "";
             OpAppend "C.ts" (5 # 1) ""] new_2_3 = Ret (tt, w) /\
    @Encode GoEnv.go w = Ret (b, mkWorld (segs w) (keys w) (set_buf b (pl w))) /\
    @encode_media GoEnv.go w = Ret b.
Proof.
  destruct (run_ops_ring
              [OpAppend "A.ts" (4 # 1) ""; OpAppend "B.ts" (6 # 1) "";
               OpAppend "C.ts" (5 # 1) ""] ltac:(repeat constructor) new_2_3)
    as (w & Hrun & Hring).
  { apply (@ring_new GoEnv.go 2 3 empty_world); [vm_compute; reflexivity | lia]. }
  destruct Hring as (HC & Hh & Hk & _ & _ & Hf).
  assert (Hw : 0 <= winsize (pl w) /\ valid_key w /\ buf (pl w) = "" /\
               forall a sg, segs w !! a = Some sg ->
                            MediaSegment.Key sg = None /\ MediaSegment.DateRange sg = []).
  { vm_compute in Hrun. injection Hrun as <-.
    split; [vm_compute; discriminate|]. split; [vm_compute; exact I|].
    split; [vm_compute; reflexivity|].
    intros [|[|[|a]]] sg Ha; try discriminate; injection Ha as <-; split; reflexivity. }
  destruct Hw as (Hw & Hkey & Hbuf & Hplain).
  destruct (@Encode_returns GoEnv.go w _ _ _ _ Hf HC Hh Hk Hw Hkey) as (b & HE & Hm).
  { intros i sg _ Hat. unfold segment_at in Hat.
    match type of Hat with
    | match ?X with _ => _ end = _ => destruct X as [[a|]|]; [|discriminate|discriminate]
    end.
    destruct (Hplain a sg Hat) as [E1 E2]. split.
    - intros a' Ha'. congruence.
    - rewrite E2. apply not_elem_of_nil. }
  exists w, b. split; [exact Hrun|]. split; [exact HE | exact (Hm Hbuf)].
Defined.

(** ** The EXTINF line *)

Lemma cache_get_Some (c : durationCache) (d : float64) (str : string) :
  cache_get c d = Some str -> exists k, (k, str) ∈ c /\ (k == d)%Q.
Proof.
  induction c as [|[k v] c IHl]; cbn [cache_get]; [discriminate|].
  destruct (Qeq_bool k d) eqn:E.
  - intros H. injection H as <-. exists k. split; [apply elem_of_cons; now left|].
    now apply Qeq_bool_iff.
  - intros H. destruct (IHl H) as (k' & Hin & Hk'). exists k'.
    split; [apply elem_of_cons; now right | exact Hk'].
Qed.

Lemma float_trunc_whole (z : Z) : float_trunc (inject_Z z) = z.
Proof.
  unfold float_trunc. destruct (Qle_bool 0 (inject_Z z)).
  - apply Qfloor_Z.
  - apply Qceiling_Z.
Qed.

(** X20. Every segment the loop of [Encode] writes ends with its EXTINF
    line and its URI line: "#EXTINF:", the duration, a comma, the title,
    then the URI, followed by "?" and the playlist's arguments when there
    are arguments (also when the URI has a query of its own). The duration
    is rendered as [DurationAsInt] says: when it is on, and the duration
    rounded up fits an [int64], that whole number is written. The cache of
    durations changes nothing in that: what it returns is the rendering of
    a duration that compares equal, and the cache stays such. *)
Theorem EXTINF_line {env : Env} (w : World) (seg : MediaSegment.t)
  (c c' : durationCache) (out : string) :
  coherent (pl w) c ->
  encode_segment w seg c = Ret (out, c') ->
  coherent (pl w) c' /\
  exists pre d,
    (d == MediaSegment.Duration seg)%Q /\
    out = pre +:+ "#EXTINF:" +:+ format_duration (pl w) d +:+ "," +:+
          MediaSegment.Title seg +:+ nl +:+ MediaSegment.URI seg +:+
          (if negb (str_empty (Args (pl w))) then "?" +:+ Args (pl w) else "") +:+ nl /\
    (durationAsInt (pl w) = true ->
       - 2 ^ 63 <= Qceiling (MediaSegment.Duration seg) < 2 ^ 63 ->
       format_duration (pl w) d = FormatInt (Qceiling (MediaSegment.Duration seg))).
Proof.
  intros Hc H. unfold encode_segment in H.
  apply res_bind_Ret in H as (key & Hkey & H).
  apply res_bind_Ret in H as (drs & Hdrs & H).
  destruct (encode_extinf (pl w) seg c) as [extinf c1] eqn:He.
  injection H as <- <-.
  assert (Hext : coherent (pl w) c1 /\
                 exists d, (d == MediaSegment.Duration seg)%Q /\
                           extinf = format_duration (pl w) d).
  { unfold encode_extinf in He.
    destruct (cache_get c (MediaSegment.Duration seg)) as [str|] eqn:Hg.
    - injection He as <- <-. split; [exact Hc|].
      apply cache_get_Some in Hg as (k & Hin & Hk). exists k. split; [exact Hk|].
      now apply Hc.
    - injection He as <- <-. split.
      + intros k v Hin. apply elem_of_cons in Hin as [Hin|Hin]; [|now apply Hc].
        now injection Hin as -> ->.
      + exists (MediaSegment.Duration seg). split; [reflexivity | reflexivity]. }
  destruct Hext as (Hc1 & d & Hd & ->).
  split; [exact Hc1|].
  exists (cat [ encode_scte (MediaSegment.SCTE seg); key; drs;
                if MediaSegment.Discontinuity seg then "#EXT-X-DISCONTINUITY" +:+ nl else "";
                if MediaSegment.Gap seg then "#EXT-X-GAP" +:+ nl else "";
                match Map (pl w), MediaSegment.Map seg with
                | None, Some m => encode_map m
                | _, _ => ""
                end;
                if negb (Time.IsZero (MediaSegment.ProgramDateTime seg)) then
                  cat [ "#EXT-X-PROGRAM-DATE-TIME:";
                        time_Format (MediaSegment.ProgramDateTime seg) DATETIME; nl ]
                else "";
                if 0 <? MediaSegment.Limit seg then
                  cat [ "#EXT-X-BYTERANGE:"; FormatInt (MediaSegment.Limit seg); "@";
                        FormatInt (MediaSegment.Offset seg); nl ]
                else "";
                encode_custom (MediaSegment.Custom seg) ]), d.
  split; [exact Hd|]. split.
  - destruct (negb (str_empty (Args (pl w)))); unfold cat; cbn [String.concat];
      rewrite ?append_nil_l, ?append_assoc; reflexivity.
  - intros Hint Hfit. unfold format_duration. rewrite Hint.
    assert (Hq : Qceiling d = Qceiling (MediaSegment.Duration seg)) by (now rewrite Hd).
    unfold int64_of_float, math_Ceil. rewrite float_trunc_whole, !Hq. cbv zeta.
    destruct (- 2 ^ 63 <=? Qceiling (MediaSegment.Duration seg)) eqn:E1;
      [|apply Z.leb_gt in E1; lia].
    destruct (Qceiling (MediaSegment.Duration seg) <? 2 ^ 63) eqn:E2;
      [reflexivity | apply Z.ltb_ge in E2; lia].
Qed.

(** With integer durations, a segment of 4.2 s is written as 5. *)
Lemma EXTINF_line_witness :
  exists w out c',
    (Append "A.ts" (21 # 5) "" ;; DurationAsInt true) new_2_3 = Ret (tt, w) /\
    @encode_segment GoEnv.go w (MediaSegment.set_Title "t" (new_MediaSegment "A.ts" (21 # 5) "")) []
    = Ret (out, c') /\
    exists pre, out = pre +:+ "#EXTINF:5,t" +:+ nl +:+ "A.ts" +:+ nl.
Proof.
  eexists _, _, _. split; [vm_compute; reflexivity|]. split; [vm_compute; reflexivity|].
  match goal with |- exists pre, ?o = _ =>
    destruct (@EXTINF_line GoEnv.go
                (default new_2_3 (exec (Append "A.ts" (21 # 5) "" ;; DurationAsInt true) new_2_3))
                (MediaSegment.set_Title "t" (new_MediaSegment "A.ts" (21 # 5) "")) [] 
                [((21 # 5)%Q, "5")] o)
      as (_ & pre & d & Hd & Hout & Hint)
  end.
  - intros k v Hin. now apply elem_of_nil in Hin.
  - vm_compute. reflexivity.
  - exists pre. rewrite Hout, Hint.
    + vm_compute. reflexivity.
    + vm_compute. reflexivity.
    + split; [vm_compute; discriminate | vm_compute; reflexivity].
Defined.

(** ** The setters of the playlist and the cache *)

Lemma keeps_buf_modp (f : MediaPlaylist.t -> MediaPlaylist.t) :
  (forall p, buf (f p) = buf p) -> keeps_buf (modp f).
Proof. intros Hf w a w' H. apply modp_Ret in H as ->. apply Hf. Qed.

(** X21. The setters of the whole playlist leave the cached encoding
    alone: [DurationAsInt], [SetDefaultKey], [SetDefaultMap],
    [SetIframeOnly], [SetCustomTag], [SetVersion], [SetIndependentSegments]
    and [SetWinSize] on a media playlist, [SetCustomTag], [SetVersion] and
    [SetIndependentSegments] on a master playlist. So when an encoding is
    cached, the [Encode] after such a call returns the text made before
    it. *)
Theorem playlist_setters_keep_cache {env : Env} (w w' : World) :
  ((forall yes, DurationAsInt yes w = Ret (tt, w') -> buf (pl w') = buf (pl w)) /\
   (forall m u iv kf kfv r,
      SetDefaultKey m u iv kf kfv w = Ret (r, w') -> buf (pl w') = buf (pl w)) /\
   (forall u l o, SetDefaultMap u l o w = Ret (tt, w') -> buf (pl w') = buf (pl w)) /\
   (SetIframeOnly w = Ret (tt, w') -> buf (pl w') = buf (pl w)) /\
   (forall tag, SetCustomTag tag w = Ret (tt, w') -> buf (pl w') = buf (pl w)) /\
   (forall v, SetVersion v w = Ret (tt, w') -> buf (pl w') = buf (pl w)) /\
   (forall b, SetIndependentSegments b w = Ret (tt, w') -> buf (pl w') = buf (pl w)) /\
   (forall n r, SetWinSize n w = Ret (r, w') -> buf (pl w') = buf (pl w))) /\
  (forall (p : MasterPlaylist.t) tag v b,
     MasterPlaylist.buf (Master.SetCustomTag tag p) = MasterPlaylist.buf p /\
     MasterPlaylist.buf (Master.SetVersion v p) = MasterPlaylist.buf p /\
     MasterPlaylist.buf (Master.SetIndependentSegments b p) = MasterPlaylist.buf p) /\
  ((0 <? buf_Len (buf (pl w))) = true -> buf (pl w') = buf (pl w) ->
   Encode w' = Ret (buf (pl w), w')).
Proof.
  split; [|split].
  - repeat match goal with |- _ /\ _ => split end.
    + intros yes. apply (keeps_buf_bind _ _).
      * destruct yes; [apply keeps_buf_set_ver | apply keeps_pl_buf, keeps_pl_ret].
      * intros _. apply keeps_buf_modp. intros p. now destruct p.
    + intros m u iv kf kfv r. unfold SetDefaultKey.
      apply (keeps_buf_bind _ _).
      * destruct (_ || _); [apply keeps_buf_set_ver | apply keeps_pl_buf, keeps_pl_ret].
      * intros _. apply keeps_buf_bind; [apply keeps_pl_buf, keeps_pl_new_key|].
        intros k. apply keeps_buf_bind; [|intros; apply keeps_pl_buf, keeps_pl_ret].
        apply keeps_buf_modp. intros p. now destruct p.
    + intros u l o. apply (keeps_buf_bind _ _); [apply keeps_buf_set_ver|].
      intros _. apply keeps_buf_modp. intros p. now destruct p.
    + apply (keeps_buf_bind _ _); [apply keeps_buf_set_ver|].
      intros _. apply keeps_buf_modp. intros p. now destruct p.
    + intros tag. apply keeps_buf_modp. intros p. now destruct p.
    + intros v. apply keeps_buf_modp. intros p. now destruct p.
    + intros b. apply keeps_buf_modp. intros p. now destruct p.
    + intros n r. unfold SetWinSize. apply (keeps_buf_bind _ _); [apply keeps_pl_buf, keeps_pl_getp|].
      intros p. destruct (capacity p <? n); [apply keeps_pl_buf, keeps_pl_ret|].
      apply keeps_buf_bind; [|intros; apply keeps_pl_buf, keeps_pl_ret].
      apply keeps_buf_modp. intros p0. now destruct p0.
  - intros p tag v b. destruct p. repeat split.
  - intros Hlen Hb. unfold Encode. unfold bind, getp. rewrite Hb, Hlen. reflexivity.
Qed.

(** With A appended and encoded, [SetIframeOnly] leaves the cache, and
    the next [Encode] returns the text without the I-frames tag. *)
Lemma playlist_setters_keep_cache_witness :
  exists w',
    SetIframeOnly world_A_encoded = Ret (tt, w') /\
    Iframe (pl w') = true /\
    @Encode GoEnv.go w' = Ret (buf (pl world_A_encoded), w') /\
    strings_Contains (buf (pl world_A_encoded)) "#EXT-X-I-FRAMES-ONLY" = false.
Proof.
  eexists. split; [vm_compute; reflexivity|]. split; [vm_compute; reflexivity|].
  split; [|vm_compute; reflexivity].
  lazymatch goal with |- Encode ?w' = _ =>
    destruct (@playlist_setters_keep_cache GoEnv.go world_A_encoded w')
      as ((_ & _ & _ & Hif & _) & _ & Hstale) end.
  apply Hstale; [vm_compute; reflexivity|]. apply Hif. vm_compute. reflexivity.
Defined.

(** ** Custom tags *)



(** ** Segments inserted behind empty slots *)

Lemma live_replicate_None (n : nat) : live (replicate n None) = [].
Proof. induction n as [|n IHn]; [reflexivity | exact IHn]. Qed.

Lemma encode_segments_nil_slots {env : Env} (w : World) (m : nat) (rest : list (option nat)) :
  elems (Segments (pl w)) = replicate m None ++ rest ->
  Z.of_nat m < capacity (pl w) -> uint64_range (capacity (pl w)) ->
  0 <= winsize (pl w) ->
  forall (n j : nat) c,
    (j + n <= m)%nat -> encode_segments w n (Z.of_nat j) 0 c = Ret "".
Proof.
  intros Hel Hcap Hr Hw. induction n as [|n IHn]; intros j c Hle; [reflexivity|].
  rewrite encode_segments_S.
  replace ((0 <? winsize (pl w)) || (winsize (pl w) =? 0)) with true.
  2:{ symmetry. destruct (Z.eq_dec (winsize (pl w)) 0) as [->|Hne]; [reflexivity|].
      apply orb_true_iff. left. apply Z.ltb_lt. lia. }
  rewrite (index_nat _ j None).
  2:{ rewrite Hel, lookup_app_l by (rewrite length_replicate; lia).
      apply lookup_replicate_2. lia. }
  cbn [res_bind]. unfold umod.
  destruct (capacity (pl w) =? 0) eqn:E0; [apply Z.eqb_eq in E0; lia|]. cbn [res_bind].
  unfold uint64_range in Hr.
  rewrite wrap64_small by (unfold uint64_range; lia).
  rewrite Z.mod_small by lia.
  replace (Z.of_nat j + 1) with (Z.of_nat (S j)) by lia. apply IHn. lia.
Qed.

Lemma inserted_other_fields p segments n :
  winsize (inserted p segments n) = winsize p /\
  Key (inserted p segments n) = Key p /\
  Closed (inserted p segments n) = Closed p.
Proof. unfold inserted. destruct p; simpl. auto. Qed.

(** X23. [InsertSegments] with a sequence id at or past the length of the
    list puts the new segments after every slot there is, the empty ones
    included. On a playlist made by [NewMediaPlaylist] and never appended
    to, all [capacity] slots are empty: the new segments land behind them,
    [count] becomes their number and [head] stays 0, and since the loop of
    [Encode] visits [count] slots from [head], empty or not, it meets empty
    slots only. [Encode] then returns the header and no segment. *)
Theorem inserted_behind_empty_slots {env : Env} (n c : Z) (w0 w : World)
  (ptrs : list nat) (seqID : Z) :
  NewMediaPlaylist n c w0 = Ret (None, w) -> 0 <= n -> 0 < c -> c <= seqID ->
  ptrs <> [] -> Z.of_nat (length ptrs) <= c -> c + Z.of_nat (length ptrs) < 2 ^ 64 ->
  NoDup ptrs -> Forall (fun a => a < length (segs w))%nat ptrs ->
  exists w',
    InsertSegments (map Some ptrs) seqID w = Ret (None, w') /\
    elems (Segments (pl w')) = replicate (Z.to_nat c) None ++ map Some ptrs /\
    count (pl w') = Z.of_nat (length ptrs) /\ head (pl w') = 0 /\
    encode_segments w' (Z.to_nat (count (pl w'))) (head (pl w')) 0 [] = Ret "" /\
    exists hdr,
      encode_header w' = Ret hdr /\
      Encode w' = Ret (hdr, mkWorld (segs w') (keys w') (set_buf hdr (pl w'))).
Proof.
  intros Hnew Hn Hc Hseq Hne Hlen Hsmall Hnd Hvalid.
  apply NewMediaPlaylist_Ret in Hnew as [_ Hw].
  assert (Hp : elems (Segments (pl w)) = replicate (Z.to_nat c) None /\
               count (pl w) = 0 /\ capacity (pl w) = c /\ head (pl w) = 0 /\
               winsize (pl w) = n /\ Key (pl w) = None /\ Closed (pl w) = false).
  { subst w. cbn. auto 10. }
  destruct Hp as (Eel & Ecount & Ecap & Ehead & Ewin & Ekey & Eclosed).
  assert (Elen : len (Segments (pl w)) = c).
  { unfold len. rewrite Eel, length_replicate. lia. }
  assert (Ei : Z.to_nat (insertIndex_of (len (Segments (pl w))) seqID) = Z.to_nat c).
  { rewrite Elen. unfold insertIndex_of.
    replace (c <=? seqID) with true by (symmetry; now apply Z.leb_le). reflexivity. }
  destruct (InsertSegments_ok w ptrs seqID Hne ltac:(lia)) as (sg' & sp & Hrun & _).
  { rewrite Ei, Eel, drop_replicate, live_replicate_None, app_nil_r. exact Hnd. }
  { rewrite Ei, Eel, drop_replicate, live_replicate_None, app_nil_r. exact Hvalid. }
  rewrite Ei, Eel in Hrun.
  assert (Hplaced : placed (replicate (Z.to_nat c) (@None nat)) (map Some ptrs) (Z.to_nat c)
                    = replicate (Z.to_nat c) None ++ map Some ptrs).
  { unfold placed. rewrite take_ge, drop_ge by (rewrite length_replicate; lia).
    now rewrite app_nil_r. }
  rewrite Hplaced in Hrun.
  set (S1 := mkSlice (replicate (Z.to_nat c) None ++ map Some ptrs) sp) in *.
  set (w' := mkWorld sg' (keys w) (inserted (pl w) S1 (Z.of_nat (length ptrs)))) in *.
  destruct (inserted_fields (pl w) S1 (Z.of_nat (length ptrs)))
    as (F1 & F2 & F3 & _ & F5 & _ & F7).
  destruct (inserted_other_fields (pl w) S1 (Z.of_nat (length ptrs))) as (G1 & G2 & G3).
  assert (Hcount : count (pl w') = Z.of_nat (length ptrs)).
  { subst w'. cbn [pl]. rewrite F2, Ecount. apply wrap64_small. unfold uint64_range. lia. }
  assert (Hcap : capacity (pl w') = c + Z.of_nat (length ptrs)).
  { subst w'. cbn [pl]. rewrite F3, Ecap. apply wrap64_small. unfold uint64_range. lia. }
  assert (Hhead : head (pl w') = 0) by (subst w'; cbn [pl]; now rewrite F5).
  assert (Hel : elems (Segments (pl w')) = replicate (Z.to_nat c) None ++ map Some ptrs).
  { subst w'. cbn [pl]. now rewrite F1. }
  assert (Hbody : encode_segments w' (Z.to_nat (count (pl w'))) (head (pl w')) 0 [] = Ret "").
  { rewrite Hhead, Hcount. change 0 with (Z.of_nat 0) at 1.
    apply (encode_segments_nil_slots w' (Z.to_nat c) (map Some ptrs) Hel).
    - rewrite Hcap. destruct ptrs; [congruence|]. cbn [length]. lia.
    - rewrite Hcap. unfold uint64_range. lia.
    - subst w'. cbn [pl]. rewrite G1, Ewin. exact Hn.
    - lia. }
  exists w'. split; [exact Hrun|]. split; [exact Hel|]. split; [exact Hcount|].
  split; [exact Hhead|]. split; [exact Hbody|].
  destruct (encode_header_total w') as [hdr Hhdr].
  { unfold valid_key. subst w'. cbn [pl]. now rewrite G2, Ekey. }
  exists hdr. split; [exact Hhdr|].
  rewrite Encode_fresh by (subst w'; cbn [pl]; exact F7).
  unfold encode_media. rewrite Hhdr, Hbody. cbn [res_bind].
  replace (Closed (pl w')) with false by (subst w'; cbn [pl]; now rewrite G3, Eclosed).
  unfold cat. cbn [String.concat]. rewrite !append_nil_r. reflexivity.
Qed.

(** A new playlist of capacity 2 and a segment X in the store: inserted at
    sequence id 2, X sits in a third slot and [Encode] shows no segment. *)
Lemma inserted_behind_empty_slots_witness :
  exists w w' b w'',
    (@NewMediaPlaylist GoEnv.go 0 2 ;; new_segment) empty_world = Ret (Some 0%nat, w) /\
    InsertSegments [Some 0%nat] 2 w = Ret (None, w') /\
    elems (Segments (pl w')) = [None; None; Some 0%nat] /\
    @Encode GoEnv.go w' = Ret (b, w'') /\
    strings_Contains b "#EXTINF" = false.
Proof.
  set (w := mkWorld [MediaSegment.zero] []
              (pl (default empty_world (exec (@NewMediaPlaylist GoEnv.go 0 2) empty_world)))).
  destruct (@inserted_behind_empty_slots GoEnv.go 0 2
              (mkWorld [MediaSegment.zero] [] MediaPlaylist.zero) w [0%nat] 2)
    as (w' & Hrun & Hel & _ & _ & _ & hdr & Hhdr & HE).
  - vm_compute. reflexivity.
  - lia.
  - lia.
  - lia.
  - discriminate.
  - vm_compute. discriminate.
  - vm_compute. reflexivity.
  - repeat constructor. intros H. now apply elem_of_nil in H.
  - repeat constructor.
  - exists w, w', hdr, (mkWorld (segs w') (keys w') (set_buf hdr (pl w'))).
    split; [vm_compute; reflexivity|]. split; [exact Hrun|]. split; [exact Hel|].
    split; [exact HE|].
    vm_compute in Hrun. injection Hrun as <-.
    vm_compute in Hhdr. injection Hhdr as <-. vm_compute. reflexivity.
Defined.
